(** * jsonschema: the attribute validators of [lib/attribute.js]

    A shallow embedding of the keyword validators of the JSON-schema
    validator ([validators.type], [validators.oneOf], ...) together with the
    helpers they are built from ([removeNot],
    [hasMutuallyExclusiveDependencies], [hasNoDependencies],
    [testAdditionalProperty], [testArrays]).

    Layout:
    - [JS]: JSON-like values, the fragment of JavaScript's operators the
      validators use (property access, truthiness, [ToString], [Object.keys],
      [JSON.stringify]) and the exception monad [exc];
    - [Helpers]: [ValidationError] and [ValidatorResult] of [lib/helpers.js];
    - [Attribute]: the validators, parametric in [this] (the [Validator]
      object whose [validateSchema] and [testType] they call back into) and
      in the host primitives [RegExp] and [helpers.isFormat];
    - [Store]: [removeNot], [_.cloneDeep], [_.isEqual] and
      [hasMutuallyExclusiveDependencies] once more over an explicit object
      store, where in-place mutation and aliasing are visible;
    - [Engine]: a small orchestrator used to run the validators on concrete
      schemas;
    - [Spec], [Repr], [Behaviour]: the vocabulary of the statements;
    - the theorems: the validators ([Claims]), the store ([StoreFacts]),
      the agreement of the two embeddings of the detection ([Refinement],
      [Detection]), the validators once more, one by one ([Further]), and
      the schemas of the test suite ([Worked], [WorkedFurther]). *)

From Stdlib Require Import ZArith String Ascii List Bool Lia DecimalString DecimalNat.
From stdpp Require Import base option list strings gmap.

Local Open Scope string_scope.
Local Open Scope Z_scope.

(* ===================================================================== *)
(** * JavaScript values and operators *)
(* ===================================================================== *)

Module JS.

(** JSON-like values.  Schemas and instances are both values of this type.
    An object is the list of its own enumerable properties in enumeration
    order (keys are unique; JavaScript enumerates the keys that are array
    indices first, in ascending order, then the others in the order they
    were added); numbers are the integer-valued ones; a string is a
    sequence of characters each standing for one UTF-16 code unit. *)
Unset Elimination Schemes.
Inductive jsval : Type :=
| JUndefined
| JNull
| JBool (b : bool)
| JNum (n : Z)
| JStr (s : string)
| JArr (xs : list jsval)
| JObj (props : list (string * jsval)).
Set Elimination Schemes.

(** Exceptions the validators can raise: [SchemaError] is thrown by the
    validators themselves, [TypeError] by a property access on [null] or
    [undefined], [SyntaxError] by [new RegExp] on an ill-formed pattern,
    [RangeError] when the call stack is exhausted. *)
Inductive exn : Type :=
| SchemaError (msg : string)
| TypeError
| SyntaxError
| RangeError.

Inductive exc (A : Type) : Type :=
| Ok (a : A)
| Throw (e : exn).
Arguments Ok {A} a.
Arguments Throw {A} e.

Definition exc_bind {A B} (f : A → exc B) (c : exc A) : exc B :=
  match c with
  | Ok a => f a
  | Throw e => Throw e
  end.

#[global] Instance exc_ret : MRet exc := @Ok.
#[global] Instance exc_mbind : MBind exc := @exc_bind.

(** ** Truthiness, [typeof], [instanceof] *)

Definition truthy (v : jsval) : bool :=
  match v with
  | JUndefined | JNull => false
  | JBool b => b
  | JNum n => negb (n =? 0)
  | JStr s => negb (s =? "")%string
  | JArr _ | JObj _ => true
  end.

(** [a && b] and [a || b] on values (both operands already evaluated). *)
Definition js_and (a b : jsval) : jsval := if truthy a then b else a.
Definition js_or (a b : jsval) : jsval := if truthy a then a else b.

(** [typeof v === 'object'] (true of [null] as well). *)
Definition typeof_object (v : jsval) : bool :=
  match v with
  | JNull | JArr _ | JObj _ => true
  | _ => false
  end.

Definition typeof_number (v : jsval) : bool :=
  match v with JNum _ => true | _ => false end.

Definition typeof_string (v : jsval) : bool :=
  match v with JStr _ => true | _ => false end.

(** [v instanceof Array] *)
Definition instanceof_Array (v : jsval) : bool :=
  match v with JArr _ => true | _ => false end.

(** [v instanceof Object] *)
Definition instanceof_Object (v : jsval) : bool :=
  match v with JArr _ | JObj _ => true | _ => false end.

Definition is_undefined (v : jsval) : bool :=
  match v with JUndefined => true | _ => false end.

Definition is_null (v : jsval) : bool :=
  match v with JNull => true | _ => false end.

(** ** Numbers and strings *)

Definition string_of_nat (n : nat) : string :=
  NilEmpty.string_of_uint (Nat.to_uint n).

Definition string_of_Z (n : Z) : string :=
  NilZero.string_of_int (Z.to_int n).

(** The canonical array index a property key denotes, if any. *)
Definition index_of_string (s : string) : option nat :=
  match NilEmpty.uint_of_string s with
  | Some d =>
      let n := Nat.of_uint d in
      if (string_of_nat n =? s)%string then Some n else None
  | None => None
  end.

Definition join_with (sep : string) : list string → string :=
  fix go (l : list string) : string :=
    match l with
    | [] => ""
    | [s] => s
    | s :: rest => s ++ sep ++ go rest
    end.

(** [ToString]: what [v + ''] and [Array.prototype.join] produce, for a
    number below [1e21] in size (larger ones print in exponent form) and
    an object or array without an own property [toString] (with one, which
    is no function, the conversion throws). *)
Fixpoint ToString (v : jsval) : string :=
  match v with
  | JUndefined => "undefined"
  | JNull => "null"
  | JBool true => "true"
  | JBool false => "false"
  | JNum n => string_of_Z n
  | JStr s => s
  | JArr xs =>
      join_with ","
        ((fix elems (l : list jsval) : list string :=
            match l with
            | [] => []
            | x :: rest =>
                (match x with
                 | JUndefined | JNull => ""
                 | _ => ToString x
                 end) :: elems rest
            end) xs)
  | JObj _ => "[object Object]"
  end.

(** [a + b] where one side is a string. *)
Definition js_concat (a b : jsval) : string := ToString a ++ ToString b.

(** ** Property access *)

Fixpoint assoc_get (k : string) (ps : list (string * jsval)) : option jsval :=
  match ps with
  | [] => None
  | (k', v) :: rest => if (k' =? k)%string then Some v else assoc_get k rest
  end.

(** [o[k] = v] on the property list: overwrite in place, or append. *)
Fixpoint assoc_set (k : string) (v : jsval) (ps : list (string * jsval))
  : list (string * jsval) :=
  match ps with
  | [] => [(k, v)]
  | (k', v') :: rest =>
      if (k' =? k)%string then (k', v) :: rest else (k', v') :: assoc_set k v rest
  end.

(** [delete o[k]] *)
Fixpoint assoc_delete (k : string) (ps : list (string * jsval))
  : list (string * jsval) :=
  match ps with
  | [] => []
  | (k', v') :: rest =>
      if (k' =? k)%string then assoc_delete k rest else (k', v') :: assoc_delete k rest
  end.

Definition char_at (s : string) (i : nat) : jsval :=
  match String.get i s with
  | Some c => JStr (String c EmptyString)
  | None => JUndefined
  end.

(** [v[i]] for a numeric index [i]. *)
Definition get_index (v : jsval) (i : nat) : exc jsval :=
  match v with
  | JUndefined | JNull => Throw TypeError
  | JArr xs => Ok (default JUndefined (xs !! i))
  | JObj ps => Ok (default JUndefined (assoc_get (string_of_nat i) ps))
  | JStr s => Ok (char_at s i)
  | JBool _ | JNum _ => Ok JUndefined
  end.

(** [v[k]] / [v.k] for a string key [k].  Only own properties are modelled
    (plus [length] of arrays and strings): the members inherited from
    [Object.prototype] and friends are not. *)
Definition get (v : jsval) (k : string) : exc jsval :=
  match v with
  | JUndefined | JNull => Throw TypeError
  | JObj ps => Ok (default JUndefined (assoc_get k ps))
  | JArr xs =>
      match index_of_string k with
      | Some i => Ok (default JUndefined (xs !! i))
      | None =>
          if (k =? "length")%string then Ok (JNum (Z.of_nat (length xs)))
          else Ok JUndefined
      end
  | JStr s =>
      match index_of_string k with
      | Some i => Ok (char_at s i)
      | None =>
          if (k =? "length")%string then Ok (JNum (Z.of_nat (String.length s)))
          else Ok JUndefined
      end
  | JBool _ | JNum _ => Ok JUndefined
  end.

(** [o.hasOwnProperty(k)] on a value with [typeof o === 'object'].  The
    method is looked up on [o] like any property: an own property named
    [hasOwnProperty] shadows the method of [Object.prototype], and since
    no value here is a function, calling it throws a [TypeError]. *)
Definition hasOwnProperty (v : jsval) (k : string) : exc bool :=
  match v with
  | JUndefined | JNull => Throw TypeError
  | JObj ps =>
      if bool_decide (is_Some (assoc_get "hasOwnProperty" ps)) then Throw TypeError
      else Ok (bool_decide (is_Some (assoc_get k ps)))
  | JArr xs =>
      match index_of_string k with
      | Some i => Ok (bool_decide (i < length xs)%nat)
      | None => Ok (k =? "length")%string
      end
  | JStr s =>
      match index_of_string k with
      | Some i => Ok (bool_decide (i < String.length s)%nat)
      | None => Ok (k =? "length")%string
      end
  | JBool _ | JNum _ => Ok false
  end.

(** The members every object inherits from [Object.prototype] (ECMAScript,
    Annex B included).  [get] above reads own properties: for an object
    without an own property [k], [o[k]] is [undefined] unless [k] is one of
    these names, in which case JavaScript finds the inherited member. *)
Definition Object_prototype_names : list string :=
  ["constructor"; "hasOwnProperty"; "isPrototypeOf"; "propertyIsEnumerable";
   "toLocaleString"; "toString"; "valueOf"; "__proto__";
   "__defineGetter__"; "__defineSetter__"; "__lookupGetter__"; "__lookupSetter__"].

(** A property name that is no member of [Object.prototype]. *)
Definition plain_name (k : string) : bool :=
  negb (bool_decide (k ∈ Object_prototype_names)).

(** [v[k]] does not reach a prototype, so that [get v k] is what JavaScript
    reads: [v] is [null] or [undefined] (the access throws); or an object
    and either [k] is an own property or [k] names no inherited member; or
    an array or a string and [k] is an index or [length].  Numbers and
    booleans inherit every member they have. *)
Definition reads_own (v : jsval) (k : string) : bool :=
  match v with
  | JUndefined | JNull => true
  | JObj ps => bool_decide (is_Some (assoc_get k ps)) || plain_name k
  | JArr _ | JStr _ =>
      bool_decide (is_Some (index_of_string k)) || (k =? "length")%string
  | JBool _ | JNum _ => false
  end.

Definition indices (n : nat) : list string := string_of_nat <$> seq 0 n.

(** The enumerable own keys of a value that is not [null]/[undefined]:
    what [for (k in v)] visits. *)
Definition own_keys (v : jsval) : list string :=
  match v with
  | JObj ps => fst <$> ps
  | JArr xs => indices (length xs)
  | JStr s => indices (String.length s)
  | _ => []
  end.

(** [Object.keys(v)] *)
Definition Object_keys (v : jsval) : exc (list string) :=
  match v with
  | JUndefined | JNull => Throw TypeError
  | _ => Ok (own_keys v)
  end.

(** [o[k] = v] on an object or array value; the updated value is returned.
    An array grows when [k] is the index just past its end or beyond (the
    gap reads as [undefined]); a key of an array that is no index is not
    representable and leaves it as it is.  Assigning to a property of a
    primitive does nothing; on [null]/[undefined] it throws. *)
Definition set (o : jsval) (k : string) (v : jsval) : exc jsval :=
  match o with
  | JUndefined | JNull => Throw TypeError
  | JObj ps => Ok (JObj (assoc_set k v ps))
  | JArr xs =>
      match index_of_string k with
      | Some i =>
          if bool_decide (i < length xs)%nat then Ok (JArr (<[i := v]> xs))
          else Ok (JArr (xs ++ replicate (i - length xs) JUndefined ++ [v]))
      | None => Ok o
      end
  | _ => Ok o
  end.

Definition set_index (o : jsval) (i : nat) (v : jsval) : exc jsval :=
  set o (string_of_nat i) v.

(** Structural identity of two values: how [a === b] is read on values
    (two references to one object have one state). *)
Fixpoint same_value (a b : jsval) {struct a} : bool :=
  match a, b with
  | JUndefined, JUndefined => true
  | JNull, JNull => true
  | JBool x, JBool y => Bool.eqb x y
  | JNum x, JNum y => (x =? y)
  | JStr x, JStr y => (x =? y)%string
  | JArr xs, JArr ys =>
      (fix go (l : list jsval) (r : list jsval) {struct l} : bool :=
         match l, r with
         | [], [] => true
         | x :: l', y :: r' => same_value x y && go l' r'
         | _, _ => false
         end) xs ys
  | JObj ps, JObj qs =>
      (fix go (l : list (string * jsval)) (r : list (string * jsval)) {struct l} : bool :=
         match l, r with
         | [], [] => true
         | (k, x) :: l', (k', y) :: r' => (k =? k')%string && same_value x y && go l' r'
         | _, _ => false
         end) ps qs
  | _, _ => false
  end.

(** ** Loops that may throw

    [Array.prototype.map], [some], [every], [filter] and [forEach] with a
    callback that can throw: the first exception ends the loop. *)

Fixpoint mapM {A B} (f : A → exc B) (l : list A) : exc (list B) :=
  match l with
  | [] => Ok []
  | x :: rest => y ← f x; ys ← mapM f rest; mret (y :: ys)
  end.

Fixpoint someM {A} (f : A → exc bool) (l : list A) : exc bool :=
  match l with
  | [] => Ok false
  | x :: rest => b ← f x; if b : bool then mret true else someM f rest
  end.

Fixpoint everyM {A} (f : A → exc bool) (l : list A) : exc bool :=
  match l with
  | [] => Ok true
  | x :: rest => b ← f x; if b : bool then everyM f rest else mret false
  end.

Fixpoint filterM {A} (f : A → exc bool) (l : list A) : exc (list A) :=
  match l with
  | [] => Ok []
  | x :: rest =>
      b ← f x; ys ← filterM f rest;
      mret (if b : bool then x :: ys else ys)
  end.

(** [forEach] / [for ... in] threading a state [S] through the body. *)
Fixpoint foldM {A S} (f : S → A → exc S) (s : S) (l : list A) : exc S :=
  match l with
  | [] => Ok s
  | x :: rest => s' ← f s x; foldM f s' rest
  end.

(** The elements of an array value. *)
Definition elems (v : jsval) : list jsval :=
  match v with JArr xs => xs | _ => [] end.

(** ** [ToNumber], comparisons *)

(** [ToNumber] of a string holding a decimal integer literal ([None] is
    [NaN]; the empty string is [0]); the other numeric literals of
    JavaScript (fractions, exponents, hexadecimal, surrounding blanks) have
    no value among the integers and are not read. *)
Definition StringToNumber (s : string) : option Z :=
  if (s =? "")%string then Some 0
  else match NilZero.int_of_string s with
       | Some d => Some (Z.of_int d)
       | None => None
       end.

Definition ToNumber (v : jsval) : option Z :=
  match v with
  | JUndefined => None
  | JNull => Some 0
  | JBool b => Some (if b then 1 else 0)
  | JNum n => Some n
  | JStr s => StringToNumber s
  | JArr _ | JObj _ => StringToNumber (ToString v)
  end.

(** [n >= v], [n > v], [n <= v], [n < v] for a number [n]: false when [v]
    converts to [NaN]. *)
Definition num_cmp (op : Z → Z → bool) (n : Z) (v : jsval) : bool :=
  match ToNumber v with
  | Some m => op n m
  | None => false
  end.

(** [v == 0] *)
Definition loose_eq_zero (v : jsval) : bool :=
  match v with
  | JUndefined | JNull => false
  | _ => match ToNumber v with Some m => (m =? 0) | None => false end
  end.

(** Truthiness of [n / v % 1] for a number [n] and [v != 0]: the quotient
    has a fractional part.  [NaN] is falsy, and so is the outcome for a
    divisor that converts to [0] without being [== 0], that is [null]: the
    quotient is infinite or [NaN].  Rounding is not modelled. *)
Definition has_fraction (n : Z) (v : jsval) : bool :=
  match ToNumber v with
  | Some m => if (m =? 0) then false else negb (Z.rem n m =? 0)
  | None => false
  end.

(** ** [JSON.stringify] *)

Definition dquote : ascii := ascii_of_nat 34.
Definition backslash : ascii := ascii_of_nat 92.

Definition hex_digit (n : nat) : ascii :=
  default "0"%char
    (["0"; "1"; "2"; "3"; "4"; "5"; "6"; "7"; "8"; "9";
      "a"; "b"; "c"; "d"; "e"; "f"]%char !! n).

Definition escape_char (c : ascii) : string :=
  let n := nat_of_ascii c in
  let esc (x : ascii) := String backslash (String x "") in
  if (n =? 34)%nat then esc dquote
  else if (n =? 92)%nat then esc backslash
  else if (n =? 8)%nat then esc "b"%char
  else if (n =? 12)%nat then esc "f"%char
  else if (n =? 10)%nat then esc "n"%char
  else if (n =? 13)%nat then esc "r"%char
  else if (n =? 9)%nat then esc "t"%char
  else if (n <? 32)%nat then
    esc "u"%char ++ "00" ++ String (hex_digit (n / 16)) (String (hex_digit (n mod 16)) "")
  else String c "".

Fixpoint escape (s : string) : string :=
  match s with
  | EmptyString => ""
  | String c rest => escape_char c ++ escape rest
  end.

Definition quote (s : string) : string :=
  String dquote (escape s ++ String dquote "").

(** The text [JSON.stringify(v)] returns for a value other than
    [undefined] (an [undefined] array element prints as [null], an
    [undefined] property is left out). *)
Fixpoint stringify (v : jsval) : string :=
  match v with
  | JUndefined => "null"
  | JNull => "null"
  | JBool true => "true"
  | JBool false => "false"
  | JNum n => string_of_Z n
  | JStr s => quote s
  | JArr xs =>
      "[" ++ join_with ","
        ((fix go (l : list jsval) : list string :=
            match l with
            | [] => []
            | x :: rest => stringify x :: go rest
            end) xs) ++ "]"
  | JObj ps =>
      "{" ++ join_with ","
        ((fix go (l : list (string * jsval)) : list string :=
            match l with
            | [] => []
            | (k, x) :: rest =>
                match x with
                | JUndefined => go rest
                | _ => (quote k ++ ":" ++ stringify x) :: go rest
                end
            end) ps) ++ "}"
  end.

Definition JSON_stringify (v : jsval) : jsval :=
  match v with
  | JUndefined => JUndefined
  | _ => JStr (stringify v)
  end.

End JS.

Export JS.

(* ===================================================================== *)
(** * Results and errors ([lib/helpers.js]) *)
(* ===================================================================== *)

Module Helpers.

(** Modelled from the spec: [ValidationError] of [lib/helpers.js] (not part
    of [lib/attribute.js]); an error record is a message and the property
    path it is addressed to. *)
Record ValidationError : Type := mkError {
  err_message : string;
  err_property : string;
}.

(** Modelled from the spec: [ValidatorResult] of [lib/helpers.js]; the
    accumulator tied to one (instance, schema, context) triple, holding the
    ordered list of errors found.  The plain object literals
    [{errors, instance, propertyPath, schema}] that [anyOf] and [oneOf]
    build have the same four fields. *)
Record ValidatorResult : Type := mkResult {
  vr_instance : jsval;
  vr_schema : jsval;
  vr_propertyPath : string;
  vr_errors : list ValidationError;
}.

(** Modelled from the spec: the validation context [SchemaContext]; the
    validators read its [propertyPath] and extend it with [makeChild]. *)
Record SchemaContext : Type := mkCtx {
  ctx_propertyPath : string;
}.

(** The key [ctx.makeChild(schema, key)] extends the path by: a property
    name or an array index. *)
Inductive pkey : Type :=
| PName (name : string)
| PIndex (i : nat).

(** [new ValidatorResult(instance, schema, options, ctx)] *)
Definition new_ValidatorResult (inst sch : jsval) (ctx : SchemaContext)
  : ValidatorResult :=
  {| vr_instance := inst; vr_schema := sch;
     vr_propertyPath := ctx_propertyPath ctx; vr_errors := [] |}.

(** [result.valid]: true iff the error list is empty. *)
Definition valid (r : ValidatorResult) : bool :=
  match vr_errors r with [] => true | _ => false end.

(** [result.addError(message)] and [result.addError(message, property)]:
    the error is appended; it is addressed to [property] when given, to the
    result's own path otherwise. *)
Definition addError (r : ValidatorResult) (msg : string) (prop : option string)
  : ValidatorResult :=
  {| vr_instance := vr_instance r; vr_schema := vr_schema r;
     vr_propertyPath := vr_propertyPath r;
     vr_errors := vr_errors r ++ [mkError msg (default (vr_propertyPath r) prop)] |}.

(** [result.importErrors(res)] for a result [res]: its errors are appended,
    not re-wrapped. *)
Definition importErrors (r res : ValidatorResult) : ValidatorResult :=
  {| vr_instance := vr_instance r; vr_schema := vr_schema r;
     vr_propertyPath := vr_propertyPath r;
     vr_errors := vr_errors r ++ vr_errors res |}.

(** [result.instance = v] *)
Definition with_instance (r : ValidatorResult) (v : jsval) : ValidatorResult :=
  {| vr_instance := v; vr_schema := vr_schema r;
     vr_propertyPath := vr_propertyPath r; vr_errors := vr_errors r |}.

(** What a validator returns: nothing ([return;]), [null], a message, a
    [ValidatorResult], or a plain object literal with an [errors] list. *)
Inductive ret : Type :=
| RUndefined
| RNull
| RString (msg : string)
| RResult (r : ValidatorResult)
| RObject (r : ValidatorResult).

(** Modelled from the spec: the orchestrator of [lib/validator.js]
    normalises the three return shapes into its accumulating result; a
    falsy return adds nothing, a message adds one error at the current
    path, a result adds its errors.  [contributed] is the list of errors a
    validator's return value adds. *)
Definition contributed (ctx : SchemaContext) (x : ret) : list ValidationError :=
  match x with
  | RUndefined | RNull => []
  | RString msg =>
      if (msg =? "")%string then [] else [mkError msg (ctx_propertyPath ctx)]
  | RResult r | RObject r => vr_errors r
  end.

(** The shapes [helpers.isFormat] returns: [true], [false], a [RegExp]
    (given by its source) or a message. *)
Inductive FormatResult : Type :=
| FTrue
| FFalse
| FRegExp (source : string)
| FString (msg : string).

End Helpers.

Export Helpers.

(* ===================================================================== *)
(** * The attribute validators ([lib/attribute.js]) *)
(* ===================================================================== *)

Module Attribute.

(** The [Validator] object the validators are called on: [this].  Its
    methods live in [lib/validator.js]; the validators call back into
    [validateSchema] for nested schemas and into [testType], and use the
    type predicate [this.types.object]. *)
Record Validator : Type := mkValidator {
  validateSchema : jsval → jsval → jsval → SchemaContext → exc ValidatorResult;
  testType : jsval → jsval → jsval → SchemaContext → jsval → exc bool;
  types_object : jsval → bool;
}.

(** [attribute.ignoreProperties]: the keys the orchestrator never
    dispatches on. *)
Definition ignoreProperties : list string :=
  ["id"; "default"; "description"; "title";
   "exclusiveMinimum"; "exclusiveMaximum"; "additionalItems";
   "$schema"; "$ref"; "extends"].

(** ** Helpers of the [oneOf] validator *)

(** [removeNot(schema)] removes the first [not] found in [schema], hoisting
    the properties of the negated schema, and mutates [schema] in place;
    here the updated schema is returned next to the flag.  [typeof null] is
    ['object'], so [null.hasOwnProperty] throws; so does
    [schema.hasOwnProperty] on an object with an own property of that
    name.  An array has no own property [not] or [hasOwnProperty]. *)
Fixpoint removeNot (schema : jsval) : exc (bool * jsval) :=
  match schema with
  | JNull => Throw TypeError
  | JObj ps =>
      has ← hasOwnProperty (JObj ps) "not";
      if has : bool then
        n ← get (JObj ps) "not";
        keys ← Object_keys n;
        ps' ← foldM (λ ps propName,
                 v ← get (default JUndefined (assoc_get "not" ps)) propName;
                 mret (assoc_set propName v ps)) ps keys;
        mret (true, JObj (assoc_delete "not" ps'))
      else
        '(found, ps') ← (fix some_props (l : list (string * jsval))
               : exc (bool * list (string * jsval)) :=
               match l with
               | [] => Ok (false, [])
               | (k, v) :: rest =>
                   '(found, v') ← removeNot v;
                   if found : bool then mret (true, (k, v') :: rest)
                   else '(found, rest') ← some_props rest;
                        mret (found, (k, v') :: rest')
               end) ps;
        mret (found, JObj ps')
  | JArr xs =>
      '(found, xs') ← (fix some_elems (l : list jsval) : exc (bool * list jsval) :=
             match l with
             | [] => Ok (false, [])
             | v :: rest =>
                 '(found, v') ← removeNot v;
                 if found : bool then mret (true, v' :: rest)
                 else '(found, rest') ← some_elems rest;
                      mret (found, v' :: rest')
             end) xs;
      mret (found, JArr xs')
  | _ => Ok (false, schema)
  end.

(** [_.cloneDeep(v)]: on values, the copy is the value. *)
Definition cloneDeep (v : jsval) : jsval := v.

(** [_.isEqual(a, b)]: deep comparison; objects are compared by their sets
    of own keys, whatever the order. *)
Fixpoint isEqual (a b : jsval) {struct a} : bool :=
  match a, b with
  | JUndefined, JUndefined => true
  | JNull, JNull => true
  | JBool x, JBool y => Bool.eqb x y
  | JNum x, JNum y => (x =? y)
  | JStr x, JStr y => (x =? y)%string
  | JArr xs, JArr ys =>
      (fix go (l r : list jsval) {struct l} : bool :=
         match l, r with
         | [], [] => true
         | x :: l', y :: r' => isEqual x y && go l' r'
         | _, _ => false
         end) xs ys
  | JObj ps, JObj qs =>
      (length ps =? length qs)%nat &&
      (fix go (l : list (string * jsval)) : bool :=
         match l with
         | [] => true
         | (k, x) :: l' =>
             match assoc_get k qs with
             | Some y => isEqual x y && go l'
             | None => false
             end
         end) ps
  | _, _ => false
  end.

(** The callback of [hasMutuallyExclusiveDependencies]. *)
Definition areSubschemasMutuallyExclusive (dependency1 dependency2 : jsval)
    (subschemaName : string) : exc bool :=
  d2 ← get dependency2 subschemaName;
  if negb (truthy d2) then mret false
  else
    d1 ← get dependency1 subschemaName;
    let subschema1 := cloneDeep d1 in
    let subschema2 := cloneDeep d2 in
    '(subschema1HasNot, subschema1) ← removeNot subschema1;
    '(subschema2HasNot, subschema2) ← removeNot subschema2;
    if negb subschema1HasNot && negb subschema2HasNot then mret false
    else if negb (isEqual subschema1 subschema2) then mret false
    else mret true.

(** [hasMutuallyExclusiveDependencies(oneOf)] *)
Definition hasMutuallyExclusiveDependencies (oneOf : jsval) : exc bool :=
  len ← get oneOf "length";
  if negb (same_value len (JNum 2)) then mret false
  else
    s0 ← get_index oneOf 0;
    dependency1 ← get s0 "dependencies";
    if negb (truthy dependency1) then mret false
    else
      s1 ← get_index oneOf 1;
      dependency2 ← get s1 "dependencies";
      if negb (truthy dependency2) then mret false
      else
        keys ← Object_keys dependency1;
        everyM (areSubschemasMutuallyExclusive dependency1 dependency2) keys.

(** [hasNoDependencies(oneOf)] *)
Definition hasNoDependencies (oneOf : jsval) : exc bool :=
  b ← someM (λ subschema,
         d ← get subschema "dependencies"; mret (typeof_object d))
       (elems oneOf);
  mret (negb b).

(** The name a combinator gives a member schema in its message:
    [(v.id && ('<' + v.id + '>')) || (v.title && JSON.stringify(v.title))
     || (v['$ref'] && ('<' + v['$ref'] + '>')) || fallback]. *)
Definition schema_name (v : jsval) (fallback : string) : exc string :=
  id ← get v "id";
  title ← get v "title";
  ref ← get v "$ref";
  mret (ToString
    (js_or (js_and id (JStr ("<" ++ ToString id ++ ">")))
       (js_or (js_and title (JSON_stringify title))
          (js_or (js_and ref (JStr ("<" ++ ToString ref ++ ">")))
             (JStr fallback))))).

(** [isDependencyError(error)]: [error.message.indexOf('dependency') > -1] *)
Fixpoint contains (needle s : string) : bool :=
  String.prefix needle s ||
  match s with
  | EmptyString => false
  | String _ rest => contains needle rest
  end.

Definition isDependencyError (error : ValidationError) : bool :=
  contains "dependency" (err_message error).

Section Validators.

Variable this : Validator.
(** [ctx.makeChild(schema, key)] of [lib/helpers.js] *)
Variable makeChild : SchemaContext → jsval → pkey → SchemaContext.
(** [new RegExp(pattern).test(s)]; an ill-formed pattern throws. *)
Variable RegExp_test : jsval → string → exc bool.
(** [helpers.isFormat(s, format)] *)
Variable isFormat : string → jsval → FormatResult.
(** [helpers.deepCompareStrict(a, b)] *)
Variable deepCompareStrict : jsval → jsval → bool.

(** [validators.type] *)
Definition validateType (instance schema options : jsval) (ctx : SchemaContext)
  : exc ret :=
  if is_undefined instance then mret RNull
  else
    ty ← get schema "type";
    let types := if instanceof_Array ty then elems ty else [ty] in
    ok ← someM (testType this instance schema options ctx) types;
    if negb ok then
      names ← mapM (λ v, id ← get v "id";
                 mret (js_or (js_and id (JStr ("<" ++ ToString id ++ ">")))
                             (JStr (ToString v)))) types;
      mret (RString
        ((if (length types =? 1)%nat then "is not a " else "is none of ")
         ++ ToString (JArr names)))
    else mret RNull.

(** [validators.anyOf] *)
Definition validateAnyOf (instance schema options : jsval) (ctx : SchemaContext)
  : exc ret :=
  if is_undefined instance then mret RNull
  else
    anyOf ← get schema "anyOf";
    if negb (instanceof_Array anyOf) then Throw (SchemaError "anyOf must be an array")
    else
      results ← mapM (λ s, validateSchema this instance s options ctx) (elems anyOf);
      mret ((fix loop (results : list ValidatorResult) (errs : list ValidationError) :=
               match results with
               | [] => RObject {| vr_instance := instance; vr_schema := schema;
                                  vr_propertyPath := ctx_propertyPath ctx;
                                  vr_errors := errs |}
               | r :: rest =>
                   if valid r then RNull else loop rest (errs ++ vr_errors r)%list
               end) results []).

(** The callback of [schema.allOf.forEach], acting on [result]. *)
Definition allOf_member (instance options : jsval) (ctx : SchemaContext)
    (result : ValidatorResult) (v : jsval) : exc ValidatorResult :=
  res ← validateSchema this instance v options ctx;
  if negb (valid res) then
    msg ← schema_name v "<subschema>";
    let result := addError result
      ("does not match allOf schema " ++ msg ++ " with "
       ++ string_of_nat (length (vr_errors res)) ++ " error[s]:") None in
    mret (importErrors result res)
  else mret result.

(** [validators.allOf] *)
Definition validateAllOf (instance schema options : jsval) (ctx : SchemaContext)
  : exc ret :=
  let result := new_ValidatorResult instance schema ctx in
  if is_undefined instance then mret RNull
  else
    allOf ← get schema "allOf";
    if negb (instanceof_Array allOf) then Throw (SchemaError "allOf must be an array")
    else
      result ← foldM (allOf_member instance options ctx) result (elems allOf);
      mret (RResult result).

(** The three ways [validators.oneOf] counts the branches.  Each returns
    [validationResult] ([null] until a branch result or the aggregate is
    stored in it) and [validCount]. *)

(** The callback of [schema.oneOf.forEach] on the exclusive path: a
    failing branch none of whose errors is a dependency error becomes
    [validationResult], a passing branch is counted. *)
Definition oneOf_exclusive_branch (instance options : jsval) (ctx : SchemaContext)
    (acc : ret * nat) (subschema : jsval) : exc (ret * nat) :=
  let '(validationResult, validCount) := acc in
  result ← validateSchema this instance subschema options ctx;
  if negb (valid result) then
    if negb (existsb isDependencyError (vr_errors result))
    then mret (RResult result, validCount)
    else mret (validationResult, validCount)
  else mret (validationResult, S validCount).

(** [if (hasMutuallyExclusiveDependencies(schema.oneOf))] *)
Definition oneOf_exclusive (instance options : jsval) (ctx : SchemaContext)
    (branches : list jsval) : exc (ret * nat) :=
  foldM (oneOf_exclusive_branch instance options ctx) (RNull, 0%nat) branches.

(** [else if (hasNoDependencies(schema.oneOf))]: all branches are
    validated and their errors gathered; when none passes, [validCount]
    becomes [errors.length] and the aggregate is stored. *)
Definition oneOf_noDependencies (instance schema options : jsval)
    (ctx : SchemaContext) (branches : list jsval) : exc (ret * nat) :=
  results ← mapM (λ s, validateSchema this instance s options ctx) branches;
  let '(validCount, errs) :=
    fold_left (λ '(validCount, errs) r,
        (if valid r then S validCount else validCount,
         (errs ++ vr_errors r)%list))
      results (0%nat, []) in
  if (validCount =? 0)%nat then
    mret (RObject {| vr_instance := instance; vr_schema := schema;
                     vr_propertyPath := ctx_propertyPath ctx;
                     vr_errors := errs |},
          length errs)
  else mret (RNull, validCount).

(** [else]: [schema.oneOf.filter(testSchema).length] *)
Definition oneOf_generic (instance options : jsval) (ctx : SchemaContext)
    (branches : list jsval) : exc (ret * nat) :=
  passing ← filterM (λ s,
                res ← validateSchema this instance s options ctx;
                mret (valid res)) branches;
  mret (RNull, length passing).

(** [if (validCount !== 1) return validationResult ? validationResult :
    genericErrorMessage; return null;] *)
Definition oneOf_decide (genericErrorMessage : string)
    (validationResult : ret) (validCount : nat) : ret :=
  if negb (validCount =? 1)%nat then
    match validationResult with
    | RNull => RString genericErrorMessage
    | r => r
    end
  else RNull.

(** [genericErrorMessage] *)
Definition oneOf_message (branches : list jsval) : exc string :=
  names ← mapM (λ '(i, v),
             schema_name v ("[subschema " ++ string_of_nat i ++ "]"))
           (imap pair branches);
  mret ("is not exactly one from " ++ join_with "," names).

(** [validators.oneOf] *)
Definition validateOneOf (instance schema options : jsval) (ctx : SchemaContext)
  : exc ret :=
  if is_undefined instance then mret RNull
  else
    oneOf ← get schema "oneOf";
    if negb (instanceof_Array oneOf) then Throw (SchemaError "oneOf must be an array")
    else
      genericErrorMessage ← oneOf_message (elems oneOf);
      mutex ← hasMutuallyExclusiveDependencies oneOf;
      '(validationResult, validCount) ←
        (if mutex : bool then oneOf_exclusive instance options ctx (elems oneOf)
         else
           nodeps ← hasNoDependencies oneOf;
           if nodeps : bool then
             oneOf_noDependencies instance schema options ctx (elems oneOf)
           else oneOf_generic instance options ctx (elems oneOf));
      mret (oneOf_decide genericErrorMessage validationResult validCount).

(** [if (res.instance !== result.instance[key]) result.instance[key] = res.instance;]
    [result.instance] is the instance object itself, so the assignment
    updates the instance. *)
Definition write_back (result : ValidatorResult) (key : string)
    (res : ValidatorResult) : exc ValidatorResult :=
  cur ← get (vr_instance result) key;
  if same_value (vr_instance res) cur then mret result
  else inst ← set (vr_instance result) key (vr_instance res);
       mret (with_instance result inst).

(** [validators.properties] *)
Definition validateProperties (instance schema options : jsval) (ctx : SchemaContext)
  : exc ret :=
  if is_undefined instance || negb (instanceof_Object instance) then mret RUndefined
  else
    let result := new_ValidatorResult instance schema ctx in
    p ← get schema "properties";
    let properties := js_or p (JObj []) in
    result ← foldM (λ result property,
        prop ← get (vr_instance result) property;
        sub ← get properties property;
        res ← validateSchema this prop sub options (makeChild ctx sub (PName property));
        result ← write_back result property res;
        mret (importErrors result res)) result (own_keys properties);
    mret (RResult result).

(** [testAdditionalProperty(instance, schema, options, ctx, property, result)];
    [instance] is [result.instance], and the updated [result] is returned. *)
Definition testAdditionalProperty (schema options : jsval) (ctx : SchemaContext)
    (property : string) (result : ValidatorResult) : exc ValidatorResult :=
  props ← get schema "properties";
  declared ← (if truthy props then
                 v ← get props property; mret (negb (is_undefined v))
               else mret false);
  if declared : bool then mret result
  else
    ap ← get schema "additionalProperties";
    match ap with
    | JBool false =>
        mret (addError result "does not exist in the schema" (Some property))
    | _ =>
        let additionalProperties := js_or ap (JObj []) in
        v ← get (vr_instance result) property;
        res ← validateSchema this v additionalProperties options
                (makeChild ctx additionalProperties (PName property));
        result ← write_back result property res;
        mret (importErrors result res)
    end.

(** The body of the inner loop of [validators.patternProperties] once the
    pattern matched: the property is validated against the pattern's
    sub-schema and the errors are imported. *)
Definition validateAgainstPattern (patternProperties options : jsval)
    (ctx : SchemaContext) (property : string) (result : ValidatorResult)
    (pattern : string) : exc ValidatorResult :=
  v ← get (vr_instance result) property;
  sub ← get patternProperties pattern;
  res ← validateSchema this v sub options (makeChild ctx sub (PName property));
  result ← write_back result property res;
  mret (importErrors result res).

(** The inner loop of [validators.patternProperties]: one property against
    every pattern; [test] stays [true] when no pattern matched. *)
Definition testPatterns (patternProperties options : jsval) (ctx : SchemaContext)
    (property : string) (result : ValidatorResult)
  : exc (bool * ValidatorResult) :=
  foldM (λ '(test, result) pattern,
      matches ← RegExp_test (JStr pattern) property;
      if negb matches then mret (test, result)
      else
        result ← validateAgainstPattern patternProperties options ctx
                   property result pattern;
        mret (false, result))
    (true, result) (own_keys patternProperties).

(** The body of the outer loop of [validators.patternProperties]. *)
Definition validatePatternProperty (schema patternProperties options : jsval)
    (ctx : SchemaContext) (result : ValidatorResult) (property : string)
  : exc ValidatorResult :=
  '(test, result) ← testPatterns patternProperties options ctx property result;
  if test : bool then testAdditionalProperty schema options ctx property result
  else mret result.

(** [validators.patternProperties] *)
Definition validatePatternProperties (instance schema options : jsval)
    (ctx : SchemaContext) : exc ret :=
  if is_undefined instance then mret RUndefined
  else if negb (types_object this instance) then mret RUndefined
  else
    let result := new_ValidatorResult instance schema ctx in
    pp ← get schema "patternProperties";
    let patternProperties := js_or pp (JObj []) in
    result ← foldM (validatePatternProperty schema patternProperties options ctx)
               result (own_keys instance);
    mret (RResult result).

(** [validators.additionalProperties] *)
Definition validateAdditionalProperties (instance schema options : jsval)
    (ctx : SchemaContext) : exc ret :=
  if is_undefined instance then mret RUndefined
  else if negb (types_object this instance) then mret RUndefined
  else
    pp ← get schema "patternProperties";
    if truthy pp then mret RNull
    else
      let result := new_ValidatorResult instance schema ctx in
      result ← foldM (λ result property,
          testAdditionalProperty schema options ctx property result)
        result (own_keys instance);
      mret (RResult result).

(** [validators.minProperties] *)
Definition validateMinProperties (instance schema : jsval) : exc ret :=
  if negb (truthy instance) || negb (typeof_object instance) then mret RNull
  else
    keys ← Object_keys instance;
    m ← get schema "minProperties";
    if negb (num_cmp Z.geb (Z.of_nat (length keys)) m) then
      mret (RString ("does not meet minimum property length of " ++ ToString m))
    else mret RNull.

(** [validators.maxProperties] *)
Definition validateMaxProperties (instance schema : jsval) : exc ret :=
  if negb (truthy instance) || negb (typeof_object instance) then mret RNull
  else
    keys ← Object_keys instance;
    m ← get schema "maxProperties";
    if negb (num_cmp Z.leb (Z.of_nat (length keys)) m) then
      mret (RString ("does not meet maximum property length of " ++ ToString m))
    else mret RNull.

(** The callback of [instance.every] in [validators.items]; it returns
    [false] to stop the scan. *)
Definition validateItem (schema options : jsval) (ctx : SchemaContext)
    (result : ValidatorResult) (i : nat) : exc (bool * ValidatorResult) :=
  value ← get_index (vr_instance result) i;
  its ← get schema "items";
  items ← (if instanceof_Array its then
              it ← get_index its i;
              additionalItems ← get schema "additionalItems";
              mret (js_or it additionalItems)
            else mret its);
  match items with
  | JUndefined => mret (true, result)
  | JBool false => mret (false, addError result "additionalItems not permitted" None)
  | _ =>
      res ← validateSchema this value items options (makeChild ctx items (PIndex i));
      result ← write_back result (string_of_nat i) res;
      mret (true, importErrors result res)
  end.

(** [Array.prototype.every] with a callback acting on [result]. *)
Fixpoint every_item (schema options : jsval) (ctx : SchemaContext)
    (result : ValidatorResult) (idx : list nat) : exc ValidatorResult :=
  match idx with
  | [] => mret result
  | i :: rest =>
      '(continue, result) ← validateItem schema options ctx result i;
      if continue : bool then every_item schema options ctx result rest
      else mret result
  end.

(** [validators.items] *)
Definition validateItems (instance schema options : jsval) (ctx : SchemaContext)
  : exc ret :=
  if negb (instanceof_Array instance) then mret RNull
  else
    let result := new_ValidatorResult instance schema ctx in
    its ← get schema "items";
    if is_undefined instance || negb (truthy its) then mret (RResult result)
    else
      result ← every_item schema options ctx result (seq 0 (length (elems instance)));
      mret (RResult result).

Definition is_true (v : jsval) : bool :=
  match v with JBool true => true | _ => false end.

(** [validators.minimum] *)
Definition validateMinimum (instance schema : jsval) : exc ret :=
  match instance with
  | JNum n =>
      exclusiveMinimum ← get schema "exclusiveMinimum";
      minimum ← get schema "minimum";
      let valid :=
        if truthy exclusiveMinimum && is_true exclusiveMinimum
        then num_cmp Z.gtb n minimum
        else num_cmp Z.geb n minimum in
      if negb valid then
        mret (RString ("must have a minimum value of " ++ ToString minimum))
      else mret RNull
  | _ => mret RNull
  end.

(** [validators.maximum] *)
Definition validateMaximum (instance schema : jsval) : exc ret :=
  match instance with
  | JNum n =>
      exclusiveMaximum ← get schema "exclusiveMaximum";
      maximum ← get schema "maximum";
      let valid :=
        if truthy exclusiveMaximum && is_true exclusiveMaximum
        then num_cmp Z.ltb n maximum
        else num_cmp Z.leb n maximum in
      if negb valid then
        mret (RString ("must have a maximum value of " ++ ToString maximum))
      else mret RNull
  | _ => mret RNull
  end.

(** [validators.divisibleBy] *)
Definition validateDivisibleBy (instance schema : jsval) : exc ret :=
  match instance with
  | JNum n =>
      divisibleBy ← get schema "divisibleBy";
      if loose_eq_zero divisibleBy then
        Throw (SchemaError "divisibleBy cannot be zero")
      else if has_fraction n divisibleBy then
        mret (RString ("is not " ++ ToString divisibleBy))
      else mret RNull
  | _ => mret RNull
  end.

(** [validators.multipleOf] *)
Definition validateMultipleOf (instance schema : jsval) : exc ret :=
  match instance with
  | JNum n =>
      multipleOf ← get schema "multipleOf";
      if loose_eq_zero multipleOf then
        Throw (SchemaError "multipleOf cannot be zero")
      else if has_fraction n multipleOf then
        mret (RString ("is not " ++ ToString multipleOf))
      else mret RNull
  | _ => mret RNull
  end.

(** [validators.required] *)
Definition validateRequired (instance schema options : jsval) (ctx : SchemaContext)
  : exc ret :=
  required ← get schema "required";
  if is_true required && (is_undefined instance || is_null instance) then
    mret (RString "is required")
  else if truthy instance && typeof_object instance && instanceof_Array required then
    let result := new_ValidatorResult instance schema ctx in
    result ← foldM (λ result n,
        v ← get instance (ToString n);
        if is_undefined v || is_null v then
          let contextPropertyPath :=
            if negb (ctx_propertyPath ctx =? "")%string
            then ctx_propertyPath ctx ++ "." else "" in
          mret (addError result "is required" (Some (contextPropertyPath ++ ToString n)))
        else mret result) result (elems required);
    mret (RResult result)
  else mret RNull.

Definition is_empty_string (v : jsval) : bool :=
  match v with JStr s => (s =? "")%string | _ => false end.

(** [instance === '' && !schema.required] *)
Definition empty_and_not_required (instance schema : jsval) : exc bool :=
  if is_empty_string instance then
    required ← get schema "required"; mret (negb (truthy required))
  else mret false.

(** [validators.pattern] *)
Definition validatePattern (instance schema : jsval) : exc ret :=
  if is_undefined instance || is_null instance then mret RNull
  else
    skip ← empty_and_not_required instance schema;
    if skip : bool then mret RNull
    else
      pattern ← get schema "pattern";
      matches ← RegExp_test pattern (ToString instance);
      if negb matches then
        mret (RString ("does not match pattern " ++ ToString pattern))
      else mret RNull.

(** [validators.format] *)
Definition validateFormat (instance schema options : jsval) (ctx : SchemaContext)
  : exc ret :=
  if is_undefined instance || is_null instance then mret RNull
  else
    skip ← empty_and_not_required instance schema;
    if skip : bool then mret RNull
    else
      format ← get schema "format";
      let message := "does not conform to the '" ++ ToString format ++ "' format" in
      match isFormat (ToString instance) format with
      | FTrue => mret RNull
      | FRegExp source =>
          mret (RString (message ++ ", based on pattern: /" ++ source ++ "/"))
      | FString s => mret (RString s)
      | FFalse => mret (RString message)
      end.

(** [validators.minLength] *)
Definition validateMinLength (instance schema : jsval) : exc ret :=
  if is_undefined instance || is_null instance then mret RNull
  else
    minLength ← get schema "minLength";
    if negb (num_cmp Z.geb (Z.of_nat (String.length (ToString instance))) minLength)
    then mret (RString ("does not meet minimum length of " ++ ToString minLength))
    else mret RNull.

(** [validators.maxLength] *)
Definition validateMaxLength (instance schema : jsval) : exc ret :=
  if is_undefined instance || is_null instance then mret RNull
  else
    maxLength ← get schema "maxLength";
    if negb (num_cmp Z.leb (Z.of_nat (String.length (ToString instance))) maxLength)
    then mret (RString ("does not meet maximum length of " ++ ToString maxLength))
    else mret RNull.

(** [validators.minItems] *)
Definition validateMinItems (instance schema : jsval) : exc ret :=
  if negb (instanceof_Array instance) then mret RNull
  else
    minItems ← get schema "minItems";
    if negb (num_cmp Z.geb (Z.of_nat (length (elems instance))) minItems)
    then mret (RString ("must contain at least " ++ ToString minItems))
    else mret RNull.

(** [validators.maxItems] *)
Definition validateMaxItems (instance schema : jsval) : exc ret :=
  if negb (instanceof_Array instance) then mret RNull
  else
    maxItems ← get schema "maxItems";
    if negb (num_cmp Z.leb (Z.of_nat (length (elems instance))) maxItems)
    then mret (RString ("does not meet maximum length of " ++ ToString maxItems))
    else mret RNull.

(** [a[j]] for [j] within the array *)
Definition item (a : list jsval) (j : nat) : jsval := default JUndefined (a !! j).

(** The [testArrays] nested in the first [validators.uniqueItems]:
    [for (var j = i + 1; j < a.length; j++) if (deepCompareStrict(v, a[j])) return false;
     return true]. *)
Definition testArrays_nested (v : jsval) (i : nat) (a : list jsval) : bool :=
  negb (existsb (λ j, deepCompareStrict v (item a j))
          (seq (i + 1) (length a - (i + 1)))).

(** The first definition of [validators.uniqueItems] (overridden below). *)
Definition validateUniqueItems_1 (instance schema options : jsval)
    (ctx : SchemaContext) : exc ret :=
  let result := new_ValidatorResult instance schema ctx in
  if negb (instanceof_Array instance) then mret (RResult result)
  else
    let a := elems instance in
    if negb (forallb (λ '(i, v), testArrays_nested v i a) (imap pair a)) then
      mret (RResult (addError result "contains duplicate item" None))
    else mret (RResult result).

(** The top-level [testArrays(v, i, a)], with [len = a.length] read once. *)
Definition testArrays (v : jsval) (i : nat) (a : list jsval) : bool :=
  let len := length a in
  negb (existsb (λ j, deepCompareStrict v (item a j))
          (seq (i + 1) (len - (i + 1)))).

(** The second definition of [validators.uniqueItems], the one in force. *)
Definition validateUniqueItems (instance : jsval) : exc ret :=
  if negb (instanceof_Array instance) then mret RNull
  else
    let a := elems instance in
    if negb (forallb (λ '(i, v), testArrays v i a) (imap pair a)) then
      mret (RString "contains duplicate item")
    else mret RNull.

(** [validators.dependencies] *)
Definition validateDependencies (instance schema options : jsval)
    (ctx : SchemaContext) : exc ret :=
  let result := new_ValidatorResult instance schema ctx in
  if negb (truthy instance) || negb (typeof_object instance) then mret RNull
  else
    dependencies ← get schema "dependencies";
    result ← foldM (λ result property,
        v ← get instance property;
        if is_undefined v then mret result
        else
          dep ← get dependencies property;
          let childContext := makeChild ctx dep (PName property) in
          let dep := if typeof_string dep then JArr [dep] else dep in
          if instanceof_Array dep then
            foldM (λ result prop,
                w ← get instance (ToString prop);
                if is_undefined w then
                  mret (addError result
                          ("property " ++ ToString prop ++ " not found, required by "
                           ++ ctx_propertyPath childContext) None)
                else mret result) result (elems dep)
          else
            res ← validateSchema this instance dep options childContext;
            let result :=
              if same_value (vr_instance result) (vr_instance res) then result
              else with_instance result (vr_instance res) in
            if negb (length (vr_errors res) =? 0)%nat then
              let result := addError result
                ("does not meet dependency required by "
                 ++ ctx_propertyPath childContext) None in
              mret (importErrors result res)
            else mret result) result (own_keys dependencies);
    mret (RResult result).

(** [validators.enum] *)
Definition validateEnum (instance schema : jsval) : exc ret :=
  enum ← get schema "enum";
  if negb (instanceof_Array enum) then Throw (SchemaError "enum expects an array")
  else if is_undefined instance || is_null instance then mret RNull
  else
    skip ← empty_and_not_required instance schema;
    if skip : bool then mret RNull
    else if negb (existsb (deepCompareStrict instance) (elems enum)) then
      mret (RString ("is not one of enum values: " ++ ToString enum))
    else mret RNull.

(** [validators.not], also [validators.disallow] *)
Definition validateNot (instance schema options : jsval) (ctx : SchemaContext)
  : exc ret :=
  if is_undefined instance then mret RNull
  else
    let result := new_ValidatorResult instance schema ctx in
    not ← get schema "not";
    disallow ← get schema "disallow";
    let notTypes := js_or not disallow in
    if negb (truthy notTypes) then mret RNull
    else
      let notTypes := if negb (instanceof_Array notTypes) then [notTypes]
                      else elems notTypes in
      result ← foldM (λ result type,
          prohibited ← testType this instance schema options ctx type;
          if prohibited : bool then
            required ← get type "required";
            if truthy required && instanceof_Array required then
              foldM (λ result requiredProp,
                  mret (addError result "can not be present"
                     (Some (if truthy (JStr (ctx_propertyPath ctx))
                            then ctx_propertyPath ctx ++ "." ++ ToString requiredProp
                            else ToString requiredProp))))
                result (elems required)
            else
              id ← get type "id";
              let schemaId :=
                js_or (js_and (js_and type id) (JStr ("<" ++ ToString id ++ ">")))
                      type in
              mret (addError result ("is of prohibited type " ++ ToString schemaId) None)
          else mret result) result notTypes;
      mret (RResult result).

(** [attribute.validators], in the order the file fills it.  A later
    assignment to a key replaces an earlier one: [uniqueItems] is assigned
    twice.  [addFormat] sits in the same table and, called as a validator,
    returns nothing. *)
Definition validators_table
  : list (string * (jsval → jsval → jsval → SchemaContext → exc ret)) :=
  let ignoring (f : jsval → jsval → exc ret) :=
    λ instance schema (_ : jsval) (_ : SchemaContext), f instance schema in
  [ ("type", validateType);
    ("anyOf", validateAnyOf);
    ("allOf", validateAllOf);
    ("oneOf", validateOneOf);
    ("properties", validateProperties);
    ("patternProperties", validatePatternProperties);
    ("additionalProperties", validateAdditionalProperties);
    ("minProperties", ignoring validateMinProperties);
    ("maxProperties", ignoring validateMaxProperties);
    ("items", validateItems);
    ("minimum", ignoring validateMinimum);
    ("maximum", ignoring validateMaximum);
    ("divisibleBy", ignoring validateDivisibleBy);
    ("multipleOf", ignoring validateMultipleOf);
    ("required", validateRequired);
    ("pattern", ignoring validatePattern);
    ("addFormat", ignoring (λ _ _, mret RUndefined));
    ("format", validateFormat);
    ("minLength", ignoring validateMinLength);
    ("maxLength", ignoring validateMaxLength);
    ("minItems", ignoring validateMinItems);
    ("maxItems", ignoring validateMaxItems);
    ("uniqueItems", validateUniqueItems_1);
    ("uniqueItems", ignoring (λ instance _, validateUniqueItems instance));
    ("dependencies", validateDependencies);
    ("enum", ignoring validateEnum);
    ("not", validateNot);
    ("disallow", validateNot) ].

(** [attribute.validators[key]]: the last assignment wins. *)
Definition validators (key : string)
  : option (jsval → jsval → jsval → SchemaContext → exc ret) :=
  snd <$> last (filter (λ kv, kv.1 = key) validators_table).

End Validators.

End Attribute.

Export Attribute.

(* ===================================================================== *)
(** * The [oneOf] detection over an object store *)
(* ===================================================================== *)

(** [removeNot] deletes and assigns properties of the object it is given.
    To see which objects that touches, the helpers of
    [hasMutuallyExclusiveDependencies] are embedded a second time over a
    store of mutable objects: a value is a primitive or a reference into
    the store, [_.cloneDeep] allocates, [removeNot] writes. *)
Module Store.

Definition loc := nat.

Inductive val : Type :=
| VUndefined
| VNull
| VBool (b : bool)
| VNum (n : Z)
| VStr (s : string)
| VRef (l : loc).

(** An object of the store: an array or a plain object, holding values. *)
Inductive obj : Type :=
| OArr (xs : list val)
| OObj (props : list (string * val)).

(** The store; a reference is an index into it and allocation appends. *)
Abbreviation heap := (list obj).

(** The outcome of a computation on the store: a value, an exception (both
    with the store they leave behind), or no outcome at all: the fuel of a
    recursion ran out or a reference points outside the store. *)
Inductive outcome (A : Type) : Type :=
| Ret (a : A) (h : heap)
| Raise (e : exn) (h : heap)
| Stuck.
Arguments Ret {A} a h.
Arguments Raise {A} e h.
Arguments Stuck {A}.

Definition M (A : Type) : Type := heap → outcome A.

Definition ret {A} (a : A) : M A := λ h, Ret a h.
Definition bind {A B} (f : A → M B) (c : M A) : M B :=
  λ h, match c h with
       | Ret a h' => f a h'
       | Raise e h' => Raise e h'
       | Stuck => Stuck
       end.
Definition raise {A} (e : exn) : M A := λ h, Raise e h.
Definition stuck {A} : M A := λ _, Stuck.

#[global] Instance M_ret : MRet M := @ret.
#[global] Instance M_bind : MBind M := @bind.

Definition read (l : loc) : M obj :=
  λ h, match h !! l with Some o => Ret o h | None => Stuck end.
Definition write (l : loc) (o : obj) : M unit :=
  λ h, if bool_decide (l < length h)%nat then Ret () (<[l := o]> h) else Stuck.
Definition alloc (o : obj) : M loc :=
  λ h, Ret (length h) (h ++ [o])%list.

Definition truthy (v : val) : bool :=
  match v with
  | VUndefined | VNull => false
  | VBool b => b
  | VNum n => negb (n =? 0)
  | VStr s => negb (s =? "")%string
  | VRef _ => true
  end.

Fixpoint assoc_get (k : string) (ps : list (string * val)) : option val :=
  match ps with
  | [] => None
  | (k', v) :: rest => if (k' =? k)%string then Some v else assoc_get k rest
  end.

Fixpoint assoc_set (k : string) (v : val) (ps : list (string * val))
  : list (string * val) :=
  match ps with
  | [] => [(k, v)]
  | (k', v') :: rest =>
      if (k' =? k)%string then (k', v) :: rest else (k', v') :: assoc_set k v rest
  end.

Fixpoint assoc_delete (k : string) (ps : list (string * val))
  : list (string * val) :=
  match ps with
  | [] => []
  | (k', v') :: rest =>
      if (k' =? k)%string then assoc_delete k rest else (k', v') :: assoc_delete k rest
  end.

Definition char_at (s : string) (i : nat) : val :=
  match String.get i s with
  | Some c => VStr (String c EmptyString)
  | None => VUndefined
  end.

Definition obj_get (o : obj) (k : string) : val :=
  match o with
  | OObj ps => default VUndefined (assoc_get k ps)
  | OArr xs =>
      match index_of_string k with
      | Some i => default VUndefined (xs !! i)
      | None =>
          if (k =? "length")%string then VNum (Z.of_nat (length xs)) else VUndefined
      end
  end.

(** [v[k]] *)
Definition get (v : val) (k : string) : M val :=
  match v with
  | VUndefined | VNull => raise TypeError
  | VRef l => o ← read l; mret (obj_get o k)
  | VStr s =>
      match index_of_string k with
      | Some i => mret (char_at s i)
      | None =>
          if (k =? "length")%string then mret (VNum (Z.of_nat (String.length s)))
          else mret VUndefined
      end
  | VBool _ | VNum _ => mret VUndefined
  end.

Definition obj_keys (o : obj) : list string :=
  match o with
  | OObj ps => fst <$> ps
  | OArr xs => indices (length xs)
  end.

(** [Object.keys(v)] *)
Definition Object_keys (v : val) : M (list string) :=
  match v with
  | VUndefined | VNull => raise TypeError
  | VRef l => o ← read l; mret (obj_keys o)
  | VStr s => mret (indices (String.length s))
  | VBool _ | VNum _ => mret []
  end.

(** [o.hasOwnProperty(k)]: the method is looked up on [o], where an own
    property named [hasOwnProperty] shadows it; no value of the store is a
    function, so calling that property throws a [TypeError]. *)
Definition hasOwnProperty (v : val) (k : string) : M bool :=
  match v with
  | VUndefined | VNull => raise TypeError
  | VRef l =>
      o ← read l;
      match o with
      | OObj ps =>
          if bool_decide (is_Some (assoc_get "hasOwnProperty" ps)) then raise TypeError
          else mret (bool_decide (is_Some (assoc_get k ps)))
      | OArr xs =>
          mret (match index_of_string k with
                | Some i => bool_decide (i < length xs)%nat
                | None => (k =? "length")%string
                end)
      end
  | VStr s =>
      mret (match index_of_string k with
            | Some i => bool_decide (i < String.length s)%nat
            | None => (k =? "length")%string
            end)
  | VBool _ | VNum _ => mret false
  end.

Definition obj_set (o : obj) (k : string) (w : val) : obj :=
  match o with
  | OObj ps => OObj (assoc_set k w ps)
  | OArr xs =>
      match index_of_string k with
      | Some i =>
          if bool_decide (i < length xs)%nat then OArr (<[i := w]> xs)
          else OArr (xs ++ replicate (i - length xs) VUndefined ++ [w])
      | None => o
      end
  end.

(** [v[k] = w]: a write to the object [v] refers to *)
Definition set (v : val) (k : string) (w : val) : M unit :=
  match v with
  | VUndefined | VNull => raise TypeError
  | VRef l => o ← read l; write l (obj_set o k w)
  | _ => mret ()
  end.

Definition obj_delete (o : obj) (k : string) : obj :=
  match o with
  | OObj ps => OObj (assoc_delete k ps)
  | OArr xs => o
  end.

(** [delete v[k]] *)
Definition delete (v : val) (k : string) : M unit :=
  match v with
  | VUndefined | VNull => raise TypeError
  | VRef l => o ← read l; write l (obj_delete o k)
  | _ => mret ()
  end.

Fixpoint forEach {A} (f : A → M unit) (l : list A) : M unit :=
  match l with
  | [] => mret ()
  | x :: rest => f x;; forEach f rest
  end.

Fixpoint some {A} (f : A → M bool) (l : list A) : M bool :=
  match l with
  | [] => mret false
  | x :: rest => b ← f x; if b : bool then mret true else some f rest
  end.

Fixpoint every {A} (f : A → M bool) (l : list A) : M bool :=
  match l with
  | [] => mret true
  | x :: rest => b ← f x; if b : bool then every f rest else mret false
  end.

(** [removeNot(schema)], writing to the store.  The recursion follows
    references, so it is bounded by [fuel]. *)
Fixpoint removeNot (fuel : nat) (schema : val) : M bool :=
  match fuel with
  | O => stuck
  | S fuel =>
      match schema with
      | VNull => raise TypeError
      | VRef _ =>
          has ← hasOwnProperty schema "not";
          if has : bool then
            n ← get schema "not";
            keys ← Object_keys n;
            forEach (λ propName,
                n ← get schema "not";
                v ← get n propName;
                set schema propName v) keys;;
            delete schema "not";;
            mret true
          else
            keys ← Object_keys schema;
            some (λ propName, v ← get schema propName; removeNot fuel v) keys
      | _ => mret false
      end
  end.

Fixpoint foldM {A S} (f : S → A → M S) (s : S) (l : list A) : M S :=
  match l with
  | [] => mret s
  | x :: rest => s' ← f s x; foldM f s' rest
  end.

Fixpoint stack_get (l : loc) (stack : list (loc * loc)) : option loc :=
  match stack with
  | [] => None
  | (l1, l2) :: rest => if (l1 =? l)%nat then Some l2 else stack_get l rest
  end.

(** [_.cloneDeep] belongs to lodash, a dependency of the repository; it is
    modelled from its documentation: a recursive copy in which every object
    and array reached is allocated anew, an object reached twice being
    copied once ([stack] maps the objects already met to their copies). *)
Fixpoint baseClone (fuel : nat) (value : val) (stack : list (loc * loc))
  : M (val * list (loc * loc)) :=
  match fuel with
  | O => stuck
  | S fuel =>
      match value with
      | VRef l =>
          match stack_get l stack with
          | Some l' => mret (VRef l', stack)
          | None =>
              o ← read l;
              l' ← alloc (match o with
                           | OArr xs => OArr (replicate (length xs) VUndefined)
                           | OObj _ => OObj []
                           end);
              let result := VRef l' in
              stack ← foldM (λ stack key,
                  '(copy, stack) ← baseClone fuel (obj_get o key) stack;
                  set result key copy;;
                  mret stack) ((l, l') :: stack) (obj_keys o);
              mret (result, stack)
          end
      | _ => mret (value, stack)
      end
  end.

Definition cloneDeep (fuel : nat) (value : val) : M val :=
  '(copy, _) ← baseClone fuel value []; mret copy.

Definition prim_eq (a b : val) : bool :=
  match a, b with
  | VUndefined, VUndefined => true
  | VNull, VNull => true
  | VBool x, VBool y => Bool.eqb x y
  | VNum x, VNum y => (x =? y)
  | VStr x, VStr y => (x =? y)%string
  | VRef x, VRef y => (x =? y)%nat
  | _, _ => false
  end.

(** [_.isEqual(a, b)] of lodash, modelled from its documentation: a deep
    comparison; arrays are compared element by element, objects by their
    own keys whatever the order.  It only reads the store. *)
Fixpoint isEqual_in (fuel : nat) (h : heap) (a b : val) : option bool :=
  match fuel with
  | O => None
  | S fuel =>
      match a, b with
      | VRef la, VRef lb =>
          if (la =? lb)%nat then Some true
          else
            oa ← h !! la; ob ← h !! lb;
            match oa, ob with
            | OArr xs, OArr ys =>
                (fix go (l r : list val) : option bool :=
                   match l, r with
                   | [], [] => Some true
                   | x :: l', y :: r' =>
                       e ← isEqual_in fuel h x y;
                       if e : bool then go l' r' else Some false
                   | _, _ => Some false
                   end) xs ys
            | OObj ps, OObj qs =>
                if negb (length ps =? length qs)%nat then Some false
                else
                  (fix go (l : list (string * val)) : option bool :=
                     match l with
                     | [] => Some true
                     | (k, x) :: l' =>
                         match assoc_get k qs with
                         | Some y =>
                             e ← isEqual_in fuel h x y;
                             if e : bool then go l' else Some false
                         | None => Some false
                         end
                     end) ps
            | _, _ => Some false
            end
      | _, _ => Some (prim_eq a b)
      end
  end.

Definition isEqual (fuel : nat) (a b : val) : M bool :=
  λ h, match isEqual_in fuel h a b with
       | Some e => Ret e h
       | None => Stuck
       end.

(** The callback of [hasMutuallyExclusiveDependencies]. *)
Definition areSubschemasMutuallyExclusive (fuel : nat)
    (dependency1 dependency2 : val) (subschemaName : string) : M bool :=
  d2 ← get dependency2 subschemaName;
  if negb (truthy d2) then mret false
  else
    d1 ← get dependency1 subschemaName;
    subschema1 ← cloneDeep fuel d1;
    subschema2 ← cloneDeep fuel d2;
    subschema1HasNot ← removeNot fuel subschema1;
    subschema2HasNot ← removeNot fuel subschema2;
    if negb subschema1HasNot && negb subschema2HasNot then mret false
    else
      same ← isEqual fuel subschema1 subschema2;
      if negb same then mret false else mret true.

(** [hasMutuallyExclusiveDependencies(oneOf)] on the store. *)
Definition hasMutuallyExclusiveDependencies (fuel : nat) (oneOf : val) : M bool :=
  len ← get oneOf "length";
  if negb (prim_eq len (VNum 2)) then mret false
  else
    s0 ← get oneOf "0";
    dependency1 ← get s0 "dependencies";
    if negb (truthy dependency1) then mret false
    else
      s1 ← get oneOf "1";
      dependency2 ← get s1 "dependencies";
      if negb (truthy dependency2) then mret false
      else
        keys ← Object_keys dependency1;
        every (areSubschemasMutuallyExclusive fuel dependency1 dependency2) keys.

(** How a JSON-like value lives in the store: every array and object is an
    object of its own. *)
Fixpoint load (t : jsval) : M val :=
  match t with
  | JUndefined => mret VUndefined
  | JNull => mret VNull
  | JBool b => mret (VBool b)
  | JNum n => mret (VNum n)
  | JStr s => mret (VStr s)
  | JArr xs =>
      vs ← (fix go (l : list jsval) : M (list val) :=
              match l with
              | [] => mret []
              | x :: rest => v ← load x; vs ← go rest; mret (v :: vs)
              end) xs;
      l ← alloc (OArr vs);
      mret (VRef l)
  | JObj ps =>
      vs ← (fix go (l : list (string * jsval)) : M (list (string * val)) :=
              match l with
              | [] => mret []
              | (k, x) :: rest => v ← load x; vs ← go rest; mret ((k, v) :: vs)
              end) ps;
      l ← alloc (OObj vs);
      mret (VRef l)
  end.

(** The value a store value stands for, read back. *)
Fixpoint snapshot (fuel : nat) (h : heap) (v : val) : option jsval :=
  match fuel with
  | O => None
  | S fuel =>
      match v with
      | VUndefined => Some JUndefined
      | VNull => Some JNull
      | VBool b => Some (JBool b)
      | VNum n => Some (JNum n)
      | VStr s => Some (JStr s)
      | VRef l =>
          o ← h !! l;
          match o with
          | OArr xs =>
              ts ← (fix go (l : list val) : option (list jsval) :=
                      match l with
                      | [] => Some []
                      | x :: rest =>
                          t ← snapshot fuel h x; ts ← go rest; Some (t :: ts)
                      end) xs;
              Some (JArr ts)
          | OObj ps =>
              ts ← (fix go (l : list (string * val)) : option (list (string * jsval)) :=
                      match l with
                      | [] => Some []
                      | (k, x) :: rest =>
                          t ← snapshot fuel h x; ts ← go rest; Some ((k, t) :: ts)
                      end) ps;
              Some (JObj ts)
          end
      end
  end.

End Store.

(* ===================================================================== *)
(** * A small orchestrator *)
(* ===================================================================== *)

(** The validators are methods of a [Validator]; [lib/validator.js], which
    defines it, is not part of [lib/attribute.js].  To run the validators on
    concrete schemas this module supplies one. *)
Module Engine.

(** Modelled from the spec: [helpers.deepCompareStrict], strict structural
    equality: order-independent key comparison for objects, recursive for
    nested structures, exact type and value equality for scalars. *)
Fixpoint deepCompareStrict (a b : jsval) {struct a} : bool :=
  match a, b with
  | JUndefined, JUndefined => true
  | JNull, JNull => true
  | JBool x, JBool y => Bool.eqb x y
  | JNum x, JNum y => (x =? y)
  | JStr x, JStr y => (x =? y)%string
  | JArr xs, JArr ys =>
      (fix go (l r : list jsval) {struct l} : bool :=
         match l, r with
         | [], [] => true
         | x :: l', y :: r' => deepCompareStrict x y && go l' r'
         | _, _ => false
         end) xs ys
  | JObj ps, JObj qs =>
      (length ps =? length qs)%nat &&
      (fix go (l : list (string * jsval)) : bool :=
         match l with
         | [] => true
         | (k, x) :: l' =>
             deepCompareStrict x (default JUndefined (JS.assoc_get k qs)) && go l'
         end) ps
  | _, _ => false
  end.

(** Modelled from the spec: [ctx.makeChild], the property path extended by
    a property name (dot) or an array index (brackets). *)
Definition makeChild (ctx : SchemaContext) (_ : jsval) (key : pkey) : SchemaContext :=
  match key with
  | PName name =>
      mkCtx (if (ctx_propertyPath ctx =? "")%string then name
             else ctx_propertyPath ctx ++ "." ++ name)
  | PIndex i => mkCtx (ctx_propertyPath ctx ++ "[" ++ string_of_nat i ++ "]")
  end.

(** Regular expressions are not modelled.  The engine reads a pattern as
    the literal text it must find in the string, with [^] in front
    anchoring it at the start; a pattern that is no string is rejected. *)
Definition literal_match (pattern s : string) : bool :=
  match pattern with
  | EmptyString => true
  | String c rest =>
      if Ascii.eqb c "^" then String.prefix rest s else contains pattern s
  end.

Definition RegExp_test (pattern : jsval) (s : string) : exc bool :=
  match pattern with
  | JStr p => Ok (literal_match p s)
  | _ => Throw SyntaxError
  end.

(** No format is registered: every format check passes. *)
Definition isFormat (_ : string) (_ : jsval) : FormatResult := FTrue.

(** Modelled from the spec: the type registry, [this.types]. *)
Definition test_named (name : string) (instance : jsval) : bool :=
  match name, instance with
  | "string", JStr _ => true
  | "number", JNum _ => true
  | "integer", JNum _ => true
  | "boolean", JBool _ => true
  | "array", JArr _ => true
  | "object", JObj _ => true
  | "null", JNull => true
  | "any", JUndefined => false
  | "any", _ => true
  | ("string" | "number" | "integer" | "boolean" | "array" | "object"
     | "null" | "date"), _ => false
  | _, _ => true
  end.

Definition testObject (instance : jsval) : bool :=
  match instance with JObj _ => true | _ => false end.

(** Modelled from the spec: [testType(instance, typeName)]; a schema given
    as a type is validated against, anything else unknown passes. *)
Definition testType_with
    (validateSchema : jsval → jsval → jsval → SchemaContext → exc ValidatorResult)
    (instance schema options : jsval) (ctx : SchemaContext) (type : jsval)
  : exc bool :=
  match type with
  | JStr name => Ok (test_named name instance)
  | JObj _ => res ← validateSchema instance type options ctx; mret (valid res)
  | _ => Ok true
  end.

(** Modelled from the spec: the orchestrator [validateSchema] runs every
    validator registered for a key of the schema, in key order, and merges
    what they return into one result; [required: true] on an absent
    instance short-circuits the other keywords.  [fuel] bounds the depth of
    the recursion: when it runs out, the call stack is exhausted. *)
Fixpoint validateSchema (fuel : nat) (instance schema options : jsval)
    (ctx : SchemaContext) : exc ValidatorResult :=
  match fuel with
  | O => Throw RangeError
  | S fuel =>
      let this := {| Attribute.validateSchema := validateSchema fuel;
                     Attribute.testType := testType_with (validateSchema fuel);
                     Attribute.types_object := testObject |} in
      let result := new_ValidatorResult instance schema ctx in
      required ← get schema "required";
      if is_true required && (is_undefined instance || is_null instance) then
        mret (addError result "is required" None)
      else
        foldM (λ result key,
            if bool_decide (key ∈ ignoreProperties) then mret result
            else
              match validators this makeChild RegExp_test isFormat
                      deepCompareStrict key with
              | Some validator =>
                  validatorErr ← validator (vr_instance result) schema options ctx;
                  mret (match validatorErr with
                        | RResult r =>
                            with_instance
                              {| vr_instance := vr_instance result;
                                 vr_schema := vr_schema result;
                                 vr_propertyPath := vr_propertyPath result;
                                 vr_errors := (vr_errors result ++ vr_errors r)%list |}
                              (vr_instance r)
                        | _ =>
                            {| vr_instance := vr_instance result;
                               vr_schema := vr_schema result;
                               vr_propertyPath := vr_propertyPath result;
                               vr_errors :=
                                 (vr_errors result ++ contributed ctx validatorErr)%list |}
                        end)
              | None => mret result
              end) result (own_keys schema)
  end.

(** The [Validator] whose recursion is [fuel] calls deep. *)
Definition validator (fuel : nat) : Validator :=
  {| Attribute.validateSchema := validateSchema fuel;
     Attribute.testType := testType_with (validateSchema fuel);
     Attribute.types_object := testObject |}.

(** [validator.validate(instance, schema)] from the root path. *)
Definition validate (instance schema : jsval) : exc ValidatorResult :=
  validateSchema 64 instance schema (JObj []) (mkCtx "").

End Engine.

(* ===================================================================== *)
(** * Schemas and instances of the test suite *)
(* ===================================================================== *)

Module Examples.

Definition obj1 (k : string) (v : jsval) : jsval := JObj [(k, v)].

(** [oneOf] with two branches whose dependencies on [prop1] contradict
    each other: [prop2] requires [prop3] in the first, must not have it in
    the second. *)
Definition requires_prop3 : jsval :=
  JObj [("dependencies",
         obj1 "prop1" (obj1 "properties"
           (obj1 "prop2" (obj1 "required" (JArr [JStr "prop3"])))));
        ("properties", obj1 "prop1" (obj1 "enum" (JArr [JStr "1"; JStr "2"])))].

Definition forbids_prop3 : jsval :=
  JObj [("dependencies",
         obj1 "prop1" (obj1 "properties"
           (obj1 "prop2" (obj1 "not" (obj1 "required" (JArr [JStr "prop3"]))))));
        ("properties", obj1 "prop1" (obj1 "enum" (JArr [JStr "3"; JStr "4"])))].

Definition contradictory : jsval := obj1 "oneOf" (JArr [requires_prop3; forbids_prop3]).

(** The same without contradiction: the second branch requires [prop4]. *)
Definition requires_prop4 : jsval :=
  JObj [("dependencies",
         obj1 "prop1" (obj1 "properties"
           (obj1 "prop2" (obj1 "required" (JArr [JStr "prop4"])))));
        ("properties", obj1 "prop1" (obj1 "enum" (JArr [JStr "3"; JStr "4"])))].

Definition not_contradictory : jsval :=
  obj1 "oneOf" (JArr [requires_prop3; requires_prop4]).

(** [oneOf] with no dependencies at all. *)
Definition one_or_two : jsval :=
  obj1 "properties" (obj1 "prop1" (obj1 "enum" (JArr [JStr "1"; JStr "2"]))).
Definition three_or_four : jsval :=
  obj1 "properties" (obj1 "prop1" (obj1 "enum" (JArr [JStr "3"; JStr "4"]))).
Definition no_dependencies : jsval := obj1 "oneOf" (JArr [one_or_two; three_or_four]).

(** [{prop1: p, prop2: q}] *)
Definition instance_of (p : string) (q : jsval) : jsval :=
  JObj [("prop1", JStr p); ("prop2", q)].

(** A [oneOf] with a single branch. *)
Definition a_string : jsval := obj1 "type" (JStr "string").
Definition lone_branch : jsval := obj1 "oneOf" (JArr [a_string]).

(** [allOf] with two members. *)
Definition a_number : jsval := obj1 "type" (JStr "number").
Definition at_least_10 : jsval := obj1 "minimum" (JNum 10).

(** Keys starting with [x] hold numbers; nothing else is allowed. *)
Definition x_numbers : jsval :=
  JObj [("patternProperties", obj1 "^x" a_number);
        ("additionalProperties", JBool false)].

(** One positional item, a number, and nothing after it. *)
Definition one_number : jsval :=
  JObj [("items", JArr [a_number]); ("additionalItems", JBool false)].

(** A schema in which every keyword that must hold an array holds a string
    and the divisors are zero. *)
Definition malformed : jsval :=
  JObj [("enum", JStr "a"); ("anyOf", JStr "a"); ("allOf", JStr "a");
        ("oneOf", JStr "a"); ("divisibleBy", JNum 0); ("multipleOf", JNum 0)].

Definition root : SchemaContext := mkCtx "".
Definition no_options : jsval := JObj [].

(** The errors the engine found, if it returned. *)
Definition errors_of (r : exc ValidatorResult) : option (list ValidationError) :=
  match r with
  | Ok res => Some (vr_errors res)
  | Throw _ => None
  end.

(** What the engine answers, with its result unpacked. *)
Definition result_of (r : exc ValidatorResult) : ValidatorResult :=
  match r with
  | Ok res => res
  | Throw _ => new_ValidatorResult JUndefined JUndefined root
  end.

End Examples.

(* ===================================================================== *)
(** * Vocabulary of the properties *)
(* ===================================================================== *)

(** The notions the statements below are phrased with. *)
Module Spec.

(** The array holds two elements, the earlier one [deepCompareStrict]-equal
    to the later one. *)
Definition has_duplicate (deepCompareStrict : jsval → jsval → bool)
    (instance : jsval) : Prop :=
  ∃ a i j x y, instance = JArr a ∧ (i < j)%nat ∧
    a !! i = Some x ∧ a !! j = Some y ∧ deepCompareStrict x y = true.

(** [v[k]], read as [undefined] where the access would throw. *)
Definition prop (v : jsval) (k : string) : jsval :=
  match get v k with Ok w => w | Throw _ => JUndefined end.

(** The name of a member schema as the specification words it: the [id] in
    angle brackets, else the JSON-quoted [title], else the [$ref] in angle
    brackets, else the fallback. *)
Definition preferred_name (v : jsval) (fallback : string) : string :=
  if truthy (prop v "id") then "<" ++ ToString (prop v "id") ++ ">"
  else if truthy (prop v "title") then stringify (prop v "title")
  else if truthy (prop v "$ref") then "<" ++ ToString (prop v "$ref") ++ ">"
  else fallback.





(** The number of results that are valid. *)
Definition count_valid (results : list ValidatorResult) : nat :=
  length (filter (λ res, valid res = true) results).



(** The litmus test on the two sub-schemas of one dependency key: one level
    of [not] is stripped from each, at least one side had a [not], and the
    two stripped schemas are structurally identical. *)
Definition strip_test (d1 d2 : jsval) : Prop :=
  ∃ b1 s1 b2 s2,
    removeNot d1 = Ok (b1, s1) ∧ removeNot d2 = Ok (b2, s2) ∧
    b1 || b2 = true ∧ isEqual s1 s2 = true.

(** The shape of a [oneOf] array as the specification words it: exactly two
    branches, both declaring [dependencies], and the litmus test holding
    for every dependency key shared by both branches. *)
Definition claimed_shape (oneOf : jsval) : Prop :=
  ∃ s0 s1 d1 d2,
    oneOf = JArr [s0; s1] ∧
    get s0 "dependencies" = Ok d1 ∧ truthy d1 = true ∧
    get s1 "dependencies" = Ok d2 ∧ truthy d2 = true ∧
    ∀ key, key ∈ own_keys d1 → key ∈ own_keys d2 →
      strip_test (prop d1 key) (prop d2 key).

(** The shape [hasMutuallyExclusiveDependencies] accepts: every dependency
    key of the first branch is a (truthy) dependency of the second branch
    too and passes the litmus test; the keys only the second branch has
    play no part. *)
Definition exclusive_shape (oneOf : jsval) : Prop :=
  ∃ s0 s1 d1 d2,
    oneOf = JArr [s0; s1] ∧
    get s0 "dependencies" = Ok d1 ∧ truthy d1 = true ∧
    get s1 "dependencies" = Ok d2 ∧ truthy d2 = true ∧
    ∀ key, key ∈ own_keys d1 →
      truthy (prop d2 key) = true ∧ strip_test (prop d1 key) (prop d2 key).

(** The properties of a schema object after its [not], holding [n], is
    stripped: the properties of the negated schema [n] are hoisted into
    the object one after the other, a hoisted property taking the place of
    one of the same name, and the [not] wrapper is removed. *)
Definition hoisted (ps : list (string * jsval)) (n : jsval)
  : list (string * jsval) :=
  assoc_delete "not"
    (fold_left (λ acc k, assoc_set k (prop n k) acc) (own_keys n) ps).

(** The schema with one [not] stripped, [None] when it holds no [not]: the
    [not] of the schema itself, else the first one met when going through
    its properties (or elements) in order and into each value. *)
Fixpoint strip_not (t : jsval) : option jsval :=
  match t with
  | JObj ps =>
      match assoc_get "not" ps with
      | Some n => Some (JObj (hoisted ps n))
      | None =>
          JObj <$>
            (fix first (l : list (string * jsval))
               : option (list (string * jsval)) :=
               match l with
               | [] => None
               | (k, v) :: rest =>
                   match strip_not v with
                   | Some v' => Some ((k, v') :: rest)
                   | None => (λ rest', (k, v) :: rest') <$> first rest
                   end
               end) ps
      end
  | JArr xs =>
      JArr <$>
        (fix first (l : list jsval) : option (list jsval) :=
           match l with
           | [] => None
           | v :: rest =>
               match strip_not v with
               | Some v' => Some (v' :: rest)
               | None => (λ rest', v :: rest') <$> first rest
               end
           end) xs
  | _ => None
  end.

(** The two searches of [strip_not], named. *)
Definition strip_first_prop : list (string * jsval) → option (list (string * jsval)) :=
  fix first (l : list (string * jsval)) : option (list (string * jsval)) :=
    match l with
    | [] => None
    | (k, v) :: rest =>
        match strip_not v with
        | Some v' => Some ((k, v') :: rest)
        | None => (λ rest', (k, v) :: rest') <$> first rest
        end
    end.

Definition strip_first_elem : list jsval → option (list jsval) :=
  fix first (l : list jsval) : option (list jsval) :=
    match l with
    | [] => None
    | v :: rest =>
        match strip_not v with
        | Some v' => Some (v' :: rest)
        | None => (λ rest', v :: rest') <$> first rest
        end
    end.

(** The schema after the attempt: stripped, or as it was. *)
Definition stripped (t : jsval) : jsval := default t (strip_not t).

(** The litmus test in the words of the specification: one [not] is
    stripped from each of the two sub-schemas, at least one of them had a
    [not] to strip, and the two schemas are structurally identical
    afterwards. *)
Definition litmus (d1 d2 : jsval) : Prop :=
  (is_Some (strip_not d1) ∨ is_Some (strip_not d2)) ∧
  isEqual (stripped d1) (stripped d2) = true.

(** The shape of [exclusive_shape], with the litmus test in the words of
    the specification. *)
Definition stated_shape (oneOf : jsval) : Prop :=
  ∃ s0 s1 d1 d2,
    oneOf = JArr [s0; s1] ∧
    get s0 "dependencies" = Ok d1 ∧ truthy d1 = true ∧
    get s1 "dependencies" = Ok d2 ∧ truthy d2 = true ∧
    ∀ key, key ∈ own_keys d1 →
      truthy (prop d2 key) = true ∧ litmus (prop d1 key) (prop d2 key).

(** A name the hoisting can assign: no member of [Object.prototype]
    (assigning to [__proto__] sets the prototype), not [not] (the hoisting
    would replace [schema.not] while it still reads from it), and no array
    index (an object enumerates its index keys first, so the hoisted
    property would not come last). *)
Definition hoistable (k : string) : bool :=
  plain_name k && negb (k =? "not")%string
  && negb (bool_decide (is_Some (index_of_string k))).

(** A schema on which [removeNot], [_.cloneDeep] and [_.isEqual] deal with
    plain properties only: it holds no [null]; no property of an object in
    it is named like a member of [Object.prototype] ([hasOwnProperty],
    [constructor], [__proto__], ...); and the value of a [not] is not
    [undefined] and has [hoistable] property names only. *)
Fixpoint regular (t : jsval) : bool :=
  match t with
  | JNull => false
  | JArr xs => forallb regular xs
  | JObj ps =>
      match assoc_get "not" ps with
      | Some n => negb (is_undefined n) && forallb hoistable (own_keys n)
      | None => true
      end
      && forallb (λ kv, plain_name kv.1 && regular kv.2) ps
  | _ => true
  end.

(** The [dependencies] of two branches on which the detection reads own
    properties only: every dependency key of the first branch is read from
    the second without reaching a prototype, and where the second has a
    (truthy) sub-schema for it, both sub-schemas are [regular]. *)
Definition plain_dependencies (oneOf : jsval) : bool :=
  match oneOf with
  | JArr [s0; s1] =>
      let d1 := prop s0 "dependencies" in
      let d2 := prop s1 "dependencies" in
      negb (truthy d1 && truthy d2)
      || forallb (λ key,
           reads_own d2 key
           && (negb (truthy (prop d2 key))
               || (regular (prop d1 key) && regular (prop d2 key))))
           (own_keys d1)
  | _ => true
  end.

(** Two branches sharing the dependency key [a], negated in the first; the
    first branch has a second dependency key [b] the other has not. *)
Definition unshared_key_branches : jsval :=
  JArr [ JObj [("dependencies",
                JObj [("a", JObj [("not", JObj [("required", JArr [JStr "x"])])]);
                      ("b", JObj [("required", JArr [JStr "y"])])])];
         JObj [("dependencies",
                JObj [("a", JObj [("required", JArr [JStr "x"])])])] ].

(** *** The store *)

(** A value that is no reference below [n0]: a primitive, or a reference
    to an object allocated at [n0] or later. *)
Definition val_above (n0 : nat) (v : Store.val) : Prop :=
  match v with
  | Store.VRef l => (n0 ≤ l)%nat
  | _ => True
  end.

Definition obj_above (n0 : nat) (o : Store.obj) : Prop :=
  match o with
  | Store.OArr xs => Forall (val_above n0) xs
  | Store.OObj ps => Forall (λ kv, val_above n0 kv.2) ps
  end.

(** The objects allocated at [n0] or later refer to one another only: no
    reference leads from them back to the objects below [n0]. *)
Definition scratch_closed (n0 : nat) (h : Store.heap) : Prop :=
  ∀ l o, (n0 ≤ l)%nat → h !! l = Some o → obj_above n0 o.

(** [h'] holds every object of [h] below [n0] unchanged, and is no
    shorter. *)
Definition frame (n0 : nat) (h h' : Store.heap) : Prop :=
  (length h ≤ length h')%nat ∧ ∀ l, (l < n0)%nat → h' !! l = h !! l.

(** A computation that leaves the objects below [n0] alone, keeps the
    later ones closed, and returns a value satisfying [P]. *)
Definition preserves {A} (n0 : nat) (P : A → Prop) (c : Store.M A) : Prop :=
  ∀ h, (n0 ≤ length h)%nat → scratch_closed n0 h →
    match c h with
    | Store.Ret a h' => frame n0 h h' ∧ scratch_closed n0 h' ∧ P a
    | Store.Raise _ h' => frame n0 h h' ∧ scratch_closed n0 h'
    | Store.Stuck => True
    end.

End Spec.

Export Spec.

(* ===================================================================== *)
(** * Values in the store *)
(* ===================================================================== *)

(** The vocabulary that relates the two embeddings of the detection: when
    a value of [JS] is laid out in the store, and what the loops of
    [removeNot], [_.cloneDeep] and [_.isEqual] are called. *)
Module Repr.
Import Store.
Local Open Scope nat_scope.
Local Open Scope list_scope.

(** The nesting depth of a value: the recursions over the store need more
    fuel than this. *)
Fixpoint depth (t : jsval) : nat :=
  match t with
  | JArr xs => S (foldr (λ x m, depth x `max` m) 0 xs)
  | JObj ps => S (foldr (λ kv m, depth kv.2 `max` m) 0 ps)
  | _ => 0
  end.

(** A value in which no object lists a key twice: what a JavaScript object
    can be. *)
Fixpoint wf (t : jsval) : Prop :=
  match t with
  | JArr xs => foldr (λ x P, wf x ∧ P) True xs
  | JObj ps => NoDup (fst <$> ps) ∧ foldr (λ kv P, wf kv.2 ∧ P) True ps
  | _ => True
  end.

Section lists.
Context {A B : Type}.

(** The lists are related element by element, over pairwise disjoint sets
    of objects whose union is [F]. *)
Fixpoint sep_list (R : A → B → gset loc → Prop)
    (xs : list A) (ys : list B) (F : gset loc) : Prop :=
  match xs, ys with
  | [], [] => F = ∅
  | x :: xs', y :: ys' =>
      ∃ F1 F2, R x y F1 ∧ sep_list R xs' ys' F2 ∧ F1 ## F2 ∧ F = F1 ∪ F2
  | _, _ => False
  end.

(** The lists are related element by element. *)
Fixpoint all2 (R : A → B → Prop) (xs : list A) (ys : list B) : Prop :=
  match xs, ys with
  | [], [] => True
  | x :: xs', y :: ys' => R x y ∧ all2 R xs' ys'
  | _, _ => False
  end.
End lists.

(** [repr h t v F]: in the store [h] the value [v] stands for [t], every
    array and object of [t] being an object of its own; [F] is the set of
    these objects.  No object is shared: this is how a schema read from
    JSON lies in the store, and how [_.cloneDeep] leaves its copy. *)
Fixpoint repr (h : heap) (t : jsval) (v : val) (F : gset loc) {struct t} : Prop :=
  match t with
  | JUndefined => v = VUndefined ∧ F = ∅
  | JNull => v = VNull ∧ F = ∅
  | JBool b => v = VBool b ∧ F = ∅
  | JNum n => v = VNum n ∧ F = ∅
  | JStr s => v = VStr s ∧ F = ∅
  | JArr ts =>
      ∃ l vs F', v = VRef l ∧ h !! l = Some (OArr vs) ∧ (l ∉ F') ∧ F = ({[l]} ∪ F') ∧
        sep_list (λ t v F, repr h t v F) ts vs F'
  | JObj tps =>
      ∃ l ps F', v = VRef l ∧ h !! l = Some (OObj ps) ∧ (l ∉ F') ∧ F = ({[l]} ∪ F') ∧
        sep_list (λ kt kv F, kt.1 = kv.1 ∧ repr h kt.2 kv.2 F) tps ps F'
  end.

(** [snap h F t v]: read through the store [h], the value [v] is [t], and
    every object met on the way belongs to [F].  Objects may be shared:
    this is what is left once [removeNot] has hoisted the properties of a
    negated schema. *)
Fixpoint snap (h : heap) (F : gset loc) (t : jsval) (v : val) {struct t} : Prop :=
  match t with
  | JUndefined => v = VUndefined
  | JNull => v = VNull
  | JBool b => v = VBool b
  | JNum n => v = VNum n
  | JStr s => v = VStr s
  | JArr ts =>
      ∃ l vs, v = VRef l ∧ h !! l = Some (OArr vs) ∧ l ∈ F ∧
        all2 (λ t v, snap h F t v) ts vs
  | JObj tps =>
      ∃ l ps, v = VRef l ∧ h !! l = Some (OObj ps) ∧ l ∈ F ∧
        all2 (λ kt kv, kt.1 = kv.1 ∧ snap h F kt.2 kv.2) tps ps
  end.

(** The objects of [F] were allocated from [lo] on and before [hi]. *)
Definition within (lo hi : nat) (F : gset loc) : Prop :=
  ∀ l, l ∈ F → lo ≤ l < hi.

(** ** The loops of [Attribute.removeNot] and [Attribute.isEqual], named *)

(** [Object.keys(schema).some(...)] on the properties of an object. *)
Fixpoint some_props (l : list (string * jsval)) : exc (bool * list (string * jsval)) :=
  match l with
  | [] => Ok (false, [])
  | (k, v) :: rest =>
      '(found, v') ← Attribute.removeNot v;
      if found : bool then mret (true, (k, v') :: rest)
      else '(found, rest') ← some_props rest;
           mret (found, (k, v') :: rest')
  end.

(** The same on the elements of an array. *)
Fixpoint some_elems (l : list jsval) : exc (bool * list jsval) :=
  match l with
  | [] => Ok (false, [])
  | v :: rest =>
      '(found, v') ← Attribute.removeNot v;
      if found : bool then mret (true, v' :: rest)
      else '(found, rest') ← some_elems rest;
           mret (found, v' :: rest')
  end.

(** [schema[propName] = schema.not[propName]] on the property list. *)
Definition hoist_tree (ps : list (string * jsval)) (propName : string)
  : exc (list (string * jsval)) :=
  v ← JS.get (default JUndefined (JS.assoc_get "not" ps)) propName;
  mret (JS.assoc_set propName v ps).

Fixpoint isEqual_elems (l r : list jsval) : bool :=
  match l, r with
  | [], [] => true
  | x :: l', y :: r' => Attribute.isEqual x y && isEqual_elems l' r'
  | _, _ => false
  end.

Definition isEqual_props (qs : list (string * jsval))
  : list (string * jsval) → bool :=
  fix go (l : list (string * jsval)) : bool :=
    match l with
    | [] => true
    | (k, x) :: l' =>
        match JS.assoc_get k qs with
        | Some y => Attribute.isEqual x y && go l'
        | None => false
        end
    end.

(** ** The loops of the store embedding, named *)

(** The body of the loop of [Store.baseClone]. *)
Definition clone_body (fuel : nat) (o : obj) (l' : loc)
    (stack : list (loc * loc)) (key : string) : M (list (loc * loc)) :=
  '(copy, stack) ← baseClone fuel (obj_get o key) stack;
  set (VRef l') key copy;;
  mret stack.

(** The two callbacks of [Store.removeNot]. *)
Definition hoist (l : loc) (propName : string) : M unit :=
  n ← get (VRef l) "not";
  v ← get n propName;
  set (VRef l) propName v.

Definition descend (fuel : nat) (l : loc) (propName : string) : M bool :=
  v ← get (VRef l) propName; removeNot fuel v.

(** The two loops of [Store.isEqual_in]. *)
Definition eq_elems (rec : val → val → option bool)
  : list val → list val → option bool :=
  fix go (l r : list val) : option bool :=
    match l, r with
    | [], [] => Some true
    | x :: l', y :: r' => e ← rec x y; if e : bool then go l' r' else Some false
    | _, _ => Some false
    end.

Definition eq_props (rec : val → val → option bool) (qs : list (string * val))
  : list (string * val) → option bool :=
  fix go (l : list (string * val)) : option bool :=
    match l with
    | [] => Some true
    | (k, x) :: l' =>
        match assoc_get k qs with
        | Some y => e ← rec x y; if e : bool then go l' else Some false
        | None => Some false
        end
    end.

(** The two loops of [Store.snapshot]. *)
Definition snapshot_elems (rec : val → option jsval)
  : list val → option (list jsval) :=
  fix go (l : list val) : option (list jsval) :=
    match l with
    | [] => Some []
    | x :: rest => t ← rec x; ts ← go rest; Some (t :: ts)
    end.

Definition snapshot_props (rec : val → option jsval)
  : list (string * val) → option (list (string * jsval)) :=
  fix go (l : list (string * val)) : option (list (string * jsval)) :=
    match l with
    | [] => Some []
    | (k, x) :: rest => t ← rec x; ts ← go rest; Some ((k, t) :: ts)
    end.

(** ** What the store embedding owes the embedding on values *)

(** [_.cloneDeep] of a value laid out without sharing returns: the copy
    stands for the same value, lies in objects allocated by the call, and
    the store it was given is left as it was. *)
Definition clone_spec (t : jsval) : Prop :=
  ∀ fuel v F stack h,
    wf t → depth t < fuel → repr h t v F →
    (∀ l, l ∈ F → stack_get l stack = None) →
    ∃ v' stack' h' F',
      baseClone fuel v stack h = Ret (v', stack') h' ∧
      repr h' t v' F' ∧
      within (length h) (length h') F' ∧
      frame (length h) h h' ∧
      (∀ l, l ∉ F → stack_get l stack' = stack_get l stack).

(** [removeNot] on the store answers what [Attribute.removeNot] answers,
    leaves in place the schema [Attribute.removeNot] returns, and writes
    to the objects of the schema only. *)
Definition removeNot_spec (t : jsval) : Prop :=
  ∀ fuel v F h,
    wf t → depth t < fuel → repr h t v F →
    match Attribute.removeNot t with
    | Ok (found, t') =>
        ∃ h', removeNot fuel v h = Ret found h' ∧ snap h' F t' v ∧
              length h' = length h ∧ (∀ l, l ∉ F → h' !! l = h !! l)
    | Throw e => ∃ h', removeNot fuel v h = Raise e h'
    end.

End Repr.

(* ===================================================================== *)
(** * What the validators answer, in closed form *)
(* ===================================================================== *)

(** The answers of the validators written as functions of the results of
    the sub-validations, and the predicates on schemas, that the theorems
    of [Further] are stated with. *)
Module Behaviour.

(** What [validators.anyOf] answers, from the results of the branches:
    nothing when one of them is valid, the aggregate of all their errors
    otherwise. *)
Definition anyOf_answer (instance schema : jsval) (ctx : SchemaContext)
    (results : list ValidatorResult) : ret :=
  if existsb valid results then RNull
  else RObject {| vr_instance := instance; vr_schema := schema;
                  vr_propertyPath := ctx_propertyPath ctx;
                  vr_errors := concat (vr_errors <$> results) |}.


(** [typeof v === 'undefined' || v === null] *)
Definition nullish (v : jsval) : bool := is_undefined v || is_null v.

(** The errors of [validators.required] for a list of names: one for each
    name the instance has no value for ([undefined] or [null]), addressed
    to the name under the path of the context. *)
Definition required_errors (instance : jsval) (ctx : SchemaContext)
    (names : list jsval) : list ValidationError :=
  (λ n, mkError "is required"
          ((if (ctx_propertyPath ctx =? "")%string then ""
            else ctx_propertyPath ctx ++ ".") ++ ToString n))
  <$> filter (λ n, nullish (prop instance (ToString n)) = true) names.

(** What one key of [schema.dependencies] adds to the result of
    [validators.dependencies]: nothing when the instance has no value for
    the key; for a name or a list of names, one error per name the instance
    lacks; for a schema, when the instance fails it with the result [res],
    the error "does not meet dependency required by ..." followed by the
    errors of [res]. *)
Definition dependency_errors
    (makeChild : SchemaContext → jsval → pkey → SchemaContext)
    (instance : jsval) (ctx : SchemaContext) (property : string) (dep : jsval)
    (res : ValidatorResult) : list ValidationError :=
  if is_undefined (prop instance property) then []
  else
    let requiredBy := ctx_propertyPath (makeChild ctx dep (PName property)) in
    let names := if typeof_string dep then JArr [dep] else dep in
    if instanceof_Array names then
      (λ p, mkError ("property " ++ ToString p ++ " not found, required by "
                     ++ requiredBy) (ctx_propertyPath ctx))
      <$> filter (λ p, is_undefined (prop instance (ToString p)) = true) (elems names)
    else if valid res then []
    else mkError ("does not meet dependency required by " ++ requiredBy)
           (ctx_propertyPath ctx) :: vr_errors res.

(** The sub-schema [validators.items] uses for the element at index [i]:
    [schema.items] itself, or, when that is a list,
    [schema.items[i] || schema.additionalItems]. *)
Definition item_schema (schema : jsval) (i : nat) : jsval :=
  let its := prop schema "items" in
  if instanceof_Array its
  then js_or (item (elems its) i) (prop schema "additionalItems")
  else its.

(** The errors [validators.items] gathers over the indices [idx]: an index
    without sub-schema is skipped, the sub-schema [false] yields one error
    and ends the scan, any other sub-schema yields the errors of the
    element's validation. *)
Fixpoint items_scan (path : string) (schema_at : nat → jsval)
    (res_of : nat → ValidatorResult) (idx : list nat) : list ValidationError :=
  match idx with
  | [] => []
  | i :: rest =>
      match schema_at i with
      | JUndefined => items_scan path schema_at res_of rest
      | JBool false => [mkError "additionalItems not permitted" path]
      | _ => vr_errors (res_of i) ++ items_scan path schema_at res_of rest
      end
  end.

(** [schema.properties && schema.properties[property] !== undefined]: the
    property has a definition in [properties]. *)
Definition declared (props : jsval) (property : string) : bool :=
  truthy props && negb (is_undefined (prop props property)).


(** No object of the schema has a key [not]. *)
Fixpoint no_not (t : jsval) : bool :=
  match t with
  | JArr xs => forallb no_not xs
  | JObj ps => forallb (λ kv, negb (kv.1 =? "not")%string && no_not kv.2) ps
  | _ => true
  end.

(** The schema is [null] or holds a [null] somewhere. *)
Fixpoint has_null (t : jsval) : bool :=
  match t with
  | JNull => true
  | JArr xs => existsb has_null xs
  | JObj ps => existsb (λ kv, has_null kv.2) ps
  | _ => false
  end.

(** [removeNot] cannot go through the schema: it is [null] or holds a
    [null] somewhere, or an object in it has an own property
    [hasOwnProperty]. *)
Fixpoint stops (t : jsval) : bool :=
  match t with
  | JNull => true
  | JArr xs => existsb stops xs
  | JObj ps =>
      bool_decide (is_Some (assoc_get "hasOwnProperty" ps))
      || existsb (λ kv, stops kv.2) ps
  | _ => false
  end.

(** A schema in which [removeNot] finds nothing and runs to its end. *)
Definition not_free (t : jsval) : bool := no_not t && regular t.

(** The value of every [not] in the schema has [hoistable] property names
    only: the hoisting then reads and assigns plain own properties. *)
Fixpoint flat_not (t : jsval) : bool :=
  match t with
  | JArr xs => forallb flat_not xs
  | JObj ps =>
      match assoc_get "not" ps with
      | Some n => forallb hoistable (own_keys n)
      | None => true
      end
      && forallb (λ kv, flat_not kv.2) ps
  | _ => true
  end.

(** The names a dependency lists: itself when it is a string, its elements
    when it is an array. *)
Definition dependency_names (dep : jsval) : list jsval :=
  if typeof_string dep then [dep]
  else if instanceof_Array dep then elems dep else [].

(** [p] is a string, and [v[p]] does not reach a prototype. *)
Definition own_name (v p : jsval) : bool :=
  match p with JStr s => reads_own v s | _ => false end.

(** A dependency negated: [{not: s}]. *)
Definition negated (kv : string * jsval) : string * jsval :=
  (kv.1, JObj [("not", kv.2)]).



(** The instances a keyword looks at, for the keywords that begin by
    testing what their instance is: [typeof instance === 'number'],
    [instance instanceof Array], an object by [instanceof Object] or by
    [typeof], and [this.types.object(instance)]. *)
Definition applies_to (this : Validator) (key : string) : option (jsval → bool) :=
  if bool_decide (key ∈ ["minimum"; "maximum"; "divisibleBy"; "multipleOf"])
  then Some typeof_number
  else if bool_decide (key ∈ ["items"; "minItems"; "maxItems"; "uniqueItems"])
  then Some instanceof_Array
  else if bool_decide (key ∈ ["properties"; "minProperties"; "maxProperties";
                              "dependencies"])
  then Some instanceof_Object
  else if bool_decide (key ∈ ["patternProperties"; "additionalProperties"])
  then Some (types_object this)
  else None.

End Behaviour.

Export Behaviour.


(* ===================================================================== *)
(** * More schemas *)
(* ===================================================================== *)

Module Samples.
Import Examples.

(** [anyOf] of a string and a number; of a number and a malformed schema. *)
Definition string_or_number : jsval := obj1 "anyOf" (JArr [a_string; a_number]).
Definition number_or_malformed : jsval := obj1 "anyOf" (JArr [a_number; malformed]).


(** [a] and [b] are required. *)
Definition needs_a_and_b : jsval := obj1 "required" (JArr [JStr "a"; JStr "b"]).

(** [a] depends on the property [b], [c] on the instance having three
    properties at least. *)
Definition a_needs_b : jsval :=
  obj1 "dependencies"
    (JObj [("a", JStr "b"); ("c", obj1 "minProperties" (JNum 3))]).

(** Every item is a number. *)
Definition numbers : jsval := obj1 "items" a_number.

(** [a] is a number and no other property is allowed. *)
Definition only_a : jsval :=
  JObj [("properties", obj1 "a" a_number); ("additionalProperties", JBool false)].

(** One of two types. *)
Definition string_or_number_type : jsval :=
  obj1 "type" (JArr [JStr "string"; JStr "number"]).

(** The property [prop1] must be absent. *)
Definition without_prop1 : jsval :=
  obj1 "not" (obj1 "required" (JArr [JStr "prop1"])).

(** Two branches, [a] requiring [b] in one and forbidding it in the other. *)
Definition a_requires_b : list (string * jsval) :=
  [("a", obj1 "required" (JArr [JStr "b"]))].
Definition requires_b : jsval := obj1 "dependencies" (JObj a_requires_b).
Definition forbids_b : jsval := obj1 "dependencies" (JObj (negated <$> a_requires_b)).

(** Two branches whose dependency on [a] allows [null] in one and forbids
    it in the other. *)
Definition allows_null : jsval :=
  obj1 "dependencies" (obj1 "a" (obj1 "enum" (JArr [JNull]))).
Definition forbids_null : jsval :=
  obj1 "dependencies" (obj1 "a" (obj1 "not" (obj1 "enum" (JArr [JNull])))).
Definition null_or_not : jsval := obj1 "oneOf" (JArr [allows_null; forbids_null]).

(** What the engine answers under the child context of a property or an
    index. *)
Definition run_at (instance schema : jsval) (key : pkey) : ValidatorResult :=
  result_of (validateSchema (Engine.validator 8) instance schema no_options
               (Engine.makeChild root schema key)).


End Samples.


(* ===================================================================== *)
(** * Properties *)
(* ===================================================================== *)

(** ** Basic facts about the monad and the primitives *)

Lemma bind_Ok {A B} (f : A → exc B) (a : A) : (Ok a ≫= f) = f a.
Proof. reflexivity. Qed.

Lemma bind_Throw {A B} (f : A → exc B) (e : exn) : (Throw e ≫= f) = Throw e.
Proof. reflexivity. Qed.

Lemma bind_Ok_inv {A B} (f : A → exc B) (c : exc A) (b : B) :
  (c ≫= f) = Ok b → ∃ a, c = Ok a ∧ f a = Ok b.
Proof. destruct c as [a|e]; [eauto | discriminate]. Qed.

Lemma index_of_string_of_nat (n : nat) : index_of_string (string_of_nat n) = Some n.
Proof.
  unfold index_of_string, string_of_nat.
  rewrite NilEmpty.usu, DecimalNat.Unsigned.of_to.
  by rewrite String.eqb_refl.
Qed.

Lemma get_not_nullish (v : jsval) (k : string) :
  v ≠ JUndefined → v ≠ JNull → ∃ w, get v k = Ok w.
Proof.
  intros Hu Hn. destruct v; try done; simpl; eauto.
  - destruct (index_of_string k); eauto. destruct (k =? "length")%string; eauto.
  - destruct (index_of_string k); eauto. destruct (k =? "length")%string; eauto.
Qed.

Lemma get_Ok_not_nullish (v w : jsval) (k : string) :
  get v k = Ok w → v ≠ JUndefined ∧ v ≠ JNull.
Proof. destruct v; simpl; intros; try discriminate; done. Qed.

Lemma valid_true (r : ValidatorResult) : valid r = true ↔ vr_errors r = [].
Proof. unfold valid. destruct (vr_errors r); split; done. Qed.


Section Claims.

Variable this : Validator.
Variable makeChild : SchemaContext → jsval → pkey → SchemaContext.
Variable RegExp_test : jsval → string → exc bool.
Variable isFormat : string → jsval → FormatResult.
Variable deepCompareStrict : jsval → jsval → bool.

(** ** Schema errors *)

(** C5. A malformed schema makes the validator throw a [SchemaError]
    instead of returning anything that could be collected into the result:
    an [enum] that is not an array (whatever the instance), an [anyOf],
    [allOf] or [oneOf] that is not an array (for a defined instance), a
    [divisibleBy] or [multipleOf] of zero (for a number instance). *)
Theorem C5_malformed_schema_throws (instance schema options : jsval)
    (ctx : SchemaContext) (v : jsval) (n : Z) :
  instanceof_Array v = false →
  (get schema "enum" = Ok v →
     validateEnum deepCompareStrict instance schema
     = Throw (SchemaError "enum expects an array")) ∧
  (instance ≠ JUndefined → get schema "anyOf" = Ok v →
     validateAnyOf this instance schema options ctx
     = Throw (SchemaError "anyOf must be an array")) ∧
  (instance ≠ JUndefined → get schema "allOf" = Ok v →
     validateAllOf this instance schema options ctx
     = Throw (SchemaError "allOf must be an array")) ∧
  (instance ≠ JUndefined → get schema "oneOf" = Ok v →
     validateOneOf this instance schema options ctx
     = Throw (SchemaError "oneOf must be an array")) ∧
  (get schema "divisibleBy" = Ok (JNum 0) →
     validateDivisibleBy (JNum n) schema
     = Throw (SchemaError "divisibleBy cannot be zero")) ∧
  (get schema "multipleOf" = Ok (JNum 0) →
     validateMultipleOf (JNum n) schema
     = Throw (SchemaError "multipleOf cannot be zero")).
Proof.
  intros Hv. repeat split.
  - intros He. unfold validateEnum. rewrite He. simpl. by rewrite Hv.
  - intros Hi Ha. unfold validateAnyOf.
    destruct instance; try done; simpl; rewrite Ha; simpl; by rewrite Hv.
  - intros Hi Ha. unfold validateAllOf.
    destruct instance; try done; simpl; rewrite Ha; simpl; by rewrite Hv.
  - intros Hi Ha. unfold validateOneOf.
    destruct instance; try done; simpl; rewrite Ha; simpl; by rewrite Hv.
  - intros Hd. unfold validateDivisibleBy. by rewrite Hd.
  - intros Hd. unfold validateMultipleOf. by rewrite Hd.
Qed.

(** ** Absent instances *)

(** C4. Every validator of the table other than [required] (both
    definitions of [uniqueItems] included) returns without an exception on
    an [undefined] instance and contributes no error.  Of the schema only
    this is asked: when the keyword is [enum], its value is an array. *)
Theorem C4_absence_neutrality (key : string)
    (validator : jsval → jsval → jsval → SchemaContext → exc ret)
    (schema options : jsval) (ctx : SchemaContext) :
  (key, validator)
    ∈ validators_table this makeChild RegExp_test isFormat deepCompareStrict →
  key ≠ "required" →
  (key = "enum" → ∃ e, get schema "enum" = Ok (JArr e)) →
  ∃ r, validator JUndefined schema options ctx = Ok r ∧ contributed ctx r = [].
Proof.
  intros Hin Hkey Henum. unfold validators_table in Hin.
  repeat (apply elem_of_cons in Hin as [[= -> ->] | Hin]);
    try (by apply elem_of_nil in Hin); try done;
    try (by eexists; split; [reflexivity | reflexivity]).
  destruct (Henum eq_refl) as [e He].
  unfold validateEnum. rewrite He. simpl. by eexists.
Qed.

(** ** [uniqueItems] *)

Lemma testArrays_false (v : jsval) (i : nat) (a : list jsval) :
  testArrays deepCompareStrict v i a = false ↔
  ∃ j y, (i < j)%nat ∧ a !! j = Some y ∧ deepCompareStrict v y = true.
Proof.
  unfold testArrays. rewrite negb_false_iff, existsb_exists. split.
  - intros (j & Hj & Hd). apply in_seq in Hj.
    destruct (lookup_lt_is_Some_2 a j) as [y Hy]; [lia|].
    exists j, y. unfold item in Hd. rewrite Hy in Hd. split; [lia | done].
  - intros (j & y & Hij & Hy & Hd). exists j. split.
    + apply in_seq. apply lookup_lt_Some in Hy. lia.
    + unfold item. by rewrite Hy.
Qed.

Lemma forallb_false {A} (f : A → bool) (l : list A) :
  forallb f l = false ↔ ∃ x, x ∈ l ∧ f x = false.
Proof.
  induction l as [|x l IH]; simpl.
  - split; [done | by intros (x & Hx%elem_of_nil & _)].
  - rewrite andb_false_iff, IH. split.
    + intros [Hx | (y & Hy & Hf)]; [exists x | exists y]; split; auto; by constructor.
    + intros (y & Hy & Hf). apply elem_of_cons in Hy as [->|Hy]; eauto.
Qed.

Lemma testArrays_nested_eq (v : jsval) (i : nat) (a : list jsval) :
  testArrays_nested deepCompareStrict v i a = testArrays deepCompareStrict v i a.
Proof. reflexivity. Qed.

Lemma every_testArrays_false (a : list jsval) :
  forallb (λ '(i, v), testArrays deepCompareStrict v i a) (imap pair a) = false ↔
  has_duplicate deepCompareStrict (JArr a).
Proof.
  rewrite forallb_false. split.
  - intros ([i v] & Hin & Ht).
    apply elem_of_lookup_imap in Hin as (i' & v' & [= -> ->] & Hl).
    apply testArrays_false in Ht as (j & y & Hij & Hy & Hd).
    by exists a, i', j, v', y.
  - intros (a' & i & j & x & y & [= <-] & Hij & Hx & Hy & Hd).
    exists (i, x). split.
    + apply elem_of_lookup_imap. eauto.
    + apply testArrays_false. eauto.
Qed.

(** C10. [validators.uniqueItems] is assigned twice and the table holds the
    second definition.  The two definitions contribute the same errors on
    every instance: the single error "contains duplicate item" exactly when
    the instance is an array with a duplicate, and nothing otherwise (in
    particular nothing for an instance that is not an array). *)
Theorem C10_uniqueItems_definitions_agree (instance schema options : jsval)
    (ctx : SchemaContext) :
  validators this makeChild RegExp_test isFormat deepCompareStrict "uniqueItems"
    = Some (λ instance _ _ _, validateUniqueItems deepCompareStrict instance) ∧
  ∃ r1 r2,
    validateUniqueItems_1 deepCompareStrict instance schema options ctx = Ok r1 ∧
    validateUniqueItems deepCompareStrict instance = Ok r2 ∧
    contributed ctx r1 = contributed ctx r2 ∧
    (has_duplicate deepCompareStrict instance →
       contributed ctx r2 = [mkError "contains duplicate item" (ctx_propertyPath ctx)]) ∧
    (¬ has_duplicate deepCompareStrict instance → contributed ctx r2 = []).
Proof.
  split; [reflexivity|].
  unfold validateUniqueItems_1, validateUniqueItems.
  destruct (instanceof_Array instance) eqn:Harr; simpl.
  - destruct instance as [| | | | |a|]; try discriminate. simpl.
    change (testArrays_nested deepCompareStrict)
      with (testArrays deepCompareStrict).
    destruct (forallb _ (imap pair a)) eqn:Hall; simpl.
    + do 2 eexists. repeat split; try done.
      intros Hdup. apply every_testArrays_false in Hdup. congruence.
    + do 2 eexists. repeat split; try done.
      intros Hno. exfalso. apply Hno. by apply every_testArrays_false.
  - do 2 eexists. repeat split; try done.
    intros (a & i & j & x & y & -> & _). discriminate.
Qed.

(** ** Naming member schemas; [allOf] *)

Lemma string_of_Z_nonempty (n : Z) : string_of_Z n ≠ "".
Proof.
  unfold string_of_Z, NilZero.string_of_int.
  destruct (Z.to_int n) as [d|d]; [|done].
  unfold NilZero.string_of_uint. by destruct d.
Qed.

Lemma stringify_truthy (v : jsval) : truthy (JStr (stringify v)) = true.
Proof.
  simpl. apply negb_true_iff, String.eqb_neq.
  destruct v as [| |[]|n| | |]; try done. apply string_of_Z_nonempty.
Qed.

Lemma schema_name_preferred (v : jsval) (fallback : string) :
  v ≠ JUndefined → v ≠ JNull →
  schema_name v fallback = Ok (preferred_name v fallback).
Proof.
  intros Hu Hn. unfold schema_name, preferred_name, prop.
  destruct (get_not_nullish v "id" Hu Hn) as [id ->].
  destruct (get_not_nullish v "title" Hu Hn) as [title ->].
  destruct (get_not_nullish v "$ref" Hu Hn) as [ref ->].
  simpl. unfold js_or, js_and.
  destruct (truthy id) eqn:Hid; simpl; [done|]. rewrite Hid.
  destruct (truthy title) eqn:Ht; simpl.
  - assert (JSON_stringify title = JStr (stringify title)) as ->
      by (by destruct title).
    by rewrite stringify_truthy.
  - rewrite Ht. destruct (truthy ref) eqn:Hr; simpl; [done|]. by rewrite Hr.
Qed.




(** ** [items] and [additionalItems] *)

Lemma write_back_array (result res : ValidatorResult) (cur : list jsval) (k : nat) :
  vr_instance result = JArr cur → (k < length cur)%nat →
  ∃ cur',
    write_back result (string_of_nat k) res
      = Ok (with_instance result (JArr cur')) ∧
    length cur' = length cur ∧
    ∀ j, j ≠ k → cur' !! j = cur !! j.
Proof.
  intros Hinst Hk. unfold write_back. rewrite Hinst. cbn [get].
  rewrite index_of_string_of_nat, bind_Ok.
  destruct (same_value _ _).
  - exists cur. split; [|done]. destruct result; simpl in *; by subst.
  - cbn [set]. rewrite index_of_string_of_nat, bool_decide_true by done.
    rewrite bind_Ok. exists (<[k := vr_instance res]> cur).
    split; [done|]. split; [by rewrite length_insert|].
    intros j Hj. by rewrite list_lookup_insert_ne.
Qed.

(** The scan of [validators.items] from index [k] on, when the positional
    list has [m >= k] truthy sub-schemas, the array is longer than [m] and
    [additionalItems] is [false]: the elements [k .. m-1] are validated,
    element [m] yields the error and ends the scan. *)
Lemma every_item_overflow (schema options : jsval) (ctx : SchemaContext)
    (vs its : list jsval) (results : list ValidatorResult) (n : nat) :
  get schema "items" = Ok (JArr its) →
  get schema "additionalItems" = Ok (JBool false) →
  Forall (λ s, truthy s = true) its →
  (length its < length vs)%nat →
  length results = length its →
  (∀ i v s res, vs !! i = Some v → its !! i = Some s → results !! i = Some res →
     validateSchema this v s options (makeChild ctx s (PIndex i)) = Ok res) →
  ∀ (k : nat) (result : ValidatorResult) (cur : list jsval),
    (k + n = length its)%nat →
    vr_instance result = JArr cur →
    length cur = length vs →
    (∀ j, (k ≤ j)%nat → cur !! j = vs !! j) →
    ∃ result',
      every_item this makeChild schema options ctx result
        (seq k (length vs - k)) = Ok result' ∧
      vr_errors result' =
        (vr_errors result ++ concat (vr_errors <$> drop k results)
         ++ [mkError "additionalItems not permitted" (vr_propertyPath result)])%list.
Proof.
  intros Hits Hadd Htruthy Hlen Hrlen Hres.
  induction n as [|n IH]; intros k result cur Hk Hinst Hclen Hcur.
  - (* k is the first index beyond the positional list *)
    assert (k = length its) as -> by lia.
    destruct (length vs - length its)%nat as [|d] eqn:Hd; [lia|].
    cbn [seq every_item]. unfold validateItem.
    rewrite Hinst. cbn [get_index]. rewrite bind_Ok, Hits, bind_Ok.
    cbn [instanceof_Array get_index].
    rewrite (lookup_ge_None_2 its (length its)) by lia.
    cbn [from_option id]. rewrite !bind_Ok, Hadd, !bind_Ok. cbn [js_or truthy].
    rewrite !bind_Ok. eexists. split; [reflexivity|].
    rewrite drop_ge by lia. reflexivity.
  - (* k is a position of the list *)
    assert (Hkm : (k < length its)%nat) by lia.
    destruct (lookup_lt_is_Some_2 its k Hkm) as [s Hs].
    destruct (lookup_lt_is_Some_2 vs k) as [v Hv]; [lia|].
    destruct (lookup_lt_is_Some_2 results k) as [res Hr]; [lia|].
    specialize (Hres k v s res Hv Hs Hr).
    assert (Hst : truthy s = true) by (eapply Forall_lookup_1 in Htruthy; eauto).
    destruct (length vs - k)%nat as [|d] eqn:Hd; [lia|].
    cbn [seq every_item]. unfold validateItem.
    rewrite Hinst. cbn [get_index]. rewrite Hcur, Hv by lia. cbn [from_option id].
    rewrite bind_Ok, Hits, bind_Ok. cbn [instanceof_Array get_index].
    rewrite Hs. cbn [from_option id]. rewrite !bind_Ok, Hadd, !bind_Ok.
    unfold js_or. rewrite Hst.
    destruct (write_back_array result res cur k Hinst) as (cur' & Hwb & Hl' & Hc');
      [lia|].
    assert (Hgo :
      (res0 ← validateSchema this v s options (makeChild ctx s (PIndex k));
       result0 ← write_back result (string_of_nat k) res0;
       mret (true, importErrors result0 res0))
      = Ok (true, importErrors (with_instance result (JArr cur')) res)).
    { by rewrite Hres, bind_Ok, Hwb, bind_Ok. }
    assert (Hd' : d = (length vs - S k)%nat) by lia.
    destruct (IH (S k) (importErrors (with_instance result (JArr cur')) res) cur')
      as (result' & Hloop & He); [lia | done | lia | |].
    { intros j Hj. rewrite Hc' by lia. apply Hcur. lia. }
    exists result'. split.
    + destruct s as [| |[]| | | |]; try discriminate Hst;
        rewrite Hgo, bind_Ok, Hd'; exact Hloop.
    + rewrite He. simpl. rewrite (drop_S _ _ _ Hr). simpl.
      by rewrite <- !app_assoc.
Qed.

(** C8. With [items] a list of positional sub-schemas and
    [additionalItems: false], an array longer than the list gets, after the
    errors of the elements the list covers, the single error
    "additionalItems not permitted" for the first element beyond the list, and
    nothing for the elements after it: the scan has stopped. *)
Theorem C8_additionalItems_stops_scan (schema options : jsval) (ctx : SchemaContext)
    (vs its : list jsval) (results : list ValidatorResult) :
  get schema "items" = Ok (JArr its) →
  get schema "additionalItems" = Ok (JBool false) →
  Forall (λ s, truthy s = true) its →
  (length its < length vs)%nat →
  length results = length its →
  (∀ i v s res, vs !! i = Some v → its !! i = Some s → results !! i = Some res →
     validateSchema this v s options (makeChild ctx s (PIndex i)) = Ok res) →
  ∃ result,
    validateItems this makeChild (JArr vs) schema options ctx = Ok (RResult result) ∧
    vr_errors result =
      (concat (vr_errors <$> results)
       ++ [mkError "additionalItems not permitted" (ctx_propertyPath ctx)])%list.
Proof.
  intros Hits Hadd Htruthy Hlen Hrlen Hres.
  unfold validateItems. cbn [instanceof_Array negb]. rewrite Hits, bind_Ok.
  cbn [is_undefined truthy orb negb elems].
  destruct (every_item_overflow schema options ctx vs its results (length its)
              Hits Hadd Htruthy Hlen Hrlen Hres 0%nat
              (new_ValidatorResult (JArr vs) schema ctx) vs)
    as (result' & Hloop & He); [lia | done | done | done |].
  rewrite Nat.sub_0_r in Hloop. rewrite Hloop, bind_Ok.
  exists result'. split; [done|]. rewrite He. reflexivity.
Qed.

(** ** [patternProperties] and [additionalProperties] *)

Lemma bind_mret {A} (c : exc A) : (c ≫= λ a, mret a) = c.
Proof. by destruct c. Qed.


Section PatternProperties.

Variables (schema pp options : jsval) (ctx : SchemaContext).
(** Whether [new RegExp(pattern).test(property)] holds, for the patterns of
    [pp], all of them well-formed. *)
Variable matches : string → string → bool.
Hypothesis RegExp_matches : ∀ pattern property,
  pattern ∈ own_keys pp →
  RegExp_test (JStr pattern) property = Ok (matches pattern property).



Lemma validateAgainstPattern_imports (property pattern : string)
    (result result' : ValidatorResult) :
  validateAgainstPattern this makeChild pp options ctx property result pattern
    = Ok result' →
  ∃ v res,
    validateSchema this v (prop pp pattern) options
      (makeChild ctx (prop pp pattern) (PName property)) = Ok res ∧
    vr_errors result' = (vr_errors result ++ vr_errors res)%list.
Proof.
  unfold validateAgainstPattern. intros H.
  apply bind_Ok_inv in H as (v & Hv & H).
  apply bind_Ok_inv in H as (sub & Hsub & H).
  apply bind_Ok_inv in H as (res & Hres & H).
  apply bind_Ok_inv in H as (result1 & Hwb & [= <-]).
  exists v, res. unfold prop. rewrite Hsub. split; [done|].
  unfold write_back in Hwb.
  apply bind_Ok_inv in Hwb as (cur & _ & Hwb).
  destruct (same_value _ _).
  - by injection Hwb as <-.
  - apply bind_Ok_inv in Hwb as (inst & _ & [= <-]). reflexivity.
Qed.

Lemma validateAgainstPatterns_import (property : string) (patterns : list string) :
  ∀ result result',
  foldM (validateAgainstPattern this makeChild pp options ctx property)
    result patterns = Ok result' →
  ∃ ress,
    Forall2 (λ pattern res, ∃ v,
        validateSchema this v (prop pp pattern) options
          (makeChild ctx (prop pp pattern) (PName property)) = Ok res)
      patterns ress ∧
    vr_errors result' = (vr_errors result ++ concat (vr_errors <$> ress))%list.
Proof.
  induction patterns as [|p patterns IH]; intros result result' H.
  - injection H as <-. exists []. split; [constructor|]. simpl. by rewrite app_nil_r.
  - cbn [foldM] in H. apply bind_Ok_inv in H as (result1 & H1 & H).
    apply validateAgainstPattern_imports in H1 as (v & res & Hres & He1).
    apply IH in H as (ress & Hall & He).
    exists (res :: ress). split; [constructor; eauto|].
    rewrite He, He1. simpl. by rewrite <- app_assoc.
Qed.

End PatternProperties.

(** ** [oneOf]: choosing the path *)

Lemma everyM_true {A} (f : A → exc bool) (l : list A) :
  everyM f l = Ok true ↔ Forall (λ x, f x = Ok true) l.
Proof.
  induction l as [|x l IH]; simpl.
  - split; [constructor | done].
  - rewrite Forall_cons, <- IH. destruct (f x) as [[]|e]; simpl.
    + split; [done | by intros [_ ?]].
    + split; [done | by intros [? _]].
    + split; [done | by intros [? _]].
Qed.

Lemma mapM_Forall2 {A B} (f : A → exc B) (l : list A) (ys : list B) :
  mapM f l = Ok ys ↔ Forall2 (λ x y, f x = Ok y) l ys.
Proof.
  revert ys. induction l as [|x l IH]; intros ys; simpl.
  - split; [intros [= <-]; constructor | by inversion 1].
  - split.
    + intros H. apply bind_Ok_inv in H as (y & Hy & H).
      apply bind_Ok_inv in H as (ys' & Hys & [= <-]).
      constructor; [done | by apply IH].
    + inversion 1 as [|? y ? ys' Hy Hys]; subst.
      apply IH in Hys. by rewrite Hy, bind_Ok, Hys.
Qed.

Lemma mapM_is_Ok {A B} (f : A → exc B) (l : list A) :
  (∀ x, x ∈ l → ∃ y, f x = Ok y) → ∃ ys, mapM f l = Ok ys.
Proof.
  induction l as [|x l IH]; intros H; simpl; [by eexists|].
  destruct (H x) as [y ->]; [by left|].
  destruct IH as [ys ->]; [intros; apply H; by right|]. by eexists.
Qed.

Lemma oneOf_message_Ok (branches : list jsval) :
  Forall (λ v, v ≠ JUndefined ∧ v ≠ JNull) branches →
  ∃ msg, oneOf_message branches = Ok msg.
Proof.
  intros Hnn. unfold oneOf_message.
  edestruct (mapM_is_Ok (λ '(i, v),
               schema_name v ("[subschema " ++ string_of_nat i ++ "]"))
             (imap pair branches)) as [names ->]; [|by eexists].
  intros [i v] Hin. apply elem_of_lookup_imap in Hin as (i' & v' & [= -> ->] & Hl).
  eapply Forall_lookup_1 in Hnn as [Hu Hn]; [|done].
  rewrite schema_name_preferred by done. by eexists.
Qed.

Lemma Object_keys_truthy (v : jsval) :
  truthy v = true → Object_keys v = Ok (own_keys v).
Proof. by destruct v. Qed.

Lemma areSubschemasMutuallyExclusive_true (d1 d2 : jsval) (key : string) :
  truthy d1 = true → truthy d2 = true →
  areSubschemasMutuallyExclusive d1 d2 key = Ok true ↔
  truthy (prop d2 key) = true ∧ strip_test (prop d1 key) (prop d2 key).
Proof.
  intros H1 H2. unfold areSubschemasMutuallyExclusive, strip_test, prop, cloneDeep.
  destruct (get_not_nullish d1 key) as [v1 ->]; [by destruct d1 | by destruct d1 |].
  destruct (get_not_nullish d2 key) as [v2 ->]; [by destruct d2 | by destruct d2 |].
  rewrite bind_Ok. destruct (truthy v2); cbn [negb];
    [|split; [done | by intros [? _]]].
  rewrite bind_Ok.
  destruct (removeNot v1) as [[b1 s1]|e1];
    [|split; [done | by intros (_ & ? & ? & ? & ? & ? & _)]].
  rewrite bind_Ok.
  destruct (removeNot v2) as [[b2 s2]|e2];
    [|split; [done | by intros (_ & ? & ? & ? & ? & _ & ? & _)]].
  rewrite bind_Ok. split.
  - intros H. split; [done|]. exists b1, s1, b2, s2.
    destruct b1, b2, (isEqual s1 s2); simpl in *; try discriminate; done.
  - intros (_ & b1' & s1' & b2' & s2' & [= <- <-] & [= <- <-] & Hb & ->).
    destruct b1, b2; simpl in *; done.
Qed.

Lemma hasMutuallyExclusiveDependencies_shape (branches : list jsval) :
  hasMutuallyExclusiveDependencies (JArr branches) = Ok true
  ↔ exclusive_shape (JArr branches).
Proof.
  unfold hasMutuallyExclusiveDependencies, exclusive_shape.
  change (get (JArr branches) "length") with (Ok (JNum (Z.of_nat (length branches)))).
  rewrite bind_Ok. cbn [same_value]. split.
  - destruct (Z.eqb_spec (Z.of_nat (length branches)) 2) as [Hlen|Hlen];
      cbn [negb]; [|discriminate].
    destruct branches as [|s0 [|s1 [|? ?]]]; try (simpl in Hlen; lia).
    cbn [get_index lookup list_lookup from_option id].
    rewrite bind_Ok. intros H.
    apply bind_Ok_inv in H as (d1 & Hd1 & H).
    destruct (truthy d1) eqn:Ht1; cbn [negb] in H; [|discriminate].
    rewrite bind_Ok in H.
    apply bind_Ok_inv in H as (d2 & Hd2 & H).
    destruct (truthy d2) eqn:Ht2; cbn [negb] in H; [|discriminate].
    rewrite Object_keys_truthy, bind_Ok in H by done.
    apply everyM_true in H.
    exists s0, s1, d1, d2. do 5 (split; [done|]).
    intros key Hkey. rewrite Forall_forall in H.
    by apply areSubschemasMutuallyExclusive_true, H.
  - intros (s0 & s1 & d1 & d2 & [= ->] & Hd1 & Ht1 & Hd2 & Ht2 & Hkeys).
    cbn [length Z.of_nat Pos.of_succ_nat Pos.succ Z.eqb Pos.eqb negb
         get_index lookup list_lookup from_option id].
    rewrite !bind_Ok, Hd1, bind_Ok, Ht1. cbn [negb].
    rewrite !bind_Ok, Hd2, bind_Ok, Ht2. cbn [negb].
    rewrite Object_keys_truthy, bind_Ok by done.
    apply everyM_true, Forall_forall. intros key Hkey.
    by apply areSubschemasMutuallyExclusive_true, Hkeys.
Qed.


(** How [validators.oneOf] proceeds once the detection has answered. *)
Lemma validateOneOf_paths (instance schema options : jsval) (ctx : SchemaContext)
    (branches : list jsval) (mutex : bool) :
  instance ≠ JUndefined →
  get schema "oneOf" = Ok (JArr branches) →
  hasMutuallyExclusiveDependencies (JArr branches) = Ok mutex →
  validateOneOf this instance schema options ctx
  = (genericErrorMessage ← oneOf_message branches;
     '(validationResult, validCount) ←
       (if mutex then oneOf_exclusive this instance options ctx branches
        else
          nodeps ← hasNoDependencies (JArr branches);
          if nodeps : bool then
            oneOf_noDependencies this instance schema options ctx branches
          else oneOf_generic this instance options ctx branches);
     mret (oneOf_decide genericErrorMessage validationResult validCount)).
Proof.
  intros Hi Ho Hm. unfold validateOneOf.
  destruct instance; try done; cbn [is_undefined];
    rewrite Ho, bind_Ok; cbn [instanceof_Array negb elems];
    by rewrite Hm.
Qed.

(** C3 as the specification states it fails: the two branches of
    [unshared_key_branches] share the single key [a], on which the litmus
    test holds, yet the detection answers no, because the first branch has
    a dependency key the second has not. *)
Lemma C3_counterexample :
  ¬ (hasMutuallyExclusiveDependencies unshared_key_branches = Ok true
     ↔ claimed_shape unshared_key_branches).
Proof.
  intros [_ H].
  assert (Hno : hasMutuallyExclusiveDependencies unshared_key_branches = Ok false)
    by reflexivity.
  rewrite H in Hno; [discriminate|].
  unfold claimed_shape, unshared_key_branches.
  do 4 eexists. split; [reflexivity|].
  split; [reflexivity|]. split; [reflexivity|].
  split; [reflexivity|]. split; [reflexivity|].
  intros key _ Hkey. apply list_elem_of_singleton in Hkey as ->.
  exists true, (JObj [("required", JArr [JStr "x"])]),
         false, (JObj [("required", JArr [JStr "x"])]).
  by repeat split.
Qed.

(** ** [oneOf]: the exclusive path *)

Lemma count_valid_cons (res : ValidatorResult) (results : list ValidatorResult) :
  count_valid (res :: results)
  = ((if valid res then 1 else 0) + count_valid results)%nat.
Proof.
  unfold count_valid. destruct (valid res) eqn:Hv.
  - by rewrite filter_cons_True.
  - rewrite filter_cons_False; [done | by rewrite Hv].
Qed.








(** ** [oneOf]: the no-dependencies path *)

Lemma oneOf_count_loop (results : list ValidatorResult) :
  ∀ (n : nat) (errs : list ValidationError),
    fold_left (λ '(validCount, errs) r,
        (if valid r then S validCount else validCount,
         (errs ++ vr_errors r)%list))
      results (n, errs)
    = ((n + count_valid results)%nat,
       (errs ++ concat (vr_errors <$> results))%list).
Proof.
  induction results as [|r results IH]; intros n errs.
  - simpl. by rewrite Nat.add_0_r, app_nil_r.
  - cbn [fold_left]. rewrite IH, count_valid_cons. cbn [fmap list_fmap concat].
    rewrite <- app_assoc. f_equal. destruct (valid r); lia.
Qed.

Lemma oneOf_noDependencies_spec (instance schema options : jsval)
    (ctx : SchemaContext) (branches : list jsval) (results : list ValidatorResult) :
  Forall2 (λ s res, validateSchema this instance s options ctx = Ok res)
    branches results →
  oneOf_noDependencies this instance schema options ctx branches
  = Ok (if (count_valid results =? 0)%nat then
          (RObject {| vr_instance := instance; vr_schema := schema;
                      vr_propertyPath := ctx_propertyPath ctx;
                      vr_errors := concat (vr_errors <$> results) |},
           length (concat (vr_errors <$> results)))
        else (RNull, count_valid results)).
Proof.
  intros Hres. apply mapM_Forall2 in Hres. unfold oneOf_noDependencies.
  rewrite Hres, bind_Ok, oneOf_count_loop. cbn [Nat.add app].
  by destruct (count_valid results =? 0)%nat.
Qed.

Lemma hasNoDependencies_branches (branches : list jsval) (b : bool) :
  hasNoDependencies (JArr branches) = Ok b →
  b = true → Forall (λ v, v ≠ JUndefined ∧ v ≠ JNull) branches.
Proof.
  unfold hasNoDependencies. cbn [elems]. intros H ->.
  apply bind_Ok_inv in H as (b' & H & [= Hb]). apply negb_true_iff in Hb as ->.
  induction branches as [|s branches IH]; [constructor|].
  cbn [someM] in H. apply bind_Ok_inv in H as (t & Ht & H).
  apply bind_Ok_inv in Ht as (d & Hd & [= <-]).
  apply get_Ok_not_nullish in Hd.
  destruct (typeof_object d); [done|]. constructor; [done | by apply IH].
Qed.

(** What [validators.oneOf] returns on the no-dependencies path, by the
    number of branches that validate: the aggregate of all the branches'
    errors when none does -- unless those errors are exactly one, in which
    case nothing is reported; nothing when exactly one does; the generic
    message when several do. *)
Lemma validateOneOf_noDependencies (instance schema options : jsval)
    (ctx : SchemaContext) (branches : list jsval) (results : list ValidatorResult) :
  instance ≠ JUndefined →
  get schema "oneOf" = Ok (JArr branches) →
  hasMutuallyExclusiveDependencies (JArr branches) = Ok false →
  hasNoDependencies (JArr branches) = Ok true →
  Forall2 (λ s res, validateSchema this instance s options ctx = Ok res)
    branches results →
  ∃ msg,
    oneOf_message branches = Ok msg ∧
    validateOneOf this instance schema options ctx
    = Ok (if (count_valid results =? 0)%nat then
            if (length (concat (vr_errors <$> results)) =? 1)%nat then RNull
            else RObject {| vr_instance := instance; vr_schema := schema;
                            vr_propertyPath := ctx_propertyPath ctx;
                            vr_errors := concat (vr_errors <$> results) |}
          else if (count_valid results =? 1)%nat then RNull
          else RString msg).
Proof.
  intros Hi Ho Hm Hn Hres.
  destruct (oneOf_message_Ok branches) as [msg Hmsg].
  { by eapply hasNoDependencies_branches. }
  exists msg. split; [done|].
  rewrite (validateOneOf_paths _ _ _ _ _ _ Hi Ho Hm), Hmsg, bind_Ok, Hn, bind_Ok.
  rewrite (oneOf_noDependencies_spec _ _ _ _ _ _ Hres).
  destruct (count_valid results =? 0)%nat eqn:Hc; rewrite bind_Ok; unfold oneOf_decide.
  - by destruct (length _ =? 1)%nat.
  - by destruct (count_valid results =? 1)%nat.
Qed.

(** C1, where the code departs from it. A [oneOf] with a single branch, no
    [dependencies] in it: when the branch fails with exactly one error, no
    branch validates, yet [validators.oneOf] returns [null] and reports
    nothing ([validCount = errors.length] makes the count 1). *)
Theorem C1_lone_failing_branch_is_accepted (instance schema options : jsval)
    (ctx : SchemaContext) (s : jsval) (res : ValidatorResult) (e : ValidationError) :
  instance ≠ JUndefined →
  get schema "oneOf" = Ok (JArr [s]) →
  hasNoDependencies (JArr [s]) = Ok true →
  validateSchema this instance s options ctx = Ok res →
  vr_errors res = [e] →
  count_valid [res] = 0%nat ∧
  validateOneOf this instance schema options ctx = Ok RNull.
Proof.
  intros Hi Ho Hn Hres He.
  assert (Hc : count_valid [res] = 0%nat).
  { rewrite count_valid_cons. unfold valid. by rewrite He. }
  split; [done|].
  destruct (validateOneOf_noDependencies instance schema options ctx [s] [res])
    as (msg & _ & ->); try done.
  { by constructor. }
  rewrite Hc. cbn [fmap list_fmap concat]. by rewrite He.
Qed.

End Claims.

(* ===================================================================== *)
(** * The detection writes to its scratch copies only *)
(* ===================================================================== *)

Module StoreFacts.
Import Store.

Lemma frame_refl (n0 : nat) (h : heap) : frame n0 h h.
Proof. by split. Qed.

Lemma frame_trans (n0 : nat) (h1 h2 h3 : heap) :
  frame n0 h1 h2 → frame n0 h2 h3 → frame n0 h1 h3.
Proof.
  intros [Hl1 H1] [Hl2 H2]. split; [lia|].
  intros l Hl. by rewrite H2, H1.
Qed.

Lemma preserves_ret {A} (n0 : nat) (P : A → Prop) (a : A) :
  P a → preserves n0 P (mret a).
Proof. intros HP h Hn Hc. simpl. split; [apply frame_refl | done]. Qed.

Lemma preserves_raise {A} (n0 : nat) (P : A → Prop) (e : exn) :
  preserves n0 P (raise e).
Proof. intros h Hn Hc. simpl. split; [apply frame_refl | done]. Qed.

Lemma preserves_stuck {A} (n0 : nat) (P : A → Prop) : preserves n0 P stuck.
Proof. by intros h Hn Hc. Qed.

Lemma preserves_bind {A B} (n0 : nat) (P : A → Prop) (Q : B → Prop)
    (c : M A) (f : A → M B) :
  preserves n0 P c → (∀ a, P a → preserves n0 Q (f a)) →
  preserves n0 Q (c ≫= f).
Proof.
  intros Hc Hf h Hn Hcl. specialize (Hc h Hn Hcl).
  unfold mbind, M_bind, bind. destruct (c h) as [a h1|e h1|]; [|done|done].
  destruct Hc as ([Hl1 H1] & Hcl1 & HP).
  specialize (Hf a HP h1). destruct (f a h1) as [b h2|e h2|]; [| |done].
  - destruct Hf as (Hf & ? & ?); [lia | done |].
    split; [|done]. by eapply frame_trans.
  - destruct Hf as (Hf & ?); [lia | done |].
    split; [|done]. by eapply frame_trans.
Qed.

Lemma preserves_weaken {A} (n0 : nat) (P Q : A → Prop) (c : M A) :
  (∀ a, P a → Q a) → preserves n0 P c → preserves n0 Q c.
Proof.
  intros HPQ Hc h Hn Hcl. specialize (Hc h Hn Hcl).
  destruct (c h); [|done|done]. destruct Hc as (? & ? & ?). auto.
Qed.

(** Reading never changes the store. *)
Lemma preserves_read (n0 : nat) (l : loc) :
  preserves n0 (λ o, (n0 ≤ l)%nat → obj_above n0 o) (read l).
Proof.
  intros h Hn Hcl. unfold read. destruct (h !! l) as [o|] eqn:Ho; [|done].
  split; [apply frame_refl|]. split; [done|]. intros Hl. by eapply Hcl.
Qed.

Lemma obj_get_above (n0 : nat) (o : obj) (k : string) :
  obj_above n0 o → val_above n0 (obj_get o k).
Proof.
  destruct o as [xs|ps]; simpl; intros Ho.
  - destruct (index_of_string k) as [i|].
    + destruct (xs !! i) as [v|] eqn:Hv; [|done].
      by eapply Forall_lookup_1 in Ho.
    + by destruct (k =? "length")%string.
  - induction ps as [|[k' v] ps IH]; [done|]. simpl.
    apply Forall_cons in Ho as [Hv Ho].
    destruct (k' =? k)%string; [done | by apply IH].
Qed.

Lemma preserves_get (n0 : nat) (v : val) (k : string) :
  preserves n0 (λ w, val_above n0 v → val_above n0 w) (get v k).
Proof.
  destruct v; simpl; try (by apply preserves_ret); try apply preserves_raise.
  - destruct (index_of_string k) as [i|].
    + apply preserves_ret. intros _. unfold char_at. by destruct (String.get i s).
    + destruct (k =? "length")%string; by apply preserves_ret.
  - eapply preserves_bind; [apply preserves_read|].
    intros o Ho. apply preserves_ret. intros Hl. by apply obj_get_above, Ho.
Qed.

Lemma preserves_Object_keys (n0 : nat) (v : val) :
  preserves n0 (λ _, True) (Object_keys v).
Proof.
  destruct v; simpl; try (by apply preserves_ret); try apply preserves_raise.
  eapply preserves_bind; [apply preserves_read|].
  intros o _. by apply preserves_ret.
Qed.

Lemma preserves_hasOwnProperty (n0 : nat) (v : val) (k : string) :
  preserves n0 (λ _, True) (hasOwnProperty v k).
Proof.
  destruct v; simpl; try (by apply preserves_ret); try apply preserves_raise.
  eapply preserves_bind; [apply preserves_read|].
  intros [xs|ps] _; [by apply preserves_ret|].
  destruct (bool_decide _); [apply preserves_raise | by apply preserves_ret].
Qed.

(** Writing an object that refers above [n0] at a place above [n0]. *)
Lemma preserves_write (n0 : nat) (l : loc) (o : obj) :
  (n0 ≤ l)%nat → obj_above n0 o → preserves n0 (λ _, True) (write l o).
Proof.
  intros Hl Ho h Hn Hcl. unfold write. case_bool_decide as Hlt; [|done].
  split; [|split; [|done]].
  - split; [by rewrite length_insert|].
    intros l' Hl'. apply list_lookup_insert_ne. lia.
  - intros l' o' Hl' Hlook. destruct (decide (l = l')) as [<-|Hne].
    + rewrite list_lookup_insert_eq in Hlook by done. by injection Hlook as <-.
    + rewrite list_lookup_insert_ne in Hlook by done. by eapply Hcl.
Qed.

Lemma preserves_alloc (n0 : nat) (o : obj) :
  obj_above n0 o → preserves n0 (λ l, (n0 ≤ l)%nat) (alloc o).
Proof.
  intros Ho h Hn Hcl. unfold alloc. split; [|split; [|done]].
  - split; [rewrite length_app; lia|].
    intros l Hl. apply lookup_app_l. lia.
  - intros l o' Hl Hlook. destruct (decide (l < length h)%nat) as [Hlt|Hge].
    + rewrite lookup_app_l in Hlook by done. by eapply Hcl.
    + rewrite lookup_app_r in Hlook by lia.
      destruct (l - length h)%nat; [|done]. by injection Hlook as <-.
Qed.

Lemma assoc_set_above (n0 : nat) (k : string) (w : val) (ps : list (string * val)) :
  val_above n0 w → Forall (λ kv, val_above n0 kv.2) ps →
  Forall (λ kv, val_above n0 kv.2) (assoc_set k w ps).
Proof.
  intros Hw. induction 1 as [|[k' v] ps Hv Hps IH]; simpl.
  - by constructor.
  - destruct (k' =? k)%string; constructor; done.
Qed.

Lemma assoc_delete_above (n0 : nat) (k : string) (ps : list (string * val)) :
  Forall (λ kv, val_above n0 kv.2) ps →
  Forall (λ kv, val_above n0 kv.2) (assoc_delete k ps).
Proof.
  induction 1 as [|[k' v] ps Hv Hps IH]; simpl; [constructor|].
  destruct (k' =? k)%string; [done | by constructor].
Qed.

Lemma obj_set_above (n0 : nat) (o : obj) (k : string) (w : val) :
  obj_above n0 o → val_above n0 w → obj_above n0 (obj_set o k w).
Proof.
  destruct o as [xs|ps]; simpl; intros Ho Hw.
  - destruct (index_of_string k) as [i|]; [|done].
    case_bool_decide; simpl.
    + by apply Forall_insert.
    + apply Forall_app. split; [done|]. apply Forall_app. split.
      * by apply Forall_replicate.
      * by constructor.
  - by apply assoc_set_above.
Qed.

Lemma obj_delete_above (n0 : nat) (o : obj) (k : string) :
  obj_above n0 o → obj_above n0 (obj_delete o k).
Proof.
  destruct o as [xs|ps]; simpl; [done|]. apply assoc_delete_above.
Qed.

Lemma preserves_set (n0 : nat) (v w : val) (k : string) :
  val_above n0 v → val_above n0 w → preserves n0 (λ _, True) (set v k w).
Proof.
  intros Hv Hw.
  destruct v; simpl; try (by apply preserves_ret); try apply preserves_raise.
  eapply preserves_bind; [apply preserves_read|].
  intros o Ho. apply preserves_write; [done|]. by apply obj_set_above; [apply Ho|].
Qed.

Lemma preserves_delete (n0 : nat) (v : val) (k : string) :
  val_above n0 v → preserves n0 (λ _, True) (delete v k).
Proof.
  intros Hv.
  destruct v; simpl; try (by apply preserves_ret); try apply preserves_raise.
  eapply preserves_bind; [apply preserves_read|].
  intros o Ho. apply preserves_write; [done|]. by apply obj_delete_above, Ho.
Qed.

Lemma preserves_forEach {A} (n0 : nat) (f : A → M unit) (l : list A) :
  (∀ x, preserves n0 (λ _, True) (f x)) →
  preserves n0 (λ _, True) (forEach f l).
Proof.
  intros Hf. induction l as [|x l IH]; simpl; [by apply preserves_ret|].
  eapply preserves_bind; [apply Hf | by intros].
Qed.

Lemma preserves_some {A} (n0 : nat) (f : A → M bool) (l : list A) :
  (∀ x, preserves n0 (λ _, True) (f x)) →
  preserves n0 (λ _, True) (some f l).
Proof.
  intros Hf. induction l as [|x l IH]; simpl; [by apply preserves_ret|].
  eapply preserves_bind; [apply Hf|].
  intros [] _; [by apply preserves_ret | done].
Qed.

Lemma preserves_every {A} (n0 : nat) (f : A → M bool) (l : list A) :
  (∀ x, preserves n0 (λ _, True) (f x)) →
  preserves n0 (λ _, True) (every f l).
Proof.
  intros Hf. induction l as [|x l IH]; simpl; [by apply preserves_ret|].
  eapply preserves_bind; [apply Hf|].
  intros [] _; [done | by apply preserves_ret].
Qed.

(** [removeNot] on a scratch value writes above [n0] only. *)
Lemma preserves_removeNot (n0 fuel : nat) (schema : val) :
  val_above n0 schema → preserves n0 (λ _, True) (removeNot fuel schema).
Proof.
  revert schema. induction fuel as [|fuel IH]; intros schema Hs.
  - apply preserves_stuck.
  - cbn [removeNot].
    destruct schema as [| | | | |l]; try (by apply preserves_ret);
      try apply preserves_raise.
    eapply preserves_bind; [apply preserves_hasOwnProperty|].
    intros [] _.
    + eapply preserves_bind; [apply preserves_get|]. intros n Hn.
      eapply preserves_bind; [apply preserves_Object_keys|]. intros keys _.
      eapply preserves_bind.
      { apply preserves_forEach. intros propName.
        eapply preserves_bind; [apply preserves_get|]. intros n' Hn'.
        eapply preserves_bind; [apply preserves_get|]. intros v Hv.
        apply preserves_set; [done|]. apply Hv, Hn', Hs. }
      intros _ _. eapply preserves_bind; [by apply preserves_delete|].
      intros _ _. by apply preserves_ret.
    + eapply preserves_bind; [apply preserves_Object_keys|]. intros keys _.
      apply preserves_some. intros propName.
      eapply preserves_bind; [apply preserves_get|]. intros v Hv.
      apply IH, Hv, Hs.
Qed.

Lemma preserves_foldM {A S} (n0 : nat) (I : S → Prop) (f : S → A → M S)
    (l : list A) (s : S) :
  (∀ s x, I s → preserves n0 I (f s x)) → I s →
  preserves n0 I (foldM f s l).
Proof.
  intros Hf. revert s. induction l as [|x l IH]; intros s Hs; simpl.
  - by apply preserves_ret.
  - eapply preserves_bind; [by apply Hf | done].
Qed.

Lemma stack_get_above (n0 : nat) (l l' : loc) (stack : list (loc * loc)) :
  Forall (λ p, (n0 ≤ p.2)%nat) stack → stack_get l stack = Some l' → (n0 ≤ l')%nat.
Proof.
  induction 1 as [|[l1 l2] stack Hp _ IH]; simpl; [done|].
  destruct (l1 =? l)%nat; [by intros [= <-] | done].
Qed.

(** [_.cloneDeep] returns a scratch value and writes above [n0] only,
    whatever it is given to copy. *)
Lemma preserves_baseClone (n0 fuel : nat) (value : val) (stack : list (loc * loc)) :
  Forall (λ p, (n0 ≤ p.2)%nat) stack →
  preserves n0 (λ r, val_above n0 r.1 ∧ Forall (λ p, (n0 ≤ p.2)%nat) r.2)
    (baseClone fuel value stack).
Proof.
  revert value stack. induction fuel as [|fuel IH]; intros value stack Hst.
  - apply preserves_stuck.
  - cbn [baseClone].
    destruct value as [| | | | |l]; try (by apply preserves_ret).
    destruct (stack_get l stack) as [l'|] eqn:Hget.
    + apply preserves_ret. split; [|done]. simpl. by eapply stack_get_above.
    + eapply preserves_bind; [apply preserves_read|]. intros o _.
      eapply preserves_bind.
      { apply (preserves_alloc n0). destruct o; simpl; [|done].
        by apply Forall_replicate. }
      intros l' Hl'.
      eapply preserves_bind.
      { apply (preserves_foldM n0 (λ st, Forall (λ p, (n0 ≤ p.2)%nat) st)).
        - intros st key Hst'.
          eapply preserves_bind; [by apply IH|]. intros [copy st'] [Hc Hst''].
          eapply preserves_bind; [by apply preserves_set|].
          intros _ _. by apply preserves_ret.
        - by constructor. }
      intros st' Hst'. by apply preserves_ret.
Qed.

Lemma preserves_cloneDeep (n0 fuel : nat) (value : val) :
  preserves n0 (val_above n0) (cloneDeep fuel value).
Proof.
  unfold cloneDeep. eapply preserves_bind; [by apply preserves_baseClone|].
  intros [copy st] [Hc _]. by apply preserves_ret.
Qed.

Lemma preserves_isEqual (n0 fuel : nat) (a b : val) :
  preserves n0 (λ _, True) (isEqual fuel a b).
Proof.
  intros h Hn Hcl. unfold isEqual. destruct (isEqual_in fuel h a b); [|done].
  split; [apply frame_refl | done].
Qed.

Lemma preserves_areSubschemasMutuallyExclusive (n0 fuel : nat)
    (dependency1 dependency2 : val) (subschemaName : string) :
  preserves n0 (λ _, True)
    (areSubschemasMutuallyExclusive fuel dependency1 dependency2 subschemaName).
Proof.
  unfold areSubschemasMutuallyExclusive.
  eapply preserves_bind; [apply preserves_get|]. intros d2 _.
  destruct (negb (truthy d2)); [by apply preserves_ret|].
  eapply preserves_bind; [apply preserves_get|]. intros d1 _.
  eapply preserves_bind; [apply preserves_cloneDeep|]. intros subschema1 H1.
  eapply preserves_bind; [apply preserves_cloneDeep|]. intros subschema2 H2.
  eapply preserves_bind; [by apply preserves_removeNot|]. intros has1 _.
  eapply preserves_bind; [by apply preserves_removeNot|]. intros has2 _.
  destruct (negb has1 && negb has2); [by apply preserves_ret|].
  eapply preserves_bind; [apply preserves_isEqual|]. intros same _.
  destruct (negb same); by apply preserves_ret.
Qed.

Lemma preserves_hasMutuallyExclusiveDependencies (n0 fuel : nat) (oneOf : val) :
  preserves n0 (λ _, True) (hasMutuallyExclusiveDependencies fuel oneOf).
Proof.
  unfold hasMutuallyExclusiveDependencies.
  eapply preserves_bind; [apply preserves_get|]. intros len _.
  destruct (negb (prim_eq len (VNum 2))); [by apply preserves_ret|].
  eapply preserves_bind; [apply preserves_get|]. intros s0 _.
  eapply preserves_bind; [apply preserves_get|]. intros dependency1 _.
  destruct (negb (truthy dependency1)); [by apply preserves_ret|].
  eapply preserves_bind; [apply preserves_get|]. intros s1 _.
  eapply preserves_bind; [apply preserves_get|]. intros dependency2 _.
  destruct (negb (truthy dependency2)); [by apply preserves_ret|].
  eapply preserves_bind; [apply preserves_Object_keys|]. intros keys _.
  apply preserves_every. intros key.
  apply preserves_areSubschemasMutuallyExclusive.
Qed.

Lemma frame_prefix (h h' : heap) :
  frame (length h) h h' → ∃ scratch, h' = (h ++ scratch)%list.
Proof.
  intros [Hlen Hlook]. exists (drop (length h) h').
  rewrite <- (take_drop (length h) h') at 1. f_equal.
  apply list_eq. intros l. destruct (decide (l < length h)%nat) as [Hl|Hl].
  - by rewrite lookup_take_lt, Hlook.
  - rewrite lookup_take_ge by lia. symmetry. apply lookup_ge_None. lia.
Qed.

(** Reading a value back gives the same tree in a store extended at its
    end. *)
Lemma snapshot_extended (fuel : nat) (h scratch : heap) (v : val) (t : jsval) :
  snapshot fuel h v = Some t → snapshot fuel (h ++ scratch) v = Some t.
Proof.
  revert v t. induction fuel as [|fuel IH]; intros v t; [done|].
  cbn [snapshot]. destruct v as [| | | | |l]; try done.
  destruct (h !! l) as [o|] eqn:Ho; [|done].
  rewrite (lookup_app_l_Some _ _ _ _ Ho). cbn [mbind option_bind].
  destruct o as [xs|ps].
  - set (go1 := fix go (l0 : list val) : option (list jsval) :=
          match l0 with
          | [] => Some []
          | x :: rest => t0 ← snapshot fuel h x; ts ← go rest; Some (t0 :: ts)
          end).
    set (go2 := fix go (l0 : list val) : option (list jsval) :=
          match l0 with
          | [] => Some []
          | x :: rest =>
              t0 ← snapshot fuel (h ++ scratch) x; ts ← go rest; Some (t0 :: ts)
          end).
    assert (Hgo : ∀ ts, go1 xs = Some ts → go2 xs = Some ts).
    { clear Ho. induction xs as [|x xs IHxs]; intros ts; [done|]. simpl.
      destruct (snapshot fuel h x) as [t0|] eqn:Hx; [|done].
      rewrite (IH _ _ Hx). simpl.
      destruct (go1 xs) as [ts'|]; [|done]. by rewrite (IHxs ts'). }
    destruct (go1 xs) as [ts|]; [|done]. by rewrite (Hgo ts).
  - set (go1 := fix go (l0 : list (string * val)) : option (list (string * jsval)) :=
          match l0 with
          | [] => Some []
          | (k, x) :: rest =>
              t0 ← snapshot fuel h x; ts ← go rest; Some ((k, t0) :: ts)
          end).
    set (go2 := fix go (l0 : list (string * val)) : option (list (string * jsval)) :=
          match l0 with
          | [] => Some []
          | (k, x) :: rest =>
              t0 ← snapshot fuel (h ++ scratch) x; ts ← go rest; Some ((k, t0) :: ts)
          end).
    assert (Hgo : ∀ ts, go1 ps = Some ts → go2 ps = Some ts).
    { clear Ho. induction ps as [|[k x] ps IHps]; intros ts; [done|]. simpl.
      destruct (snapshot fuel h x) as [t0|] eqn:Hx; [|done].
      rewrite (IH _ _ Hx). simpl.
      destruct (go1 ps) as [ts'|]; [|done]. by rewrite (IHps ts'). }
    destruct (go1 ps) as [ts|]; [|done]. by rewrite (Hgo ts).
Qed.

(** Whatever the store [h] and the value [oneOf] handed to the detection,
    and whether it returns or throws: the store it leaves is [h] followed
    by the scratch objects it allocated.  Every object of [h] is as it
    was -- [removeNot] wrote to the copies made by [_.cloneDeep] only --
    so every schema tree that could be read from [h] reads the same
    afterwards. *)
Lemma detection_frame (fuel : nat) (oneOf : val) (h : heap) :
  match hasMutuallyExclusiveDependencies fuel oneOf h with
  | Ret _ h' | Raise _ h' =>
      (∃ scratch, h' = (h ++ scratch)%list) ∧
      (∀ l o, h !! l = Some o → h' !! l = Some o) ∧
      (∀ n v t, snapshot n h v = Some t → snapshot n h' v = Some t)
  | Stuck => True
  end.
Proof.
  pose proof (preserves_hasMutuallyExclusiveDependencies (length h) fuel oneOf h) as H.
  assert (Hcl : scratch_closed (length h) h).
  { intros l o Hl Ho. apply lookup_lt_Some in Ho. lia. }
  specialize (H (le_n _) Hcl).
  assert (Hall : ∀ h', frame (length h) h h' →
            (∃ scratch, h' = (h ++ scratch)%list) ∧
            (∀ l o, h !! l = Some o → h' !! l = Some o) ∧
            (∀ n v t, snapshot n h v = Some t → snapshot n h' v = Some t)).
  { intros h' Hf. destruct (frame_prefix h h' Hf) as [scratch ->].
    split; [by eexists|]. split.
    - intros l o Ho. by apply lookup_app_l_Some.
    - intros n v t. apply snapshot_extended. }
  destruct (hasMutuallyExclusiveDependencies fuel oneOf h) as [b h'|e h'|];
    [| |done].
  - destruct H as (Hf & _). by apply Hall.
  - destruct H as (Hf & _). by apply Hall.
Qed.

End StoreFacts.

(* ===================================================================== *)
(** * The two embeddings of the detection agree *)
(* ===================================================================== *)

(** [Attribute.hasMutuallyExclusiveDependencies] works on values and
    returns the stripped schema where the source mutates its clone;
    [Store.hasMutuallyExclusiveDependencies] allocates and writes.  On a
    schema laid out in the store without sharing, with enough fuel, the
    second returns what the first returns and throws what it throws. *)
Module Refinement.
Import Store Repr.
Local Open Scope nat_scope.
Local Open Scope list_scope.

(** Induction on a value, with the property at hand for the elements of an
    array and the values of an object. *)
Lemma jsval_ind (P : jsval → Prop) :
  P JUndefined → P JNull → (∀ b, P (JBool b)) → (∀ n, P (JNum n)) →
  (∀ s, P (JStr s)) →
  (∀ xs, Forall P xs → P (JArr xs)) →
  (∀ ps, Forall (λ kv, P kv.2) ps → P (JObj ps)) →
  ∀ v, P v.
Proof.
  intros Hu Hn Hb Hz Hs Ha Ho.
  fix IH 1. intros [| | b | n | s | xs | ps].
  - exact Hu.
  - exact Hn.
  - apply Hb.
  - apply Hz.
  - apply Hs.
  - apply Ha. induction xs as [|x xs IHxs]; constructor; [apply IH | exact IHxs].
  - apply Ho. induction ps as [|[k x] ps IHps]; constructor; [apply IH | exact IHps].
Qed.

(** ** The two relations *)

Lemma all2_impl {A B} (R R' : A → B → Prop) (xs : list A) (ys : list B) :
  Forall (λ x, ∀ y, R x y → R' x y) xs → all2 R xs ys → all2 R' xs ys.
Proof.
  intros H. revert ys. induction H as [|x xs Hx _ IH]; intros [|y ys]; simpl; try done.
  intros [? ?]. split; auto.
Qed.

Lemma all2_length {A B} (R : A → B → Prop) (xs : list A) (ys : list B) :
  all2 R xs ys → length xs = length ys.
Proof.
  revert ys. induction xs as [|x xs IH]; intros [|y ys]; simpl; try done.
  intros [_ ?]. f_equal. auto.
Qed.

Lemma all2_lookup {A B} (R : A → B → Prop) (xs : list A) (ys : list B) (i : nat) x y :
  all2 R xs ys → xs !! i = Some x → ys !! i = Some y → R x y.
Proof.
  revert ys i. induction xs as [|x' xs IH]; intros [|y' ys] [|i]; simpl; try done.
  - by intros [? _] [= ->] [= ->].
  - intros [_ ?]. eauto.
Qed.

Lemma sep_list_impl {A B} (R R' : A → B → gset loc → Prop)
    (xs : list A) (ys : list B) (F : gset loc) :
  Forall (λ x, ∀ y F1, F1 ⊆ F → R x y F1 → R' x y F1) xs →
  sep_list R xs ys F → sep_list R' xs ys F.
Proof.
  revert ys F. induction xs as [|x xs IH]; intros [|y ys] F; simpl; try done.
  intros HF (F1 & F2 & Hx & Hxs & Hd & ->).
  apply Forall_cons in HF as [Hx' HF].
  exists F1, F2. split; [apply Hx'; [set_solver | done]|].
  split; [|done]. apply IH; [|done].
  eapply Forall_impl; [exact HF|]. simpl. intros x0 H0 y0 F0 Hsub. apply H0. set_solver.
Qed.

Lemma sep_list_all2 {A B} (R : A → B → gset loc → Prop)
    (xs : list A) (ys : list B) (F : gset loc) :
  sep_list R xs ys F → all2 (λ x y, ∃ F1, F1 ⊆ F ∧ R x y F1) xs ys.
Proof.
  revert ys F. induction xs as [|x xs IH]; intros [|y ys] F; simpl; try done.
  intros (F1 & F2 & Hx & Hxs & Hd & ->). split.
  - exists F1. split; [set_solver | done].
  - apply IH in Hxs. revert Hxs. apply all2_impl.
    apply Forall_forall. intros x0 _ y0 (F0 & ? & ?). exists F0. split; [set_solver | done].
Qed.

Lemma snap_mono (h : heap) (F F' : gset loc) (t : jsval) :
  F ⊆ F' → ∀ v, snap h F t v → snap h F' t v.
Proof.
  intros Hsub. induction t as [| | | | |ts IH|tps IH] using jsval_ind; intros v; simpl; try done.
  - intros (l & vs & -> & Hl & Hin & Hall). exists l, vs.
    split; [done|]. split; [done|]. split; [set_solver|].
    revert Hall. apply all2_impl. eapply Forall_impl; [exact IH|]. simpl. auto.
  - intros (l & ps & -> & Hl & Hin & Hall). exists l, ps.
    split; [done|]. split; [done|]. split; [set_solver|].
    revert Hall. apply all2_impl. eapply Forall_impl; [exact IH|]. simpl.
    intros kt H kv [? ?]. auto.
Qed.

Lemma snap_frame (h h' : heap) (F : gset loc) (t : jsval) :
  (∀ l, l ∈ F → h' !! l = h !! l) → ∀ v, snap h F t v → snap h' F t v.
Proof.
  intros Hf. induction t as [| | | | |ts IH|tps IH] using jsval_ind; intros v; simpl; try done.
  - intros (l & vs & -> & Hl & Hin & Hall). exists l, vs.
    split; [done|]. split; [by rewrite Hf|]. split; [done|].
    revert Hall. apply all2_impl. eapply Forall_impl; [exact IH|]. simpl. auto.
  - intros (l & ps & -> & Hl & Hin & Hall). exists l, ps.
    split; [done|]. split; [by rewrite Hf|]. split; [done|].
    revert Hall. apply all2_impl. eapply Forall_impl; [exact IH|]. simpl.
    intros kt H kv [? ?]. auto.
Qed.

Lemma repr_frame (h h' : heap) (t : jsval) :
  ∀ v F, (∀ l, l ∈ F → h' !! l = h !! l) → repr h t v F → repr h' t v F.
Proof.
  induction t as [| | | | |ts IH|tps IH] using jsval_ind; intros v F Hf; simpl; try done.
  - intros (l & vs & F' & -> & Hl & Hni & -> & Hsep). exists l, vs, F'.
    split; [done|]. split; [rewrite Hf; [done | set_solver]|].
    split; [done|]. split; [done|].
    revert Hsep. apply sep_list_impl. eapply Forall_impl; [exact IH|]. simpl.
    intros t Ht v F1 Hsub. apply Ht. intros l' Hl'. apply Hf. set_solver.
  - intros (l & ps & F' & -> & Hl & Hni & -> & Hsep). exists l, ps, F'.
    split; [done|]. split; [rewrite Hf; [done | set_solver]|].
    split; [done|]. split; [done|].
    revert Hsep. apply sep_list_impl. eapply Forall_impl; [exact IH|]. simpl.
    intros kt Ht kv F1 Hsub [? Hr]. split; [done|].
    revert Hr. apply Ht. intros l' Hl'. apply Hf. set_solver.
Qed.

Lemma repr_snap (h : heap) (t : jsval) :
  ∀ v F, repr h t v F → snap h F t v.
Proof.
  induction t as [| | | | |ts IH|tps IH] using jsval_ind; intros v F; simpl;
    try (by intros [? ?]).
  - intros (l & vs & F' & -> & Hl & Hni & -> & Hsep). exists l, vs.
    split; [done|]. split; [done|]. split; [set_solver|].
    apply sep_list_all2 in Hsep. revert Hsep. apply all2_impl.
    eapply Forall_impl; [exact IH|]. simpl.
    intros t Ht v (F1 & Hsub & Hr). eapply snap_mono; [|by apply Ht]. set_solver.
  - intros (l & ps & F' & -> & Hl & Hni & -> & Hsep). exists l, ps.
    split; [done|]. split; [done|]. split; [set_solver|].
    apply sep_list_all2 in Hsep. revert Hsep. apply all2_impl.
    eapply Forall_impl; [exact IH|]. simpl.
    intros kt Ht kv (F1 & Hsub & ? & Hr). split; [done|].
    eapply snap_mono; [|by apply Ht]. set_solver.
Qed.

(** ** The store monad, unfolded *)

Lemma run_bind {A B} (c : M A) (f : A → M B) (h : heap) :
  (c ≫= f) h = match c h with
                | Ret a h' => f a h'
                | Raise e h' => Raise e h'
                | Stuck => Stuck
                end.
Proof. reflexivity. Qed.

Lemma run_ret {A} (a : A) (h : heap) : (mret a : M A) h = Ret a h.
Proof. reflexivity. Qed.

(** ** A loaded value is laid out without sharing *)

Lemma load_repr (t : jsval) :
  ∀ h, ∃ v new F,
    load t h = Ret v (h ++ new) ∧ repr (h ++ new) t v F ∧
    within (length h) (length (h ++ new)) F.
Proof.
  induction t as [| | | | |ts IH|tps IH] using jsval_ind; intros h;
    try (eexists _, [], ∅; rewrite app_nil_r; split; [reflexivity|];
         split; [by split | by intros l Hl; apply not_elem_of_empty in Hl]).
  - cbn [load].
    assert (Hgo : ∀ h, ∃ vs new F,
      (fix go (l : list jsval) : M (list val) :=
         match l with
         | [] => mret []
         | x :: rest => v ← load x; vs ← go rest; mret (v :: vs)
         end) ts h = Ret vs (h ++ new) ∧
      sep_list (λ t v F, repr (h ++ new) t v F) ts vs F ∧
      within (length h) (length (h ++ new)) F).
    { clear h. induction IH as [|t ts Ht _ IHts]; intros h.
      - exists [], [], ∅. rewrite app_nil_r. split; [done|]. split; [done|].
        by intros l Hl; apply not_elem_of_empty in Hl.
      - destruct (Ht h) as (v & n1 & F1 & Hv & Hr1 & Hb1).
        destruct (IHts (h ++ n1)) as (vs & n2 & F2 & Hvs & Hr2 & Hb2).
        exists (v :: vs), (n1 ++ n2), (F1 ∪ F2).
        rewrite run_bind, Hv, run_bind, Hvs, run_ret, app_assoc.
        split; [done|]. split.
        + exists F1, F2. split; [|split; [done|split; [|done]]].
          * eapply repr_frame; [|exact Hr1]. intros l Hl.
            apply lookup_app_l. apply Hb1 in Hl. lia.
          * intros l Hl1 Hl2. apply Hb1 in Hl1. apply Hb2 in Hl2. lia.
        + intros l [Hl|Hl]%elem_of_union.
          * apply Hb1 in Hl. rewrite !length_app in *. lia.
          * apply Hb2 in Hl. rewrite !length_app in *. lia. }
    destruct (Hgo h) as (vs & new & F & Hvs & Hsep & Hb).
    exists (VRef (length (h ++ new))), (new ++ [OArr vs]), ({[length (h ++ new)]} ∪ F).
    rewrite run_bind, Hvs, run_bind. unfold alloc at 1. rewrite run_ret, app_assoc.
    split; [done|]. split.
    + exists (length (h ++ new)), vs, F. split; [done|].
      split; [by rewrite lookup_app_r, Nat.sub_diag|]. split.
      { intros Hl. apply Hb in Hl. lia. }
      split; [done|]. revert Hsep. apply sep_list_impl.
      apply Forall_forall. intros t _ v F1 Hsub. apply repr_frame.
      intros l Hl. apply lookup_app_l. apply Hsub, Hb in Hl. lia.
    + intros l [Hl|Hl]%elem_of_union.
      * apply elem_of_singleton in Hl as ->. rewrite !length_app. simpl. lia.
      * apply Hb in Hl. rewrite !length_app in *. simpl. lia.
  - cbn [load].
    assert (Hgo : ∀ h, ∃ ps new F,
      (fix go (l : list (string * jsval)) : M (list (string * val)) :=
         match l with
         | [] => mret []
         | (k, x) :: rest => v ← load x; vs ← go rest; mret ((k, v) :: vs)
         end) tps h = Ret ps (h ++ new) ∧
      sep_list (λ kt kv F, kt.1 = kv.1 ∧ repr (h ++ new) kt.2 kv.2 F) tps ps F ∧
      within (length h) (length (h ++ new)) F).
    { clear h. induction IH as [|[k t] tps Ht _ IHts]; intros h.
      - exists [], [], ∅. rewrite app_nil_r. split; [done|]. split; [done|].
        by intros l Hl; apply not_elem_of_empty in Hl.
      - destruct (Ht h) as (v & n1 & F1 & Hv & Hr1 & Hb1).
        destruct (IHts (h ++ n1)) as (vs & n2 & F2 & Hvs & Hr2 & Hb2).
        exists ((k, v) :: vs), (n1 ++ n2), (F1 ∪ F2).
        rewrite run_bind. simpl in Hv. rewrite Hv, run_bind, Hvs, run_ret, app_assoc.
        split; [done|]. split.
        + exists F1, F2. split; [|split; [done|split; [|done]]].
          * split; [done|]. simpl. eapply repr_frame; [|exact Hr1]. intros l Hl.
            apply lookup_app_l. apply Hb1 in Hl. lia.
          * intros l Hl1 Hl2. apply Hb1 in Hl1. apply Hb2 in Hl2. lia.
        + intros l [Hl|Hl]%elem_of_union.
          * apply Hb1 in Hl. rewrite !length_app in *. lia.
          * apply Hb2 in Hl. rewrite !length_app in *. lia. }
    destruct (Hgo h) as (ps & new & F & Hvs & Hsep & Hb).
    exists (VRef (length (h ++ new))), (new ++ [OObj ps]), ({[length (h ++ new)]} ∪ F).
    rewrite run_bind, Hvs, run_bind. unfold alloc at 1. rewrite run_ret, app_assoc.
    split; [done|]. split.
    + exists (length (h ++ new)), ps, F. split; [done|].
      split; [by rewrite lookup_app_r, Nat.sub_diag|]. split.
      { intros Hl. apply Hb in Hl. lia. }
      split; [done|]. revert Hsep. apply sep_list_impl.
      apply Forall_forall. intros kt _ kv F1 Hsub [? Hr]. split; [done|].
      revert Hr. apply repr_frame.
      intros l Hl. apply lookup_app_l. apply Hsub, Hb in Hl. lia.
    + intros l [Hl|Hl]%elem_of_union.
      * apply elem_of_singleton in Hl as ->. rewrite !length_app. simpl. lia.
      * apply Hb in Hl. rewrite !length_app in *. simpl. lia.
Qed.

(** ** Reading a value through the store *)

Lemma all2_assoc_get (h : heap) (F : gset loc) (k : string)
    (tps : list (string * jsval)) (ps : list (string * val)) :
  all2 (λ kt kv, kt.1 = kv.1 ∧ snap h F kt.2 kv.2) tps ps →
  match JS.assoc_get k tps with
  | Some t => ∃ w, assoc_get k ps = Some w ∧ snap h F t w
  | None => assoc_get k ps = None
  end.
Proof.
  revert ps. induction tps as [|[k' t] tps IH]; intros [|[k'' w] ps]; simpl; try done.
  intros [[<- Hs] Hall]. destruct (k' =? k)%string; [eauto | by apply IH].
Qed.

Lemma all2_fst (h : heap) (F : gset loc)
    (tps : list (string * jsval)) (ps : list (string * val)) :
  all2 (λ kt kv, kt.1 = kv.1 ∧ snap h F kt.2 kv.2) tps ps → fst <$> tps = fst <$> ps.
Proof.
  revert ps. induction tps as [|[k' t] tps IH]; intros [|[k'' w] ps]; simpl; try done.
  intros [[<- _] Hall]. f_equal. by apply IH.
Qed.

Lemma all2_lookup_default (h : heap) (F : gset loc) (ts : list jsval) (vs : list val) i :
  all2 (λ t v, snap h F t v) ts vs →
  snap h F (default JUndefined (ts !! i)) (default VUndefined (vs !! i)).
Proof.
  intros Hall. pose proof (all2_length _ _ _ Hall) as Hlen.
  destruct (ts !! i) as [t|] eqn:Ht.
  - destruct (lookup_lt_is_Some_2 vs i) as [v Hv].
    { apply lookup_lt_Some in Ht. lia. }
    rewrite Hv. simpl. by eapply all2_lookup.
  - rewrite (lookup_ge_None_2 vs i); [done|]. apply lookup_ge_None in Ht. lia.
Qed.

Lemma char_at_snap (h : heap) (F : gset loc) (s : string) (i : nat) :
  snap h F (JS.char_at s i) (char_at s i).
Proof. unfold JS.char_at, char_at. by destruct (String.get i s). Qed.

Lemma get_snap (h : heap) (F : gset loc) (t : jsval) (v : val) (k : string) :
  snap h F t v →
  match JS.get t k with
  | Ok t' => ∃ w, get v k h = Ret w h ∧ snap h F t' w
  | Throw e => get v k h = Raise e h
  end.
Proof.
  destruct t as [| | | | s |ts|tps]; simpl.
  - by intros ->.
  - by intros ->.
  - intros ->. by exists VUndefined.
  - intros ->. by exists VUndefined.
  - intros ->. simpl. destruct (index_of_string k) as [i|].
    + eexists. split; [reflexivity|]. apply char_at_snap.
    + destruct (k =? "length")%string; by eexists.
  - intros (l & vs & -> & Hl & Hin & Hall). simpl.
    rewrite run_bind. unfold read. rewrite Hl, run_ret. simpl.
    destruct (index_of_string k) as [i|].
    + eexists. split; [reflexivity|]. by apply all2_lookup_default.
    + rewrite (all2_length _ _ _ Hall).
      destruct (k =? "length")%string; by eexists.
  - intros (l & ps & -> & Hl & Hin & Hall). simpl.
    rewrite run_bind. unfold read. rewrite Hl, run_ret. simpl.
    eexists. split; [reflexivity|].
    pose proof (all2_assoc_get h F k tps ps Hall) as H.
    destruct (JS.assoc_get k tps) as [t|].
    + destruct H as (w & -> & Hs). done.
    + by rewrite H.
Qed.

Lemma Object_keys_snap (h : heap) (F : gset loc) (t : jsval) (v : val) :
  snap h F t v →
  match JS.Object_keys t with
  | Ok ks => Object_keys v h = Ret ks h
  | Throw e => Object_keys v h = Raise e h
  end.
Proof.
  destruct t as [| | | | s |ts|tps]; simpl; try (by intros ->).
  - intros (l & vs & -> & Hl & Hin & Hall). simpl.
    rewrite run_bind. unfold read. rewrite Hl, run_ret. simpl.
    by rewrite (all2_length _ _ _ Hall).
  - intros (l & ps & -> & Hl & Hin & Hall). simpl.
    rewrite run_bind. unfold read. rewrite Hl, run_ret. simpl.
    by rewrite (all2_fst _ _ _ _ Hall).
Qed.

Lemma truthy_snap (h : heap) (F : gset loc) (t : jsval) (v : val) :
  snap h F t v → truthy v = JS.truthy t.
Proof.
  destruct t; simpl; try (by intros ->).
  - by intros (l & vs & -> & _).
  - by intros (l & ps & -> & _).
Qed.

(** The part read lies in objects of its own. *)

Lemma sep_list_lookup {A B} (R : A → B → gset loc → Prop)
    (xs : list A) (ys : list B) (F : gset loc) (i : nat) (x : A) :
  sep_list R xs ys F → xs !! i = Some x →
  ∃ y F1, ys !! i = Some y ∧ R x y F1 ∧ F1 ⊆ F.
Proof.
  revert ys F i. induction xs as [|x' xs IH]; intros [|y' ys] F [|i]; simpl; try done.
  - intros (F1 & F2 & Hx & _ & _ & ->) [= ->]. exists y', F1. split; [done|]. split; [done|]. set_solver.
  - intros (F1 & F2 & _ & Hxs & _ & ->) Hi.
    destruct (IH ys F2 i Hxs Hi) as (y & F0 & ? & ? & ?).
    exists y, F0. split; [done|]. split; [done|]. set_solver.
Qed.

Lemma sep_list_length {A B} (R : A → B → gset loc → Prop)
    (xs : list A) (ys : list B) (F : gset loc) :
  sep_list R xs ys F → length xs = length ys.
Proof.
  revert ys F. induction xs as [|x xs IH]; intros [|y ys] F; simpl; try done.
  intros (F1 & F2 & _ & Hxs & _). f_equal. eauto.
Qed.

Lemma sep_assoc_get (h : heap) (F : gset loc) (k : string)
    (tps : list (string * jsval)) (ps : list (string * val)) :
  sep_list (λ kt kv F, kt.1 = kv.1 ∧ repr h kt.2 kv.2 F) tps ps F →
  match JS.assoc_get k tps with
  | Some t => ∃ w F1, assoc_get k ps = Some w ∧ repr h t w F1 ∧ F1 ⊆ F
  | None => assoc_get k ps = None
  end.
Proof.
  revert ps F. induction tps as [|[k' t] tps IH]; intros [|[k'' w] ps] F; simpl; try done.
  intros (F1 & F2 & [<- Hr] & Hsep & _ & ->). destruct (k' =? k)%string.
  - exists w, F1. split; [done|]. split; [done|]. set_solver.
  - specialize (IH ps F2 Hsep). destruct (JS.assoc_get k tps); [|done].
    destruct IH as (w' & F0 & ? & ? & ?). exists w', F0.
    split; [done|]. split; [done|]. set_solver.
Qed.

Lemma repr_prim (h : heap) (t : jsval) (v : val) :
  snap h ∅ t v → repr h t v ∅.
Proof.
  destruct t; simpl; try done.
  - intros (l & vs & _ & _ & Hin & _). set_solver.
  - intros (l & ps & _ & _ & Hin & _). set_solver.
Qed.

Lemma get_repr (h : heap) (F : gset loc) (t : jsval) (v : val) (k : string) :
  repr h t v F →
  match JS.get t k with
  | Ok t' => ∃ w F', get v k h = Ret w h ∧ repr h t' w F' ∧ F' ⊆ F
  | Throw e => get v k h = Raise e h
  end.
Proof.
  destruct t as [| | | | s |ts|tps]; simpl.
  - by intros [-> _].
  - by intros [-> _].
  - intros [-> _]. by exists VUndefined, ∅.
  - intros [-> _]. by exists VUndefined, ∅.
  - intros [-> ->]. simpl. destruct (index_of_string k) as [i|].
    + exists (char_at s i), ∅. split; [done|]. split; [|done].
      apply repr_prim, char_at_snap.
    + destruct (k =? "length")%string; by eexists _, ∅.
  - intros (l & vs & F' & -> & Hl & Hni & -> & Hsep). simpl.
    rewrite run_bind. unfold read. rewrite Hl, run_ret. simpl.
    pose proof (sep_list_length _ _ _ _ Hsep) as Hlen.
    destruct (index_of_string k) as [i|].
    + destruct (ts !! i) as [t|] eqn:Ht.
      * destruct (sep_list_lookup _ _ _ _ _ _ Hsep Ht) as (w & F1 & -> & Hr & Hsub).
        exists w, F1. split; [done|]. split; [done|]. set_solver.
      * rewrite (lookup_ge_None_2 vs i); [by exists VUndefined, ∅|].
        apply lookup_ge_None in Ht. lia.
    + rewrite Hlen. destruct (k =? "length")%string; by eexists _, ∅.
  - intros (l & ps & F' & -> & Hl & Hni & -> & Hsep). simpl.
    rewrite run_bind. unfold read. rewrite Hl, run_ret. simpl.
    pose proof (sep_assoc_get h F' k tps ps Hsep) as H.
    destruct (JS.assoc_get k tps) as [t|].
    + destruct H as (w & F1 & -> & Hr & Hsub). exists w, F1.
      split; [done|]. split; [done|]. set_solver.
    + rewrite H. by exists VUndefined, ∅.
Qed.

(** ** The parts of a value *)

Lemma wf_arr (xs : list jsval) : wf (JArr xs) ↔ Forall wf xs.
Proof.
  change (wf (JArr xs)) with (foldr (λ x P, wf x ∧ P) True xs).
  induction xs as [|x xs IH]; simpl.
  - split; [constructor | done].
  - rewrite Forall_cons. by rewrite IH.
Qed.

Lemma wf_obj (ps : list (string * jsval)) :
  wf (JObj ps) ↔ NoDup (fst <$> ps) ∧ Forall (λ kv, wf kv.2) ps.
Proof.
  change (wf (JObj ps))
    with (NoDup (fst <$> ps) ∧ foldr (λ kv P, wf kv.2 ∧ P) True ps).
  apply and_iff_compat_l.
  induction ps as [|x xs IH]; simpl.
  - split; [constructor | done].
  - rewrite Forall_cons. by rewrite IH.
Qed.

Lemma depth_arr (xs : list jsval) (n : nat) :
  (depth (JArr xs) < S n)%nat → Forall (λ x, (depth x < n)%nat) xs.
Proof.
  change (depth (JArr xs)) with (S (foldr (λ x m, depth x `max` m) 0%nat xs)).
  induction xs as [|x xs IH]; simpl; intros H; constructor; [lia|].
  apply IH. lia.
Qed.

Lemma depth_obj (ps : list (string * jsval)) (n : nat) :
  (depth (JObj ps) < S n)%nat → Forall (λ kv, (depth kv.2 < n)%nat) ps.
Proof.
  change (depth (JObj ps)) with (S (foldr (λ kv m, depth kv.2 `max` m) 0%nat ps)).
  induction ps as [|x xs IH]; simpl; intros H; constructor; [lia|].
  apply IH. lia.
Qed.

Lemma assoc_get_elem (k : string) (ps : list (string * jsval)) (t : jsval) :
  JS.assoc_get k ps = Some t → (k, t) ∈ ps.
Proof.
  induction ps as [|[k' t'] ps IH]; simpl; [done|].
  destruct (String.eqb_spec k' k) as [->|].
  - intros [= ->]. left.
  - intros H. right. auto.
Qed.

Lemma char_at_prim (P : jsval → Prop) (s : string) (i : nat) :
  P JUndefined → (∀ c, P (JStr c)) → P (JS.char_at s i).
Proof. intros. unfold JS.char_at. by destruct (String.get i s). Qed.

(** A part read off a value inherits a property that holds of all parts
    and of the primitives. *)
Lemma get_part (P : jsval → Prop) (t t' : jsval) (k : string) :
  P JUndefined → (∀ n, P (JNum n)) → (∀ c, P (JStr c)) →
  match t with
  | JArr xs => Forall P xs
  | JObj ps => Forall (λ kv, P kv.2) ps
  | _ => True
  end →
  JS.get t k = Ok t' → P t'.
Proof.
  intros Hu Hn Hs. destruct t as [| | | | s |xs|ps]; simpl; try done.
  - by intros _ [= <-].
  - by intros _ [= <-].
  - intros _. destruct (index_of_string k).
    + intros [= <-]. by apply char_at_prim.
    + destruct (k =? "length")%string; by intros [= <-].
  - intros Hall. destruct (index_of_string k) as [i|].
    + intros [= <-]. destruct (xs !! i) as [x|] eqn:Hx; [|done].
      simpl. eapply Forall_lookup_1; eauto.
    + destruct (k =? "length")%string; by intros [= <-].
  - intros Hall [= <-]. destruct (JS.assoc_get k ps) as [x|] eqn:Hx; [|done].
    apply assoc_get_elem in Hx. rewrite Forall_forall in Hall.
    by apply (Hall _ Hx).
Qed.

Lemma get_wf (t t' : jsval) (k : string) :
  wf t → JS.get t k = Ok t' → wf t'.
Proof.
  intros Hwf. apply (get_part wf); try done.
  destruct t; try done.
  - by apply wf_arr.
  - by apply wf_obj in Hwf as [_ ?].
Qed.

Lemma get_depth (t t' : jsval) (k : string) (n : nat) :
  (depth t < S n)%nat → JS.get t k = Ok t' → (depth t' < S n)%nat.
Proof.
  intros Hd. apply (get_part (λ t, depth t < S n)%nat); simpl; try lia.
  destruct t; try done.
  - apply depth_arr in Hd. eapply Forall_impl; [exact Hd|]. simpl. lia.
  - apply depth_obj in Hd. eapply Forall_impl; [exact Hd|]. simpl. lia.
Qed.

Lemma repr_within (h : heap) (t : jsval) :
  ∀ v F, repr h t v F → within 0 (length h) F.
Proof.
  induction t as [| | | | |ts IH|tps IH] using jsval_ind; intros v F; simpl;
    try (by intros [_ ->] l Hl; apply not_elem_of_empty in Hl).
  - intros (l & vs & F' & -> & Hl & Hni & -> & Hsep).
    assert (within 0 (length h) F') as HF'.
    { clear Hni Hl. revert vs F' Hsep.
      induction IH as [|t ts Ht _ IHts]; intros [|v vs] F'; simpl; try done.
      - intros -> l' Hl'. by apply not_elem_of_empty in Hl'.
      - intros (F1 & F2 & H1 & H2 & _ & ->) l' [Hl'|Hl']%elem_of_union.
        + eapply Ht; eauto.
        + eapply IHts; eauto. }
    intros l' [Hl'|Hl']%elem_of_union; [|by apply HF'].
    apply elem_of_singleton in Hl' as ->. apply lookup_lt_Some in Hl. lia.
  - intros (l & ps & F' & -> & Hl & Hni & -> & Hsep).
    assert (within 0 (length h) F') as HF'.
    { clear Hni Hl. revert ps F' Hsep.
      induction IH as [|t ts Ht _ IHts]; intros [|v vs] F'; simpl; try done.
      - intros -> l' Hl'. by apply not_elem_of_empty in Hl'.
      - intros (F1 & F2 & [_ H1] & H2 & _ & ->) l' [Hl'|Hl']%elem_of_union.
        + eapply Ht; eauto.
        + eapply IHts; eauto. }
    intros l' [Hl'|Hl']%elem_of_union; [|by apply HF'].
    apply elem_of_singleton in Hl' as ->. apply lookup_lt_Some in Hl. lia.
Qed.

(** ** Property lists and sets of objects *)

Lemma assoc_set_fresh (k : string) (w : val) (ps : list (string * val)) :
  assoc_get k ps = None → assoc_set k w ps = ps ++ [(k, w)].
Proof.
  induction ps as [|[k' w'] ps IH]; simpl; [done|].
  destruct (k' =? k)%string; [done|]. intros H. by rewrite IH.
Qed.

Lemma assoc_get_snoc_None (k k' : string) (w : val) (ps : list (string * val)) :
  assoc_get k ps = None → k' ≠ k → assoc_get k (ps ++ [(k', w)]) = None.
Proof.
  induction ps as [|[k0 w0] ps IH]; simpl.
  - intros _ Hne. by apply String.eqb_neq in Hne as ->.
  - destruct (k0 =? k)%string; [done|]. auto.
Qed.

Lemma assoc_get_NoDup (ps : list (string * val)) :
  NoDup (fst <$> ps) → Forall (λ kv, assoc_get kv.1 ps = Some kv.2) ps.
Proof.
  induction ps as [|[k w] ps IH]; simpl; [constructor|].
  intros [Hk Hnd]%NoDup_cons. constructor.
  - simpl. by rewrite String.eqb_refl.
  - apply IH in Hnd. rewrite Forall_forall in Hnd |- *.
    intros [k' w'] Hin. simpl.
    destruct (String.eqb_spec k k') as [->|]; [|by apply (Hnd _ Hin)].
    destruct Hk. apply list_elem_of_fmap. by exists (k', w').
Qed.

Lemma sep_list_fst (h : heap) (tps : list (string * jsval)) (ps : list (string * val))
    (F : gset loc) :
  sep_list (λ kt kv F, kt.1 = kv.1 ∧ repr h kt.2 kv.2 F) tps ps F →
  fst <$> tps = fst <$> ps.
Proof.
  revert ps F. induction tps as [|[k t] tps IH]; intros [|[k' w] ps] F; simpl; try done.
  intros (F1 & F2 & [<- _] & Hsep & _). f_equal. eauto.
Qed.

Lemma sep_arr_frame (h h' : heap) (ts : list jsval) (vs : list val) (F : gset loc) :
  (∀ l, l ∈ F → h' !! l = h !! l) →
  sep_list (λ t v F, repr h t v F) ts vs F → sep_list (λ t v F, repr h' t v F) ts vs F.
Proof.
  intros Hf. apply sep_list_impl, Forall_forall. intros t _ v F1 Hsub.
  apply repr_frame. intros l Hl. apply Hf. set_solver.
Qed.

Lemma sep_obj_frame (h h' : heap) (tps : list (string * jsval))
    (ps : list (string * val)) (F : gset loc) :
  (∀ l, l ∈ F → h' !! l = h !! l) →
  sep_list (λ kt kv F, kt.1 = kv.1 ∧ repr h kt.2 kv.2 F) tps ps F →
  sep_list (λ kt kv F, kt.1 = kv.1 ∧ repr h' kt.2 kv.2 F) tps ps F.
Proof.
  intros Hf. apply sep_list_impl, Forall_forall. intros t _ v F1 Hsub [? Hr].
  split; [done|]. revert Hr. apply repr_frame. intros l Hl. apply Hf. set_solver.
Qed.

Ltac in_union :=
  first [ assumption
        | apply elem_of_singleton; reflexivity
        | apply elem_of_union_l; in_union
        | apply elem_of_union_r; in_union ].

Lemma within_empty (lo hi : nat) : within lo hi ∅.
Proof. intros l Hl. by apply not_elem_of_empty in Hl. Qed.

Lemma within_union (lo hi : nat) (F1 F2 : gset loc) :
  within lo hi F1 → within lo hi F2 → within lo hi (F1 ∪ F2).
Proof. intros H1 H2 l [?|?]%elem_of_union; auto. Qed.

Lemma within_weaken (lo hi lo' hi' : nat) (F : gset loc) :
  within lo hi F → (lo' ≤ lo)%nat → (hi ≤ hi')%nat → within lo' hi' F.
Proof. intros H ? ? l Hl. apply H in Hl. lia. Qed.

(** ** [_.cloneDeep] copies the value into objects of its own *)

Lemma baseClone_unfold (fuel : nat) (l : loc) (stack : list (loc * loc)) :
  baseClone (S fuel) (VRef l) stack =
  match stack_get l stack with
  | Some l' => mret (VRef l', stack)
  | None =>
      o ← read l;
      l' ← alloc (match o with
                   | OArr xs => OArr (replicate (length xs) VUndefined)
                   | OObj _ => OObj []
                   end);
      stack ← foldM (clone_body fuel o l') ((l, l') :: stack) (obj_keys o);
      mret (VRef l', stack)
  end.
Proof. reflexivity. Qed.

Lemma clone_body_step (fuel : nat) (o o' : obj) (l' : loc) (t : jsval) (w : val)
    (key : string) (F : gset loc) (stack : list (loc * loc)) (h : heap) :
  clone_spec t → wf t → (depth t < fuel)%nat →
  obj_get o key = w → repr h t w F → within 0 l' F →
  h !! l' = Some o' →
  (∀ l, l ∈ F → stack_get l stack = None) →
  ∃ c stack' h1 F',
    clone_body fuel o l' stack key h = Ret stack' (<[l' := obj_set o' key c]> h1) ∧
    repr (<[l' := obj_set o' key c]> h1) t c F' ∧
    within (length h) (length h1) F' ∧
    frame (length h) h h1 ∧
    (∀ l, l ∉ F → stack_get l stack' = stack_get l stack).
Proof.
  intros Hspec Hwf Hd Hget Hr Hlow Hl' Hmiss.
  destruct (Hspec fuel w F stack h Hwf Hd Hr Hmiss)
    as (c & stack' & h1 & F' & Hrun & Hr' & Hin & [Hlen Hfr] & Hst).
  exists c, stack', h1, F'.
  pose proof (lookup_lt_Some _ _ _ Hl') as Hlt.
  split.
  - unfold clone_body. rewrite Hget, run_bind, Hrun. cbn [set].
    rewrite run_bind, run_bind. unfold read, loc in *. rewrite (Hfr l' Hlt), Hl'.
    unfold write. rewrite bool_decide_true by lia. by rewrite run_ret.
  - split; [|done]. eapply repr_frame; [|exact Hr'].
    intros l Hl. apply list_lookup_insert_ne. apply Hin in Hl. lia.
Qed.

Lemma clone_obj_loop (fuel : nat) (ps : list (string * val)) (l' : loc) :
  ∀ tps_todo, Forall (λ kt, clone_spec kt.2) tps_todo →
  ∀ ps_todo F_todo hc cps stack_c,
    sep_list (λ kt kv F, kt.1 = kv.1 ∧ repr hc kt.2 kv.2 F) tps_todo ps_todo F_todo →
    Forall (λ kt, wf kt.2) tps_todo →
    Forall (λ kt, (depth kt.2 < fuel)%nat) tps_todo →
    Forall (λ kv, assoc_get kv.1 ps = Some kv.2) ps_todo →
    NoDup (fst <$> ps_todo) →
    Forall (λ kv, assoc_get kv.1 cps = None) ps_todo →
    within 0 l' F_todo →
    hc !! l' = Some (OObj cps) →
    (∀ l, l ∈ F_todo → stack_get l stack_c = None) →
    ∃ stack' h' cps' Fc',
      foldM (clone_body fuel (OObj ps) l') stack_c (fst <$> ps_todo) hc = Ret stack' h' ∧
      h' !! l' = Some (OObj (cps ++ cps')) ∧
      sep_list (λ kt kv F, kt.1 = kv.1 ∧ repr h' kt.2 kv.2 F) tps_todo cps' Fc' ∧
      within (length hc) (length h') Fc' ∧
      (length hc ≤ length h')%nat ∧
      (∀ l, (l < length hc)%nat → l ≠ l' → h' !! l = hc !! l) ∧
      (∀ l, l ∉ F_todo → stack_get l stack' = stack_get l stack_c).
Proof.
  induction 1 as [|[k t] tps Ht _ IH];
    intros [|[k' w] ps_todo] F_todo hc cps stack_c
      Hsep Hwf Hd Hget Hnd Hfresh Hlow Hl' Hmiss; simpl in Hsep; try done.
  - subst F_todo. exists stack_c, hc, [], ∅. rewrite app_nil_r.
    split; [done|]. split; [done|]. split; [done|].
    split; [apply within_empty|]. split; [done|]. split; done.
  - destruct Hsep as (F1 & F2 & [Hk Hr] & Hsep & Hdisj & ->). simpl in Hk, Hr. subst k'.
    apply Forall_cons in Hwf as [Hwf1 Hwf]. apply Forall_cons in Hd as [Hd1 Hd].
    apply Forall_cons in Hget as [Hget1 Hget].
    apply Forall_cons in Hfresh as [Hfresh1 Hfresh].
    rewrite fmap_cons in Hnd. apply NoDup_cons in Hnd as [Hk Hnd].
    simpl in Hwf1, Hd1, Hget1, Hfresh1, Hk.
    pose proof (lookup_lt_Some _ _ _ Hl') as Hlt.
    destruct (clone_body_step fuel (OObj ps) (OObj cps) l' t w k F1 stack_c hc)
      as (c & stack1 & h1 & F1' & Hrun & Hr1 & Hin1 & [Hlen1 Hfr1] & Hst1); try done.
    { simpl. by rewrite Hget1. }
    { intros l Hl. apply Hlow. in_union. }
    { intros l Hl. apply Hmiss. in_union. }
    cbn [obj_set] in Hrun, Hr1. rewrite (assoc_set_fresh _ _ _ Hfresh1) in Hrun, Hr1.
    set (h1' := <[l' := OObj (cps ++ [(k, c)])]> h1) in *.
    assert (length h1' = length h1) as Hlen1' by apply length_insert.
    destruct (IH ps_todo F2 h1' (cps ++ [(k, c)]) stack1)
      as (stack' & h' & cps' & Fc' & Hloop & Hl2 & Hsep2 & Hin2 & Hlen2 & Hfr2 & Hst2);
      try done.
    { eapply sep_obj_frame; [|exact Hsep]. intros l Hl.
      assert (l < l')%nat by (apply (Hlow l); in_union).
      unfold h1'. rewrite list_lookup_insert_ne by lia. apply Hfr1. lia. }
    { rewrite Forall_forall in Hfresh |- *. intros [k2 w2] Hin. simpl.
      apply assoc_get_snoc_None; [by apply (Hfresh _ Hin)|].
      intros ->. apply Hk. apply list_elem_of_fmap. by exists (k2, w2). }
    { intros l Hl. apply Hlow. in_union. }
    { unfold h1'. apply list_lookup_insert_eq. lia. }
    { intros l Hl. rewrite Hst1; [apply Hmiss; in_union|].
      intros Hl1. by apply (Hdisj l). }
    exists stack', h', ((k, c) :: cps'), (F1' ∪ Fc').
    split.
    { rewrite fmap_cons. cbn [foldM]. rewrite run_bind. simpl fst. rewrite Hrun.
      exact Hloop. }
    split; [by rewrite <- app_assoc in Hl2|].
    split.
    { exists F1', Fc'. split; [|split; [done|split; [|done]]].
      - split; [done|]. simpl. eapply repr_frame; [|exact Hr1].
        intros l Hl. apply Hin1 in Hl. apply Hfr2; lia.
      - intros l Hl1 Hl2'. apply Hin1 in Hl1. apply Hin2 in Hl2'. lia. }
    split.
    { apply within_union; eapply within_weaken; eauto; lia. }
    split; [lia|]. split.
    { intros l Hl Hne. rewrite Hfr2 by lia. unfold h1'.
      rewrite list_lookup_insert_ne by done. by apply Hfr1. }
    intros l [Hn1 Hn2]%not_elem_of_union. rewrite Hst2 by done. by apply Hst1.
Qed.

Lemma clone_arr_loop (fuel : nat) (xs : list val) (l' : loc) :
  ∀ ts_todo, Forall clone_spec ts_todo →
  ∀ vs_todo F_todo pre hc cvs stack_c,
    xs = pre ++ vs_todo → length cvs = length pre →
    sep_list (λ t v F, repr hc t v F) ts_todo vs_todo F_todo →
    Forall wf ts_todo →
    Forall (λ t, (depth t < fuel)%nat) ts_todo →
    within 0 l' F_todo →
    hc !! l' = Some (OArr (cvs ++ replicate (length vs_todo) VUndefined)) →
    (∀ l, l ∈ F_todo → stack_get l stack_c = None) →
    ∃ stack' h' cvs' Fc',
      foldM (clone_body fuel (OArr xs) l') stack_c
        (string_of_nat <$> seq (length pre) (length vs_todo)) hc = Ret stack' h' ∧
      h' !! l' = Some (OArr (cvs ++ cvs')) ∧
      sep_list (λ t v F, repr h' t v F) ts_todo cvs' Fc' ∧
      within (length hc) (length h') Fc' ∧
      (length hc ≤ length h')%nat ∧
      (∀ l, (l < length hc)%nat → l ≠ l' → h' !! l = hc !! l) ∧
      (∀ l, l ∉ F_todo → stack_get l stack' = stack_get l stack_c).
Proof.
  induction 1 as [|t ts Ht _ IH];
    intros [|w vs_todo] F_todo pre hc cvs stack_c
      Hxs Hlen Hsep Hwf Hd Hlow Hl' Hmiss; simpl in Hsep; try done.
  - subst F_todo. exists stack_c, hc, [], ∅. simpl in Hl'.
    split; [done|]. split; [done|]. split; [done|].
    split; [apply within_empty|]. split; [done|]. split; done.
  - destruct Hsep as (F1 & F2 & Hr & Hsep & Hdisj & ->).
    apply Forall_cons in Hwf as [Hwf1 Hwf]. apply Forall_cons in Hd as [Hd1 Hd].
    pose proof (lookup_lt_Some _ _ _ Hl') as Hlt.
    destruct (clone_body_step fuel (OArr xs)
                (OArr (cvs ++ replicate (length (w :: vs_todo)) VUndefined))
                l' t w (string_of_nat (length pre)) F1 stack_c hc)
      as (c & stack1 & h1 & F1' & Hrun & Hr1 & Hin1 & [Hlen1 Hfr1] & Hst1); try done.
    { simpl. rewrite index_of_string_of_nat, Hxs.
      by rewrite list_lookup_middle. }
    { intros l Hl. apply Hlow. in_union. }
    { intros l Hl. apply Hmiss. in_union. }
    assert (obj_set (OArr (cvs ++ replicate (length (w :: vs_todo)) VUndefined))
              (string_of_nat (length pre)) c
            = OArr ((cvs ++ [c]) ++ replicate (length vs_todo) VUndefined)) as Hset.
    { cbn [obj_set]. rewrite index_of_string_of_nat.
      rewrite bool_decide_true by (rewrite length_app; simpl; lia).
      rewrite insert_app_r_alt by lia.
      replace (length pre - length cvs)%nat with 0%nat by lia.
      simpl. by rewrite <- app_assoc. }
    rewrite Hset in Hrun, Hr1. clear Hset.
    set (h1' := <[l' := OArr ((cvs ++ [c]) ++ replicate (length vs_todo) VUndefined)]> h1) in *.
    assert (length h1' = length h1) as Hlen1' by apply length_insert.
    destruct (IH vs_todo F2 (pre ++ [w]) h1' (cvs ++ [c]) stack1)
      as (stack' & h' & cvs' & Fc' & Hloop & Hl2 & Hsep2 & Hin2 & Hlen2 & Hfr2 & Hst2);
      try done.
    { by rewrite <- app_assoc. }
    { rewrite !length_app. simpl. lia. }
    { eapply sep_arr_frame; [|exact Hsep]. intros l Hl.
      assert (l < l')%nat by (apply (Hlow l); in_union).
      unfold h1'. rewrite list_lookup_insert_ne by lia. apply Hfr1. lia. }
    { intros l Hl. apply Hlow. in_union. }
    { unfold h1'. apply list_lookup_insert_eq. lia. }
    { intros l Hl. rewrite Hst1; [apply Hmiss; in_union|].
      intros Hl1. by apply (Hdisj l). }
    exists stack', h', (c :: cvs'), (F1' ∪ Fc').
    split.
    { cbn [length seq fmap list_fmap foldM]. rewrite run_bind, Hrun.
      rewrite length_app, Nat.add_1_r in Hloop. exact Hloop. }
    split; [by rewrite <- app_assoc in Hl2|].
    split.
    { exists F1', Fc'. split; [|split; [done|split; [|done]]].
      - eapply repr_frame; [|exact Hr1].
        intros l Hl. apply Hin1 in Hl. apply Hfr2; lia.
      - intros l Hl1 Hl2'. apply Hin1 in Hl1. apply Hin2 in Hl2'. lia. }
    split.
    { apply within_union; eapply within_weaken; eauto; lia. }
    split; [lia|]. split.
    { intros l Hl Hne. rewrite Hfr2 by lia. unfold h1'.
      rewrite list_lookup_insert_ne by done. by apply Hfr1. }
    intros l [Hn1 Hn2]%not_elem_of_union. rewrite Hst2 by done. by apply Hst1.
Qed.

Lemma stack_get_cons_ne (l l0 l' : loc) (stack : list (loc * loc)) :
  l ≠ l0 → stack_get l0 ((l, l') :: stack) = stack_get l0 stack.
Proof. intros Hne. simpl. by apply Nat.eqb_neq in Hne as ->. Qed.

Lemma baseClone_repr (t : jsval) : clone_spec t.
Proof.
  induction t as [| | | | |ts IH|tps IH] using jsval_ind;
    intros fuel v F stack h Hwf Hd Hr Hmiss; (destruct fuel as [|fuel]; [lia|]);
    try (destruct Hr as [-> ->]; eexists _, stack, h, ∅;
         split; [reflexivity|]; split; [by split|];
         split; [apply within_empty|]; split; [by split|done]).
  - pose proof (repr_within _ _ _ _ Hr) as Hlow.
    destruct Hr as (l & vs & F0 & -> & Hl & Hni & -> & Hsep).
    set (o0 := OArr (replicate (length vs) VUndefined)).
    destruct (clone_arr_loop fuel vs (length h) ts IH vs F0 [] (h ++ [o0]) []
                ((l, length h) :: stack))
      as (stack' & h' & cvs' & Fc' & Hloop & Hl2 & Hsep2 & Hin2 & Hlen2 & Hfr2 & Hst2);
      try done.
    { eapply sep_arr_frame; [|exact Hsep]. intros l0 Hl0.
      apply lookup_app_l. apply (Hlow l0). in_union. }
    { by apply wf_arr. }
    { by apply depth_arr. }
    { intros l0 Hl0. apply Hlow. in_union. }
    { by apply list_lookup_middle. }
    { intros l0 Hl0. rewrite stack_get_cons_ne by (by intros ->).
      apply Hmiss. in_union. }
    rewrite length_app in Hin2, Hlen2, Hfr2. simpl in Hin2, Hlen2, Hfr2, Hl2.
    exists (VRef (length h)), stack', h', ({[length h]} ∪ Fc').
    split.
    { rewrite baseClone_unfold, Hmiss by in_union.
      rewrite run_bind. unfold read. rewrite Hl.
      rewrite run_bind. unfold alloc. rewrite run_bind.
      change (obj_keys (OArr vs))
        with (string_of_nat <$> seq (length (@nil val)) (length vs)).
      unfold o0, loc in *. by rewrite Hloop. }
    split.
    { exists (length h), cvs', Fc'. split; [done|]. split; [done|].
      split; [|done]. intros Hc. apply Hin2 in Hc. lia. }
    split.
    { apply within_union; [|eapply within_weaken; eauto; lia].
      intros l0 ->%elem_of_singleton. lia. }
    split.
    { split; [lia|]. intros l0 Hl0. rewrite Hfr2 by lia. by apply lookup_app_l. }
    intros l0 [Hn1 Hn2]%not_elem_of_union. rewrite Hst2 by done.
    apply stack_get_cons_ne. intros ->. apply Hn1. by apply elem_of_singleton.
  - pose proof (repr_within _ _ _ _ Hr) as Hlow.
    destruct Hr as (l & ps & F0 & -> & Hl & Hni & -> & Hsep).
    apply wf_obj in Hwf as [Hnd Hwf].
    rewrite (sep_list_fst _ _ _ _ Hsep) in Hnd.
    destruct (clone_obj_loop fuel ps (length h) tps IH ps F0 (h ++ [OObj []]) []
                ((l, length h) :: stack))
      as (stack' & h' & cps' & Fc' & Hloop & Hl2 & Hsep2 & Hin2 & Hlen2 & Hfr2 & Hst2);
      try done.
    { eapply sep_obj_frame; [|exact Hsep]. intros l0 Hl0.
      apply lookup_app_l. apply (Hlow l0). in_union. }
    { by apply depth_obj. }
    { by apply assoc_get_NoDup. }
    { by apply Forall_forall. }
    { intros l0 Hl0. apply Hlow. in_union. }
    { by apply list_lookup_middle. }
    { intros l0 Hl0. rewrite stack_get_cons_ne by (by intros ->).
      apply Hmiss. in_union. }
    rewrite length_app in Hin2, Hlen2, Hfr2. simpl in Hin2, Hlen2, Hfr2, Hl2.
    exists (VRef (length h)), stack', h', ({[length h]} ∪ Fc').
    split.
    { rewrite baseClone_unfold, Hmiss by in_union.
      rewrite run_bind. unfold read. rewrite Hl.
      rewrite run_bind. unfold alloc. rewrite run_bind.
      change (obj_keys (OObj ps)) with (fst <$> ps).
      unfold loc in *. by rewrite Hloop. }
    split.
    { exists (length h), cps', Fc'. split; [done|]. split; [done|].
      split; [|done]. intros Hc. apply Hin2 in Hc. lia. }
    split.
    { apply within_union; [|eapply within_weaken; eauto; lia].
      intros l0 ->%elem_of_singleton. lia. }
    split.
    { split; [lia|]. intros l0 Hl0. rewrite Hfr2 by lia. by apply lookup_app_l. }
    intros l0 [Hn1 Hn2]%not_elem_of_union. rewrite Hst2 by done.
    apply stack_get_cons_ne. intros ->. apply Hn1. by apply elem_of_singleton.
Qed.

Lemma cloneDeep_repr (t : jsval) (fuel : nat) (v : val) (F : gset loc) (h : heap) :
  wf t → (depth t < fuel)%nat → repr h t v F →
  ∃ v' h' F',
    cloneDeep fuel v h = Ret v' h' ∧ repr h' t v' F' ∧
    within (length h) (length h') F' ∧ frame (length h) h h'.
Proof.
  intros Hwf Hd Hr.
  destruct (baseClone_repr t fuel v F [] h Hwf Hd Hr)
    as (v' & stack' & h' & F' & Hrun & Hr' & Hin & Hfr & _); [done|].
  exists v', h', F'. split; [|done].
  unfold cloneDeep. by rewrite run_bind, Hrun.
Qed.

(** ** [removeNot] on the store follows [removeNot] on values *)

Lemma removeNot_JArr (xs : list jsval) :
  Attribute.removeNot (JArr xs) =
  ('(found, xs') ← some_elems xs; mret (found, JArr xs')).
Proof. reflexivity. Qed.

Lemma removeNot_shadowed (ps : list (string * jsval)) :
  is_Some (JS.assoc_get "hasOwnProperty" ps) →
  Attribute.removeNot (JObj ps) = Throw TypeError.
Proof.
  intros Hs. cbn [Attribute.removeNot JS.hasOwnProperty].
  by rewrite bool_decide_true.
Qed.

Lemma removeNot_JObj (ps : list (string * jsval)) :
  JS.assoc_get "hasOwnProperty" ps = None →
  Attribute.removeNot (JObj ps) =
  match JS.assoc_get "not" ps with
  | Some n =>
      keys ← JS.Object_keys n;
      ps' ← JS.foldM hoist_tree ps keys;
      mret (true, JObj (JS.assoc_delete "not" ps'))
  | None => '(found, ps') ← some_props ps; mret (found, JObj ps')
  end.
Proof.
  intros Hs. cbn [Attribute.removeNot JS.hasOwnProperty JS.get]. rewrite Hs.
  rewrite bool_decide_false by (by intros [? ?]).
  destruct (JS.assoc_get "not" ps) as [n|].
  - by rewrite bool_decide_true by eauto.
  - by rewrite bool_decide_false by (by intros [? ?]).
Qed.

Lemma removeNot_unfold (fuel : nat) (l : loc) :
  removeNot (S fuel) (VRef l) =
  (has ← hasOwnProperty (VRef l) "not";
   if has : bool then
     n ← get (VRef l) "not";
     keys ← Object_keys n;
     forEach (hoist l) keys;;
     delete (VRef l) "not";;
     mret true
   else
     keys ← Object_keys (VRef l);
     some (descend fuel l) keys).
Proof. reflexivity. Qed.

Lemma all2_obj_mono (h : heap) (F F' : gset loc)
    (tps : list (string * jsval)) (ps : list (string * val)) :
  F ⊆ F' →
  all2 (λ kt kv, kt.1 = kv.1 ∧ snap h F kt.2 kv.2) tps ps →
  all2 (λ kt kv, kt.1 = kv.1 ∧ snap h F' kt.2 kv.2) tps ps.
Proof.
  intros Hsub. apply all2_impl, Forall_forall. intros kt _ kv [? Hs].
  split; [done|]. by eapply snap_mono.
Qed.

Lemma all2_obj_frame (h h' : heap) (F : gset loc)
    (tps : list (string * jsval)) (ps : list (string * val)) :
  (∀ l, l ∈ F → h' !! l = h !! l) →
  all2 (λ kt kv, kt.1 = kv.1 ∧ snap h F kt.2 kv.2) tps ps →
  all2 (λ kt kv, kt.1 = kv.1 ∧ snap h' F kt.2 kv.2) tps ps.
Proof.
  intros Hf. apply all2_impl, Forall_forall. intros kt _ kv [? Hs].
  split; [done|]. by eapply snap_frame.
Qed.

Lemma all2_arr_mono (h : heap) (F F' : gset loc) (ts : list jsval) (vs : list val) :
  F ⊆ F' →
  all2 (λ t v, snap h F t v) ts vs → all2 (λ t v, snap h F' t v) ts vs.
Proof.
  intros Hsub. apply all2_impl, Forall_forall. intros t _ v Hs. by eapply snap_mono.
Qed.

Lemma all2_arr_frame (h h' : heap) (F : gset loc) (ts : list jsval) (vs : list val) :
  (∀ l, l ∈ F → h' !! l = h !! l) →
  all2 (λ t v, snap h F t v) ts vs → all2 (λ t v, snap h' F t v) ts vs.
Proof.
  intros Hf. apply all2_impl, Forall_forall. intros t _ v Hs. by eapply snap_frame.
Qed.

Lemma sep_obj_snap (h : heap) (F : gset loc)
    (tps : list (string * jsval)) (ps : list (string * val)) :
  sep_list (λ kt kv F, kt.1 = kv.1 ∧ repr h kt.2 kv.2 F) tps ps F →
  all2 (λ kt kv, kt.1 = kv.1 ∧ snap h F kt.2 kv.2) tps ps.
Proof.
  intros Hsep. apply sep_list_all2 in Hsep. revert Hsep.
  apply all2_impl, Forall_forall. intros kt _ kv (F1 & Hsub & ? & Hr).
  split; [done|]. eapply snap_mono; [exact Hsub|]. by apply repr_snap.
Qed.

Lemma sep_arr_snap (h : heap) (F : gset loc) (ts : list jsval) (vs : list val) :
  sep_list (λ t v F, repr h t v F) ts vs F → all2 (λ t v, snap h F t v) ts vs.
Proof.
  intros Hsep. apply sep_list_all2 in Hsep. revert Hsep.
  apply all2_impl, Forall_forall. intros t _ v (F1 & Hsub & Hr).
  eapply snap_mono; [exact Hsub|]. by apply repr_snap.
Qed.

Lemma all2_assoc_set (h : heap) (F : gset loc) (k : string) (t : jsval) (w : val)
    (tps : list (string * jsval)) (ps : list (string * val)) :
  snap h F t w →
  all2 (λ kt kv, kt.1 = kv.1 ∧ snap h F kt.2 kv.2) tps ps →
  all2 (λ kt kv, kt.1 = kv.1 ∧ snap h F kt.2 kv.2)
    (JS.assoc_set k t tps) (assoc_set k w ps).
Proof.
  intros Hs. revert ps.
  induction tps as [|[k1 t1] tps IH]; intros [|[k2 w2] ps]; simpl; try done.
  intros [[<- Hs1] Hall]. destruct (k1 =? k)%string; simpl; auto.
Qed.

Lemma all2_assoc_delete (h : heap) (F : gset loc) (k : string)
    (tps : list (string * jsval)) (ps : list (string * val)) :
  all2 (λ kt kv, kt.1 = kv.1 ∧ snap h F kt.2 kv.2) tps ps →
  all2 (λ kt kv, kt.1 = kv.1 ∧ snap h F kt.2 kv.2)
    (JS.assoc_delete k tps) (assoc_delete k ps).
Proof.
  revert ps.
  induction tps as [|[k1 t1] tps IH]; intros [|[k2 w2] ps]; simpl; try done.
  intros [[<- Hs1] Hall]. destruct (k1 =? k)%string; simpl; auto.
Qed.

Lemma get_ref (l : loc) (o : obj) (k : string) (h : heap) :
  h !! l = Some o → get (VRef l) k h = Ret (obj_get o k) h.
Proof. intros Hl. simpl. rewrite run_bind. unfold read. by rewrite Hl. Qed.

Lemma set_ref (l : loc) (o : obj) (k : string) (w : val) (h : heap) :
  h !! l = Some o → set (VRef l) k w h = Ret () (<[l := obj_set o k w]> h).
Proof.
  intros Hl. simpl. rewrite run_bind. unfold read. rewrite Hl.
  unfold write. apply lookup_lt_Some in Hl. by rewrite bool_decide_true.
Qed.

Lemma delete_ref (l : loc) (o : obj) (k : string) (h : heap) :
  h !! l = Some o → delete (VRef l) k h = Ret () (<[l := obj_delete o k]> h).
Proof.
  intros Hl. simpl. rewrite run_bind. unfold read. rewrite Hl.
  unfold write. apply lookup_lt_Some in Hl. by rewrite bool_decide_true.
Qed.

Lemma Object_keys_ref (l : loc) (o : obj) (h : heap) :
  h !! l = Some o → Object_keys (VRef l) h = Ret (obj_keys o) h.
Proof. intros Hl. simpl. rewrite run_bind. unfold read. by rewrite Hl. Qed.

Lemma hoist_loop (l : loc) (F' : gset loc) :
  l ∉ F' →
  ∀ keys tps ps h,
    h !! l = Some (OObj ps) →
    all2 (λ kt kv, kt.1 = kv.1 ∧ snap h F' kt.2 kv.2) tps ps →
    match JS.foldM hoist_tree tps keys with
    | Ok tps' =>
        ∃ ps', forEach (hoist l) keys h = Ret () (<[l := OObj ps']> h) ∧
               all2 (λ kt kv, kt.1 = kv.1 ∧ snap (<[l := OObj ps']> h) F' kt.2 kv.2)
                 tps' ps'
    | Throw e => ∃ h', forEach (hoist l) keys h = Raise e h'
    end.
Proof.
  intros Hni. induction keys as [|k keys IH]; intros tps ps h Hl Hall.
  - simpl. exists ps. by rewrite list_insert_id.
  - cbn [JS.foldM forEach].
    set (n_t := default JUndefined (JS.assoc_get "not" tps)).
    assert (hoist_tree tps k = (v ← JS.get n_t k; mret (JS.assoc_set k v tps)))
      as -> by reflexivity.
    set (n_v := default VUndefined (assoc_get "not" ps)).
    assert (snap h F' n_t n_v) as Hn.
    { pose proof (all2_assoc_get h F' "not" tps ps Hall) as H. unfold n_t, n_v.
      destruct (JS.assoc_get "not" tps).
      - by destruct H as (w & -> & Hs).
      - by rewrite H. }
    pose proof (get_snap h F' n_t n_v k Hn) as Hg.
    assert (hoist l k = (n ← get (VRef l) "not"; v ← get n k; set (VRef l) k v))
      as -> by reflexivity.
    rewrite !run_bind, (get_ref l (OObj ps)) by done.
    change (obj_get (OObj ps) "not") with n_v. rewrite run_bind.
    destruct (JS.get n_t k) as [t'|e].
    + destruct Hg as (w & -> & Hsw). rewrite !bind_Ok.
      rewrite (set_ref l (OObj ps)) by done. cbn [obj_set].
      set (h1 := <[l := OObj (assoc_set k w ps)]> h).
      assert (∀ l0, l0 ∈ F' → h1 !! l0 = h !! l0) as Hfr.
      { intros l0 Hl0. apply list_lookup_insert_ne. by intros ->. }
      specialize (IH (JS.assoc_set k t' tps) (assoc_set k w ps) h1).
      destruct (JS.foldM hoist_tree (JS.assoc_set k t' tps) keys) as [tps'|e].
      * destruct IH as (ps' & Hrun & Hall').
        { apply list_lookup_insert_eq. by apply lookup_lt_Some in Hl. }
        { eapply all2_obj_frame; [exact Hfr|]. by apply all2_assoc_set. }
        exists ps'. unfold h1 in Hrun, Hall'.
        rewrite list_insert_insert_eq in Hrun, Hall'. done.
      * apply IH.
        { apply list_lookup_insert_eq. by apply lookup_lt_Some in Hl. }
        { eapply all2_obj_frame; [exact Hfr|]. by apply all2_assoc_set. }
    + rewrite Hg, !bind_Throw. eauto.
Qed.

Lemma some_props_cons (k : string) (v : jsval) (rest : list (string * jsval)) :
  some_props ((k, v) :: rest) =
  ('(found, v') ← Attribute.removeNot v;
   if found : bool then mret (true, (k, v') :: rest)
   else '(found, rest') ← some_props rest;
        mret (found, (k, v') :: rest')).
Proof. reflexivity. Qed.

Lemma some_elems_cons (v : jsval) (rest : list jsval) :
  some_elems (v :: rest) =
  ('(found, v') ← Attribute.removeNot v;
   if found : bool then mret (true, v' :: rest)
   else '(found, rest') ← some_elems rest;
        mret (found, v' :: rest')).
Proof. reflexivity. Qed.

Lemma descend_obj_loop (fuel : nat) (l : loc) (ps : list (string * val)) :
  ∀ tps_todo, Forall (λ kt, removeNot_spec kt.2) tps_todo →
  ∀ ps_todo F_todo hc,
    sep_list (λ kt kv F, kt.1 = kv.1 ∧ repr hc kt.2 kv.2 F) tps_todo ps_todo F_todo →
    Forall (λ kt, wf kt.2) tps_todo →
    Forall (λ kt, (depth kt.2 < fuel)%nat) tps_todo →
    Forall (λ kv, assoc_get kv.1 ps = Some kv.2) ps_todo →
    hc !! l = Some (OObj ps) → l ∉ F_todo →
    match some_props tps_todo with
    | Ok (found, tps') =>
        ∃ h', some (descend fuel l) (fst <$> ps_todo) hc = Ret found h' ∧
              all2 (λ kt kv, kt.1 = kv.1 ∧ snap h' F_todo kt.2 kv.2) tps' ps_todo ∧
              length h' = length hc ∧
              (∀ l0, l0 ∉ F_todo → h' !! l0 = hc !! l0)
    | Throw e => ∃ h', some (descend fuel l) (fst <$> ps_todo) hc = Raise e h'
    end.
Proof.
  induction 1 as [|[k t] tps Ht _ IH];
    intros [|[k' w] ps_todo] F_todo hc Hsep Hwf Hd Hget Hl Hni;
    simpl in Hsep; try done.
  - simpl. by exists hc.
  - destruct Hsep as (F1 & F2 & [Hk Hr] & Hsep & Hdisj & ->). simpl in Hk, Hr. subst k'.
    apply Forall_cons in Hwf as [Hwf1 Hwf]. apply Forall_cons in Hd as [Hd1 Hd].
    apply Forall_cons in Hget as [Hget1 Hget]. simpl in Hwf1, Hd1, Hget1.
    apply not_elem_of_union in Hni as [Hni1 Hni2].
    rewrite some_props_cons, fmap_cons. cbn [some fst].
    assert (descend fuel l k = (v ← get (VRef l) k; removeNot fuel v))
      as -> by reflexivity.
    rewrite !run_bind, (get_ref l (OObj ps)) by done.
    cbn [obj_get]. rewrite Hget1. cbn [default from_option id].
    pose proof (Ht fuel w F1 hc Hwf1 Hd1 Hr) as Hrn. cbn [snd] in Hrn.
    destruct (Attribute.removeNot t) as [[found t']|e].
    + destruct Hrn as (h1 & -> & Hs1 & Hlen1 & Hfr1). rewrite bind_Ok.
      assert (sep_list (λ kt kv F, kt.1 = kv.1 ∧ repr h1 kt.2 kv.2 F) tps ps_todo F2)
        as Hsep1.
      { eapply sep_obj_frame; [|exact Hsep]. intros l0 Hl0. apply Hfr1.
        intros Hl1. by apply (Hdisj l0). }
      destruct found.
      * exists h1. split; [done|]. split; [|split; [done|]].
        -- split.
           ++ split; [done|]. eapply snap_mono; [|exact Hs1]. apply union_subseteq_l.
           ++ eapply all2_obj_mono; [|by apply sep_obj_snap]. apply union_subseteq_r.
        -- intros l0 [Hn1 Hn2]%not_elem_of_union. by apply Hfr1.
      * specialize (IH ps_todo F2 h1 Hsep1 Hwf Hd Hget).
        rewrite Hfr1 in IH by done. specialize (IH Hl Hni2).
        destruct (some_props tps) as [[found2 tps']|e].
        -- destruct IH as (h2 & -> & Hall & Hlen2 & Hfr2). rewrite bind_Ok.
           exists h2. split; [done|]. split; [|split; [congruence|]].
           ++ split.
              ** split; [done|]. eapply snap_mono; [apply union_subseteq_l|].
                 eapply snap_frame; [|exact Hs1]. intros l0 Hl0. apply Hfr2.
                 intros Hl2. by apply (Hdisj l0).
              ** eapply all2_obj_mono; [|exact Hall]. apply union_subseteq_r.
           ++ intros l0 [Hn1 Hn2]%not_elem_of_union.
              rewrite Hfr2 by done. by apply Hfr1.
        -- destruct IH as (h2 & ->). rewrite bind_Throw. eauto.
    + destruct Hrn as (h1 & ->). rewrite bind_Throw. eauto.
Qed.

Lemma descend_arr_loop (fuel : nat) (l : loc) (xs : list val) :
  ∀ ts_todo, Forall removeNot_spec ts_todo →
  ∀ vs_todo F_todo pre hc,
    xs = pre ++ vs_todo →
    sep_list (λ t v F, repr hc t v F) ts_todo vs_todo F_todo →
    Forall wf ts_todo →
    Forall (λ t, (depth t < fuel)%nat) ts_todo →
    hc !! l = Some (OArr xs) → l ∉ F_todo →
    match some_elems ts_todo with
    | Ok (found, ts') =>
        ∃ h', some (descend fuel l)
                (string_of_nat <$> seq (length pre) (length vs_todo)) hc = Ret found h' ∧
              all2 (λ t v, snap h' F_todo t v) ts' vs_todo ∧
              length h' = length hc ∧
              (∀ l0, l0 ∉ F_todo → h' !! l0 = hc !! l0)
    | Throw e =>
        ∃ h', some (descend fuel l)
                (string_of_nat <$> seq (length pre) (length vs_todo)) hc = Raise e h'
    end.
Proof.
  induction 1 as [|t ts Ht _ IH];
    intros [|w vs_todo] F_todo pre hc Hxs Hsep Hwf Hd Hl Hni;
    simpl in Hsep; try done.
  - simpl. by exists hc.
  - destruct Hsep as (F1 & F2 & Hr & Hsep & Hdisj & ->).
    apply Forall_cons in Hwf as [Hwf1 Hwf]. apply Forall_cons in Hd as [Hd1 Hd].
    apply not_elem_of_union in Hni as [Hni1 Hni2].
    rewrite some_elems_cons. cbn [length seq fmap list_fmap some].
    assert (descend fuel l (string_of_nat (length pre))
            = (v ← get (VRef l) (string_of_nat (length pre)); removeNot fuel v))
      as -> by reflexivity.
    rewrite !run_bind, (get_ref l (OArr xs)) by done.
    cbn [obj_get]. rewrite index_of_string_of_nat, Hxs.
    rewrite list_lookup_middle by done. cbn [default from_option id].
    pose proof (Ht fuel w F1 hc Hwf1 Hd1 Hr) as Hrn.
    destruct (Attribute.removeNot t) as [[found t']|e].
    + destruct Hrn as (h1 & -> & Hs1 & Hlen1 & Hfr1). rewrite bind_Ok.
      assert (sep_list (λ t v F, repr h1 t v F) ts vs_todo F2) as Hsep1.
      { eapply sep_arr_frame; [|exact Hsep]. intros l0 Hl0. apply Hfr1.
        intros Hl1. by apply (Hdisj l0). }
      destruct found.
      * exists h1. split; [done|]. split; [|split; [done|]].
        -- split.
           ++ eapply snap_mono; [|exact Hs1]. apply union_subseteq_l.
           ++ eapply all2_arr_mono; [|by apply sep_arr_snap]. apply union_subseteq_r.
        -- intros l0 [Hn1 Hn2]%not_elem_of_union. by apply Hfr1.
      * specialize (IH vs_todo F2 (pre ++ [w]) h1).
        rewrite <- app_assoc in IH. specialize (IH Hxs Hsep1 Hwf Hd).
        rewrite Hfr1 in IH by done. specialize (IH Hl Hni2).
        rewrite length_app, Nat.add_1_r in IH.
        destruct (some_elems ts) as [[found2 ts']|e].
        -- destruct IH as (h2 & -> & Hall & Hlen2 & Hfr2). rewrite bind_Ok.
           exists h2. split; [done|]. split; [|split; [congruence|]].
           ++ split.
              ** eapply snap_mono; [apply union_subseteq_l|].
                 eapply snap_frame; [|exact Hs1]. intros l0 Hl0. apply Hfr2.
                 intros Hl2. by apply (Hdisj l0).
              ** eapply all2_arr_mono; [|exact Hall]. apply union_subseteq_r.
           ++ intros l0 [Hn1 Hn2]%not_elem_of_union.
              rewrite Hfr2 by done. by apply Hfr1.
        -- destruct IH as (h2 & ->). rewrite bind_Throw. eauto.
    + destruct Hrn as (h1 & ->). rewrite bind_Throw. eauto.
Qed.

Lemma hasOwnProperty_obj (l : loc) (ps : list (string * val)) (k : string) (h : heap) :
  h !! l = Some (OObj ps) → assoc_get "hasOwnProperty" ps = None →
  hasOwnProperty (VRef l) k h = Ret (bool_decide (is_Some (assoc_get k ps))) h.
Proof.
  intros Hl Hs. simpl. rewrite run_bind. unfold read. rewrite Hl, Hs.
  by rewrite bool_decide_false by (by intros [? ?]).
Qed.

Lemma hasOwnProperty_shadowed (l : loc) (ps : list (string * val)) (k : string)
    (h : heap) :
  h !! l = Some (OObj ps) → is_Some (assoc_get "hasOwnProperty" ps) →
  hasOwnProperty (VRef l) k h = Raise TypeError h.
Proof.
  intros Hl Hs. simpl. rewrite run_bind. unfold read. rewrite Hl.
  by rewrite bool_decide_true.
Qed.

Lemma hasOwnProperty_arr_not (l : loc) (xs : list val) (h : heap) :
  h !! l = Some (OArr xs) → hasOwnProperty (VRef l) "not" h = Ret false h.
Proof. intros Hl. simpl. rewrite run_bind. unfold read. by rewrite Hl. Qed.

Lemma removeNot_refines (t : jsval) : removeNot_spec t.
Proof.
  induction t as [| | | | |ts IH|tps IH] using jsval_ind;
    intros fuel v F h Hwf Hd Hr; (destruct fuel as [|fuel]; [lia|]);
    try (destruct Hr as [-> ->]; exists h; by simpl).
  - destruct Hr as (l & vs & F0 & -> & Hl & Hni & -> & Hsep).
    rewrite removeNot_JArr, removeNot_unfold, run_bind.
    rewrite (hasOwnProperty_arr_not l vs) by done.
    rewrite run_bind, (Object_keys_ref l (OArr vs)) by done.
    pose proof (descend_arr_loop fuel l vs ts IH vs F0 [] h eq_refl Hsep) as Hloop.
    apply wf_arr in Hwf. apply depth_arr in Hd.
    specialize (Hloop Hwf Hd Hl Hni).
    change (obj_keys (OArr vs)) with (string_of_nat <$> seq 0 (length vs)).
    change (length (@nil val)) with 0%nat in Hloop.
    destruct (some_elems ts) as [[found ts']|e].
    + destruct Hloop as (h' & -> & Hall & Hlen & Hfr). rewrite bind_Ok.
      exists h'. split; [done|]. split; [|split; [done|]].
      * exists l, vs. split; [done|]. split; [by rewrite Hfr|].
        split; [in_union|]. eapply all2_arr_mono; [|exact Hall]. apply union_subseteq_r.
      * intros l0 [Hn1 Hn2]%not_elem_of_union. by apply Hfr.
    + destruct Hloop as (h' & ->). rewrite bind_Throw. eauto.
  - destruct Hr as (l & ps & F0 & -> & Hl & Hni & -> & Hsep).
    pose proof (sep_obj_snap _ _ _ _ Hsep) as Hall.
    pose proof (all2_assoc_get h F0 "hasOwnProperty" tps ps Hall) as Hshadow.
    destruct (JS.assoc_get "hasOwnProperty" tps) as [s|] eqn:Hs.
    { destruct Hshadow as (w & Hw & _).
      rewrite removeNot_shadowed, removeNot_unfold, run_bind by eauto.
      rewrite (hasOwnProperty_shadowed l ps) by eauto. eauto. }
    rewrite removeNot_JObj, removeNot_unfold, run_bind by done.
    rewrite (hasOwnProperty_obj l ps) by done.
    pose proof (all2_assoc_get h F0 "not" tps ps Hall) as Hnot.
    destruct (JS.assoc_get "not" tps) as [n|].
    + destruct Hnot as (w & Hw & Hsw). rewrite Hw.
      rewrite bool_decide_true by eauto.
      rewrite run_bind, (get_ref l (OObj ps)) by done.
      cbn [obj_get]. rewrite Hw. cbn [default from_option id]. rewrite run_bind.
      pose proof (Object_keys_snap h F0 n w Hsw) as Hkeys.
      destruct (JS.Object_keys n) as [ks|e].
      * rewrite Hkeys, bind_Ok, run_bind.
        pose proof (hoist_loop l F0 Hni ks tps ps h Hl Hall) as Hloop.
        destruct (JS.foldM hoist_tree tps ks) as [tps'|e].
        -- destruct Hloop as (ps' & -> & Hall'). rewrite bind_Ok, run_bind.
           pose proof (lookup_lt_Some _ _ _ Hl) as Hlt.
           rewrite (delete_ref l (OObj ps')) by (by apply list_lookup_insert_eq).
           rewrite list_insert_insert_eq. cbn [obj_delete].
           eexists. split; [reflexivity|]. split; [|split].
           ++ exists l, (assoc_delete "not" ps'). split; [done|].
              split; [by apply list_lookup_insert_eq|]. split; [in_union|].
              eapply all2_obj_mono; [apply union_subseteq_r|].
              apply all2_assoc_delete.
              eapply all2_obj_frame; [|exact Hall'].
              intros l0 Hl0. rewrite !list_lookup_insert_ne; [done|..]; by intros ->.
           ++ apply length_insert.
           ++ intros l0 [Hn1 Hn2]%not_elem_of_union.
              apply list_lookup_insert_ne. intros ->. apply Hn1. in_union.
        -- destruct Hloop as (h' & ->). rewrite bind_Throw. eauto.
      * rewrite Hkeys, bind_Throw. eauto.
    + rewrite Hnot. rewrite bool_decide_false by (by intros [? ?]).
      rewrite run_bind, (Object_keys_ref l (OObj ps)) by done.
      apply wf_obj in Hwf as [Hnd Hwf]. apply depth_obj in Hd.
      rewrite (sep_list_fst _ _ _ _ Hsep) in Hnd.
      pose proof (descend_obj_loop fuel l ps tps IH ps F0 h Hsep Hwf Hd
                    (assoc_get_NoDup ps Hnd) Hl Hni) as Hloop.
      change (obj_keys (OObj ps)) with (fst <$> ps).
      destruct (some_props tps) as [[found tps']|e].
      * destruct Hloop as (h' & -> & Hall' & Hlen & Hfr). rewrite bind_Ok.
        exists h'. split; [done|]. split; [|split; [done|]].
        -- exists l, ps. split; [done|]. split; [by rewrite Hfr|].
           split; [in_union|]. eapply all2_obj_mono; [|exact Hall']. apply union_subseteq_r.
        -- intros l0 [Hn1 Hn2]%not_elem_of_union. by apply Hfr.
      * destruct Hloop as (h' & ->). rewrite bind_Throw. eauto.
Qed.

(** ** [removeNot] does not deepen a schema *)

Lemma depth_arr_intro (xs : list jsval) (n : nat) :
  Forall (λ x, (depth x < S n)%nat) xs → (depth (JArr xs) < S (S n))%nat.
Proof.
  change (depth (JArr xs)) with (S (foldr (λ x m, depth x `max` m) 0%nat xs)).
  induction 1 as [|x xs Hx _ IH]; simpl in *; lia.
Qed.

Lemma depth_obj_intro (ps : list (string * jsval)) (n : nat) :
  Forall (λ kv, (depth kv.2 < S n)%nat) ps → (depth (JObj ps) < S (S n))%nat.
Proof.
  change (depth (JObj ps)) with (S (foldr (λ kv m, depth kv.2 `max` m) 0%nat ps)).
  induction 1 as [|x xs Hx _ IH]; simpl in *; lia.
Qed.

Lemma depth_pos (t : jsval) (n : nat) :
  (depth t < S n)%nat → match t with JArr _ | JObj _ => ∃ m, n = S m | _ => True end.
Proof. destruct t; try done; simpl; intros H; exists (pred n); lia. Qed.

Lemma Forall_assoc_set (Q : jsval → Prop) (k : string) (v : jsval)
    (ps : list (string * jsval)) :
  Forall (λ kv, Q kv.2) ps → Q v → Forall (λ kv, Q kv.2) (JS.assoc_set k v ps).
Proof.
  intros Hall Hv. induction Hall as [|[k' v'] ps Hx Hps IH]; simpl.
  - by constructor.
  - destruct (k' =? k)%string; by constructor.
Qed.

Lemma Forall_assoc_delete (Q : jsval → Prop) (k : string) (ps : list (string * jsval)) :
  Forall (λ kv, Q kv.2) ps → Forall (λ kv, Q kv.2) (JS.assoc_delete k ps).
Proof.
  induction 1 as [|[k' v'] ps Hx _ IH]; simpl; [constructor|].
  destruct (k' =? k)%string; [done | by constructor].
Qed.

Lemma hoist_tree_depth (m : nat) (keys : list string) :
  ∀ ps ps', Forall (λ kv, (depth kv.2 < S m)%nat) ps →
    JS.foldM hoist_tree ps keys = Ok ps' →
    Forall (λ kv, (depth kv.2 < S m)%nat) ps'.
Proof.
  induction keys as [|k keys IH]; intros ps ps' Hall; cbn [JS.foldM].
  - by intros [= <-].
  - intros (ps1 & Hstep & Hrest)%bind_Ok_inv. apply (IH ps1 ps'); [|done].
    unfold hoist_tree in Hstep.
    apply bind_Ok_inv in Hstep as (v & Hget & [= <-]).
    apply (Forall_assoc_set (λ t, depth t < S m)%nat); [done|].
    apply (get_depth _ _ _ m) in Hget; [done|].
    destruct (JS.assoc_get "not" ps) as [n|] eqn:Hn; simpl; [|lia].
    apply assoc_get_elem in Hn. rewrite Forall_forall in Hall. by apply (Hall _ Hn).
Qed.

Lemma removeNot_depth (t : jsval) :
  ∀ n found t', (depth t < S n)%nat → Attribute.removeNot t = Ok (found, t') →
    (depth t' < S n)%nat.
Proof.
  induction t as [| | | | |ts IH|tps IH] using jsval_ind; intros d found t' Hd;
    try (by intros [= <- <-]); try done.
  - destruct (depth_pos _ _ Hd) as [m ->]. apply depth_arr in Hd.
    rewrite removeNot_JArr.
    intros ([found1 ts'] & Hloop & [= <- <-])%bind_Ok_inv.
    apply depth_arr_intro.
    revert found1 ts' Hloop.
    induction IH as [|t ts Ht _ IHts]; intros found1 ts'.
    + by intros [= <- <-].
    + apply Forall_cons in Hd as [Hd1 Hd]. rewrite some_elems_cons.
      intros ([found2 t2] & Hrn & Hrest)%bind_Ok_inv.
      apply (Ht m) in Hrn; [|done]. destruct found2.
      * injection Hrest as <- <-. by constructor.
      * apply bind_Ok_inv in Hrest as ([found3 ts3] & Hrec & [= <- <-]).
        constructor; [done|]. by eapply IHts.
  - destruct (depth_pos _ _ Hd) as [m ->]. apply depth_obj in Hd.
    destruct (JS.assoc_get "hasOwnProperty" tps) as [s|] eqn:Hs;
      [by rewrite removeNot_shadowed by eauto|].
    rewrite removeNot_JObj by done. clear Hs.
    destruct (JS.assoc_get "not" tps) as [n|].
    + intros (ks & _ & (ps' & Hfold & [= <- <-])%bind_Ok_inv)%bind_Ok_inv.
      apply depth_obj_intro, (Forall_assoc_delete (λ t, depth t < S m)%nat).
      by eapply hoist_tree_depth.
    + intros ([found1 ts'] & Hloop & [= <- <-])%bind_Ok_inv.
      apply depth_obj_intro.
      revert found1 ts' Hloop.
      induction IH as [|[k t] ts Ht _ IHts]; intros found1 ts'.
      * by intros [= <- <-].
      * apply Forall_cons in Hd as [Hd1 Hd]. rewrite some_props_cons.
        intros ([found2 t2] & Hrn & Hrest)%bind_Ok_inv.
        apply (Ht m) in Hrn; [|done]. destruct found2.
        -- injection Hrest as <- <-. by constructor.
        -- apply bind_Ok_inv in Hrest as ([found3 ts3] & Hrec & [= <- <-]).
           constructor; [done|]. by eapply IHts.
Qed.

(** ** [_.isEqual] on the store is [isEqual] on values *)

Lemma isEqual_JArr (xs ys : list jsval) :
  Attribute.isEqual (JArr xs) (JArr ys) = isEqual_elems xs ys.
Proof. reflexivity. Qed.

Lemma isEqual_JObj (ps qs : list (string * jsval)) :
  Attribute.isEqual (JObj ps) (JObj qs) =
  (length ps =? length qs)%nat && isEqual_props qs ps.
Proof. reflexivity. Qed.

Lemma isEqual_in_refs (fuel : nat) (h : heap) (la lb : loc) :
  isEqual_in (S fuel) h (VRef la) (VRef lb) =
  if (la =? lb)%nat then Some true
  else
    oa ← h !! la; ob ← h !! lb;
    match oa, ob with
    | OArr xs, OArr ys => eq_elems (isEqual_in fuel h) xs ys
    | OObj ps, OObj qs =>
        if negb (length ps =? length qs)%nat then Some false
        else eq_props (isEqual_in fuel h) qs ps
    | _, _ => Some false
    end.
Proof. reflexivity. Qed.

Lemma isEqual_refines (t1 : jsval) :
  ∀ t2 fuel v1 v2 h F1 F2,
    (depth t1 < fuel)%nat → snap h F1 t1 v1 → snap h F2 t2 v2 → F1 ## F2 →
    isEqual_in fuel h v1 v2 = Some (Attribute.isEqual t1 t2).
Proof.
  induction t1 as [| | | | |ts1 IH|tps1 IH] using jsval_ind;
    intros t2 fuel v1 v2 h F1 F2 Hd Hs1 Hs2 Hdisj; (destruct fuel as [|fuel]; [lia|]);
    try (simpl in Hs1; subst v1; destruct t2; simpl in Hs2;
         try (destruct Hs2 as (l2 & o2 & -> & _)); subst; reflexivity).
  - destruct Hs1 as (l1 & vs1 & -> & Hl1 & Hin1 & Hall1).
    destruct t2 as [| | | | |ts2|tps2]; simpl in Hs2; try (subst v2; reflexivity).
    + destruct Hs2 as (l2 & vs2 & -> & Hl2 & Hin2 & Hall2).
      rewrite isEqual_in_refs, isEqual_JArr.
      assert (l1 ≠ l2) as Hne by (intros ->; by apply (Hdisj l2)).
      apply Nat.eqb_neq in Hne as ->. rewrite Hl1, Hl2. cbn [mbind option_bind].
      apply depth_arr in Hd. clear Hl1 Hl2.
      revert ts2 vs1 vs2 Hall1 Hall2 Hd.
      induction IH as [|t1 ts1 Ht1 _ IHts];
        intros [|t2 ts2] [|w1 vs1] [|w2 vs2]; simpl; try done.
      intros [Hs1 Hall1] [Hs2 Hall2] [Hd1 Hd]%Forall_cons.
      rewrite (Ht1 t2 fuel w1 w2 h F1 F2) by done. cbn [mbind option_bind].
      destruct (Attribute.isEqual t1 t2); [|done]. by apply IHts.
    + destruct Hs2 as (l2 & ps2 & -> & Hl2 & Hin2 & Hall2).
      rewrite isEqual_in_refs.
      assert (l1 ≠ l2) as Hne by (intros ->; by apply (Hdisj l2)).
      apply Nat.eqb_neq in Hne as ->. by rewrite Hl1, Hl2.
  - destruct Hs1 as (l1 & ps1 & -> & Hl1 & Hin1 & Hall1).
    destruct t2 as [| | | | |ts2|tps2]; simpl in Hs2; try (subst v2; reflexivity).
    + destruct Hs2 as (l2 & vs2 & -> & Hl2 & Hin2 & Hall2).
      rewrite isEqual_in_refs.
      assert (l1 ≠ l2) as Hne by (intros ->; by apply (Hdisj l2)).
      apply Nat.eqb_neq in Hne as ->. by rewrite Hl1, Hl2.
    + destruct Hs2 as (l2 & ps2 & -> & Hl2 & Hin2 & Hall2).
      rewrite isEqual_in_refs, isEqual_JObj.
      assert (l1 ≠ l2) as Hne by (intros ->; by apply (Hdisj l2)).
      apply Nat.eqb_neq in Hne as ->. rewrite Hl1, Hl2. cbn [mbind option_bind].
      rewrite <- (all2_length _ _ _ Hall1), <- (all2_length _ _ _ Hall2).
      destruct (length tps1 =? length tps2)%nat; [|done]. cbn [negb andb].
      apply depth_obj in Hd. clear Hl1 Hl2.
      revert ps1 Hall1 Hd.
      induction IH as [|[k t1] tps1 Ht1 _ IHts]; intros [|[k' w1] ps1]; simpl; try done.
      intros [[<- Hs1] Hall1] [Hd1 Hd]%Forall_cons. simpl in Hs1, Hd1.
      pose proof (all2_assoc_get h F2 k tps2 ps2 Hall2) as Hk.
      destruct (JS.assoc_get k tps2) as [t2|].
      * destruct Hk as (w2 & -> & Hs2).
        rewrite (Ht1 t2 fuel w1 w2 h F1 F2) by done. cbn [mbind option_bind snd].
        destruct (Attribute.isEqual t1 t2); [|done]. by apply IHts.
      * by rewrite Hk.
Qed.

(** ** The detection *)

Lemma frame_lookup (h h' : heap) (F : gset loc) :
  frame (length h) h h' → within 0 (length h) F → ∀ l, l ∈ F → h' !! l = h !! l.
Proof. intros [_ Hfr] Hin l Hl. apply Hfr. apply Hin in Hl. lia. Qed.

Lemma frame_compose (h1 h2 h3 : heap) :
  frame (length h1) h1 h2 → frame (length h2) h2 h3 → frame (length h1) h1 h3.
Proof.
  intros [Hl1 Hf1] [Hl2 Hf2]. split; [lia|].
  intros l Hl. rewrite Hf2 by lia. by apply Hf1.
Qed.

Lemma areSubschemasMutuallyExclusive_refines (fuel : nat) (td1 td2 : jsval)
    (dep1 dep2 : val) (Fd1 Fd2 : gset loc) (k : string) (h : heap) :
  wf td1 → wf td2 → (depth td1 < fuel)%nat → (depth td2 < fuel)%nat →
  repr h td1 dep1 Fd1 → repr h td2 dep2 Fd2 →
  match Attribute.areSubschemasMutuallyExclusive td1 td2 k with
  | Ok b =>
      ∃ h', areSubschemasMutuallyExclusive fuel dep1 dep2 k h = Ret b h' ∧
            frame (length h) h h'
  | Throw e => ∃ h', areSubschemasMutuallyExclusive fuel dep1 dep2 k h = Raise e h'
  end.
Proof.
  intros Hwf1 Hwf2 Hd1 Hd2 Hr1 Hr2.
  destruct fuel as [|n]; [lia|].
  unfold Attribute.areSubschemasMutuallyExclusive, areSubschemasMutuallyExclusive,
    Attribute.cloneDeep.
  rewrite run_bind.
  pose proof (get_repr h Fd2 td2 dep2 k Hr2) as Hg2.
  destruct (JS.get td2 k) as [d2|e] eqn:Ed2; [|rewrite Hg2, bind_Throw; eauto].
  destruct Hg2 as (w2 & F2 & -> & Hrd2 & Hsub2). rewrite bind_Ok.
  rewrite (truthy_snap h F2 d2 w2) by (by apply repr_snap).
  destruct (JS.truthy d2); cbn [negb]; [|exists h; split; [done|by split]].
  rewrite run_bind.
  pose proof (get_repr h Fd1 td1 dep1 k Hr1) as Hg1.
  destruct (JS.get td1 k) as [d1|e] eqn:Ed1; [|rewrite Hg1, bind_Throw; eauto].
  destruct Hg1 as (w1 & F1 & -> & Hrd1 & Hsub1). rewrite bind_Ok.
  pose proof (get_wf _ _ _ Hwf1 Ed1) as Hwd1.
  pose proof (get_wf _ _ _ Hwf2 Ed2) as Hwd2.
  pose proof (get_depth _ _ _ _ Hd1 Ed1) as Hdd1.
  pose proof (get_depth _ _ _ _ Hd2 Ed2) as Hdd2.
  (* the two clones *)
  rewrite run_bind.
  destruct (cloneDeep_repr d1 (S n) w1 F1 h Hwd1 Hdd1 Hrd1)
    as (s1 & h1 & C1 & -> & Hc1 & Hin1 & Hfr1).
  rewrite run_bind.
  assert (repr h1 d2 w2 F2) as Hrd2'.
  { eapply repr_frame; [|exact Hrd2].
    eapply frame_lookup; [exact Hfr1|]. by eapply repr_within. }
  destruct (cloneDeep_repr d2 (S n) w2 F2 h1 Hwd2 Hdd2 Hrd2')
    as (s2 & h2 & C2 & -> & Hc2 & Hin2 & Hfr2).
  rewrite run_bind.
  assert (C1 ## C2) as Hdisj.
  { intros l Hl1 Hl2. apply Hin1 in Hl1. apply Hin2 in Hl2. lia. }
  assert (repr h2 d1 s1 C1) as Hc1'.
  { eapply repr_frame; [|exact Hc1].
    eapply frame_lookup; [exact Hfr2|]. by eapply repr_within. }
  (* the two strips *)
  pose proof (removeNot_refines d1 (S n) s1 C1 h2 Hwd1 Hdd1 Hc1') as Hrn1.
  pose proof (removeNot_depth d1 n) as Hdepth.
  destruct (Attribute.removeNot d1) as [[b1 t1]|e];
    [|destruct Hrn1 as (h3 & ->); rewrite bind_Throw; eauto].
  destruct Hrn1 as (h3 & -> & Hs1 & Hlen3 & Hfr3). rewrite bind_Ok, run_bind.
  specialize (Hdepth b1 t1 Hdd1 eq_refl).
  assert (repr h3 d2 s2 C2) as Hc2'.
  { eapply repr_frame; [|exact Hc2]. intros l Hl. apply Hfr3.
    intros Hl1. by apply (Hdisj l). }
  pose proof (removeNot_refines d2 (S n) s2 C2 h3 Hwd2 Hdd2 Hc2') as Hrn2.
  destruct (Attribute.removeNot d2) as [[b2 t2]|e];
    [|destruct Hrn2 as (h4 & ->); rewrite bind_Throw; eauto].
  destruct Hrn2 as (h4 & -> & Hs2 & Hlen4 & Hfr4). rewrite bind_Ok.
  assert (frame (length h) h h4) as Hframe.
  { destruct Hfr1 as [Hl1 Hf1], Hfr2 as [Hl2 Hf2]. split; [lia|].
    intros l Hl.
    rewrite Hfr4 by (intros Hc; apply Hin2 in Hc; lia).
    rewrite Hfr3 by (intros Hc; apply Hin1 in Hc; lia).
    rewrite Hf2 by lia. by apply Hf1. }
  destruct (negb b1 && negb b2); [by exists h4|].
  rewrite run_bind. unfold isEqual.
  rewrite (isEqual_refines t1 t2 (S n) s1 s2 h4 C1 C2); try done.
  - destruct (Attribute.isEqual t1 t2); by exists h4.
  - eapply snap_frame; [|exact Hs1]. intros l Hl. apply Hfr4.
    intros Hl2. by apply (Hdisj l).
Qed.

Lemma every_refines (fuel : nat) (td1 td2 : jsval) (dep1 dep2 : val)
    (Fd1 Fd2 : gset loc) (keys : list string) :
  wf td1 → wf td2 → (depth td1 < fuel)%nat → (depth td2 < fuel)%nat →
  ∀ h, repr h td1 dep1 Fd1 → repr h td2 dep2 Fd2 →
  match everyM (Attribute.areSubschemasMutuallyExclusive td1 td2) keys with
  | Ok b =>
      ∃ h', every (areSubschemasMutuallyExclusive fuel dep1 dep2) keys h = Ret b h' ∧
            frame (length h) h h'
  | Throw e =>
      ∃ h', every (areSubschemasMutuallyExclusive fuel dep1 dep2) keys h = Raise e h'
  end.
Proof.
  intros Hwf1 Hwf2 Hd1 Hd2.
  induction keys as [|k keys IH]; intros h Hr1 Hr2; cbn [everyM every].
  - exists h. split; [done|by split].
  - rewrite run_bind.
    pose proof (areSubschemasMutuallyExclusive_refines fuel td1 td2 dep1 dep2
                  Fd1 Fd2 k h Hwf1 Hwf2 Hd1 Hd2 Hr1 Hr2) as Hstep.
    destruct (Attribute.areSubschemasMutuallyExclusive td1 td2 k) as [b|e];
      [|destruct Hstep as (h1 & ->); rewrite bind_Throw; eauto].
    destruct Hstep as (h1 & -> & Hfr1). rewrite bind_Ok.
    destruct b; [|by exists h1].
    assert (repr h1 td1 dep1 Fd1) as Hr1'.
    { eapply repr_frame; [|exact Hr1].
      eapply frame_lookup; [exact Hfr1|]. by eapply repr_within. }
    assert (repr h1 td2 dep2 Fd2) as Hr2'.
    { eapply repr_frame; [|exact Hr2].
      eapply frame_lookup; [exact Hfr1|]. by eapply repr_within. }
    specialize (IH h1 Hr1' Hr2').
    destruct (everyM (Attribute.areSubschemasMutuallyExclusive td1 td2) keys) as [b|e].
    + destruct IH as (h2 & -> & Hfr2). exists h2. split; [done|].
      by eapply frame_compose.
    + destruct IH as (h2 & ->). eauto.
Qed.

Lemma get_index_get (t : jsval) (i : nat) :
  get_index t i = JS.get t (string_of_nat i).
Proof. destruct t; simpl; try done; by rewrite index_of_string_of_nat. Qed.

Lemma same_value_num (h : heap) (F : gset loc) (t : jsval) (w : val) (n : Z) :
  repr h t w F → same_value t (JNum n) = prim_eq w (VNum n).
Proof.
  destruct t; simpl; try (by intros [-> _]).
  - by intros (l & vs & F' & -> & _).
  - by intros (l & ps & F' & -> & _).
Qed.

Theorem detection_refines (oneOf : jsval) (fuel : nat) (v : val) (F : gset loc)
    (h : heap) :
  wf oneOf → (depth oneOf < fuel)%nat → repr h oneOf v F →
  match Attribute.hasMutuallyExclusiveDependencies oneOf with
  | Ok b =>
      ∃ h', hasMutuallyExclusiveDependencies fuel v h = Ret b h' ∧
            frame (length h) h h'
  | Throw e => ∃ h', hasMutuallyExclusiveDependencies fuel v h = Raise e h'
  end.
Proof.
  intros Hwf Hd Hr. destruct fuel as [|n]; [lia|].
  unfold Attribute.hasMutuallyExclusiveDependencies, hasMutuallyExclusiveDependencies.
  rewrite !get_index_get.
  change (string_of_nat 0) with "0". change (string_of_nat 1) with "1".
  assert (frame (length h) h h) as Hrefl by (by split).
  (* oneOf.length *)
  rewrite run_bind.
  pose proof (get_repr h F oneOf v "length" Hr) as Hg.
  destruct (JS.get oneOf "length") as [len|e]; [|rewrite Hg, bind_Throw; eauto].
  destruct Hg as (wlen & Flen & -> & Hrlen & _). rewrite bind_Ok.
  rewrite (same_value_num h Flen len wlen 2 Hrlen).
  destruct (prim_eq wlen (VNum 2)); cbn [negb]; [|by exists h].
  (* oneOf[0].dependencies *)
  rewrite run_bind.
  pose proof (get_repr h F oneOf v "0" Hr) as Hg.
  destruct (JS.get oneOf "0") as [s0|e] eqn:Es0; [|rewrite Hg, bind_Throw; eauto].
  destruct Hg as (w0 & F0 & -> & Hr0 & _). rewrite bind_Ok, run_bind.
  pose proof (get_repr h F0 s0 w0 "dependencies" Hr0) as Hg.
  destruct (JS.get s0 "dependencies") as [td1|e] eqn:Ed1;
    [|rewrite Hg, bind_Throw; eauto].
  destruct Hg as (dep1 & Fd1 & -> & Hrd1 & _). rewrite bind_Ok.
  rewrite (truthy_snap h Fd1 td1 dep1) by (by apply repr_snap).
  destruct (JS.truthy td1); cbn [negb]; [|by exists h].
  (* oneOf[1].dependencies *)
  rewrite run_bind.
  pose proof (get_repr h F oneOf v "1" Hr) as Hg.
  destruct (JS.get oneOf "1") as [s1|e] eqn:Es1; [|rewrite Hg, bind_Throw; eauto].
  destruct Hg as (w1 & F1 & -> & Hr1 & _). rewrite bind_Ok, run_bind.
  pose proof (get_repr h F1 s1 w1 "dependencies" Hr1) as Hg.
  destruct (JS.get s1 "dependencies") as [td2|e] eqn:Ed2;
    [|rewrite Hg, bind_Throw; eauto].
  destruct Hg as (dep2 & Fd2 & -> & Hrd2 & _). rewrite bind_Ok.
  rewrite (truthy_snap h Fd2 td2 dep2) by (by apply repr_snap).
  destruct (JS.truthy td2); cbn [negb]; [|by exists h].
  (* the keys of the first branch *)
  rewrite run_bind.
  pose proof (Object_keys_snap h Fd1 td1 dep1 (repr_snap _ _ _ _ Hrd1)) as Hk.
  destruct (JS.Object_keys td1) as [keys|e]; [|rewrite Hk, bind_Throw; eauto].
  rewrite Hk, bind_Ok.
  apply every_refines with (Fd1 := Fd1) (Fd2 := Fd2); try done.
  - eapply get_wf; [|exact Ed1]. by eapply get_wf.
  - eapply get_wf; [|exact Ed2]. by eapply get_wf.
  - eapply get_depth; [|exact Ed1]. by eapply get_depth.
  - eapply get_depth; [|exact Ed2]. by eapply get_depth.
Qed.

(** On a schema loaded into any store, the detection over the store
    returns what the detection on values returns, and throws when it
    throws. *)
Corollary detection_on_loaded (oneOf : jsval) (fuel : nat) (h : heap) :
  wf oneOf → (depth oneOf < fuel)%nat →
  ∃ v h1, load oneOf h = Ret v h1 ∧
    match Attribute.hasMutuallyExclusiveDependencies oneOf with
    | Ok b =>
        ∃ h', hasMutuallyExclusiveDependencies fuel v h1 = Ret b h' ∧
              frame (length h1) h1 h'
    | Throw e => ∃ h', hasMutuallyExclusiveDependencies fuel v h1 = Raise e h'
    end.
Proof.
  intros Hwf Hd.
  destruct (load_repr oneOf h) as (v & new & F & Hload & Hr & _).
  exists v, (h ++ new). split; [done|]. by eapply detection_refines.
Qed.

(** ** Reading a schema back *)

Lemma snapshot_ref (fuel : nat) (h : heap) (l : loc) :
  snapshot (S fuel) h (VRef l) =
  (o ← h !! l;
   match o with
   | OArr xs => ts ← snapshot_elems (snapshot fuel h) xs; Some (JArr ts)
   | OObj ps => ts ← snapshot_props (snapshot fuel h) ps; Some (JObj ts)
   end).
Proof. reflexivity. Qed.

(** [Store.snapshot] reads back the value a store value stands for. *)
Lemma snap_snapshot (t : jsval) :
  ∀ fuel h F v, depth t < fuel → snap h F t v → snapshot fuel h v = Some t.
Proof.
  induction t as [| | | | |ts IH|tps IH] using jsval_ind;
    intros fuel h F v Hd Hs; (destruct fuel as [|fuel]; [lia|]);
    try (simpl in Hs; subst v; reflexivity).
  - destruct Hs as (l & vs & -> & Hl & _ & Hall).
    rewrite snapshot_ref, Hl. cbn [mbind option_bind].
    apply depth_arr in Hd.
    assert (snapshot_elems (snapshot fuel h) vs = Some ts) as ->; [|done].
    clear Hl. revert vs Hall Hd.
    induction IH as [|t ts Ht _ IHts]; intros [|w vs]; simpl; try done.
    intros [Hs Hall] [Hd1 Hd]%Forall_cons.
    rewrite (Ht fuel h F w Hd1 Hs). cbn [mbind option_bind].
    by rewrite (IHts vs Hall Hd).
  - destruct Hs as (l & ps & -> & Hl & _ & Hall).
    rewrite snapshot_ref, Hl. cbn [mbind option_bind].
    apply depth_obj in Hd.
    assert (snapshot_props (snapshot fuel h) ps = Some tps) as ->; [|done].
    clear Hl. revert ps Hall Hd.
    induction IH as [|[k t] tps Ht _ IHts]; intros [|[k' w] ps]; simpl; try done.
    intros [[<- Hs] Hall] [Hd1 Hd]%Forall_cons. simpl in Hs, Hd1.
    rewrite (Ht fuel h F w Hd1 Hs). cbn [mbind option_bind].
    by rewrite (IHts ps Hall Hd).
Qed.

End Refinement.

(* ===================================================================== *)
(** * The schema is unchanged by the detection *)
(* ===================================================================== *)

Module Detection.
Import Store Repr.
Local Open Scope nat_scope.
Local Open Scope list_scope.

(** C9. The detection writes to the scratch copies made by [_.cloneDeep]
    only.
    - Whatever the store [h] and the value handed to the detection, and
      whether it returns or throws: the store it leaves is [h] followed by
      the scratch objects it allocated, every object of [h] is as it was,
      and every schema tree that could be read from [h] reads the same
      afterwards.
    - It does run to its end on a schema: for a well-formed [oneOf] value
      less than [fuel] deep, laid out in any store, it returns what
      [hasMutuallyExclusiveDependencies] returns on values (or throws what
      it throws), and the schema read back from the store afterwards is
      the schema that was laid out. *)
Theorem C9_detection_mutates_scratch_only (fuel : nat) :
  (∀ (oneOf : val) (h : heap),
     match hasMutuallyExclusiveDependencies fuel oneOf h with
     | Ret _ h' | Raise _ h' =>
         (∃ scratch, h' = h ++ scratch) ∧
         (∀ l o, h !! l = Some o → h' !! l = Some o) ∧
         (∀ n v t, snapshot n h v = Some t → snapshot n h' v = Some t)
     | Stuck => True
     end) ∧
  (∀ (oneOf : jsval) (h0 : heap),
     wf oneOf → depth oneOf < fuel →
     ∃ v h h',
       load oneOf h0 = Ret v h ∧
       snapshot fuel h v = Some oneOf ∧
       match Attribute.hasMutuallyExclusiveDependencies oneOf with
       | Ok b => hasMutuallyExclusiveDependencies fuel v h = Ret b h'
       | Throw e => hasMutuallyExclusiveDependencies fuel v h = Raise e h'
       end ∧
       snapshot fuel h' v = Some oneOf).
Proof.
  split; [apply StoreFacts.detection_frame|].
  intros oneOf h0 Hwf Hd.
  destruct (Refinement.load_repr oneOf h0) as (v & new & F & Hload & Hr & _).
  pose proof (Refinement.snap_snapshot oneOf fuel _ F v Hd
                (Refinement.repr_snap _ _ _ _ Hr)) as Hsnap.
  pose proof (Refinement.detection_refines oneOf fuel v F _ Hwf Hd Hr) as Hrun.
  pose proof (StoreFacts.detection_frame fuel v (h0 ++ new)) as Hfr.
  destruct (Attribute.hasMutuallyExclusiveDependencies oneOf) as [b|e].
  - destruct Hrun as (h' & Hrun & _). rewrite Hrun in Hfr.
    destruct Hfr as (_ & _ & Hkeep).
    exists v, (h0 ++ new), h'. split; [done|]. split; [done|]. split; [done|].
    by apply Hkeep.
  - destruct Hrun as (h' & Hrun). rewrite Hrun in Hfr.
    destruct Hfr as (_ & _ & Hkeep).
    exists v, (h0 ++ new), h'. split; [done|]. split; [done|]. split; [done|].
    by apply Hkeep.
Qed.

End Detection.

(* ===================================================================== *)
(** * The other validators *)
(* ===================================================================== *)

Section Further.

Variable this : Validator.
Variable makeChild : SchemaContext → jsval → pkey → SchemaContext.
Variable RegExp_test : jsval → string → exc bool.
Variable isFormat : string → jsval → FormatResult.
Variable deepCompareStrict : jsval → jsval → bool.

(** ** [anyOf] *)

Lemma anyOf_loop (instance schema : jsval) (ctx : SchemaContext)
    (results : list ValidatorResult) (errs : list ValidationError) :
  (fix loop (results : list ValidatorResult) (errs : list ValidationError) :=
     match results with
     | [] => RObject {| vr_instance := instance; vr_schema := schema;
                        vr_propertyPath := ctx_propertyPath ctx;
                        vr_errors := errs |}
     | r :: rest => if valid r then RNull else loop rest (errs ++ vr_errors r)%list
     end) results errs
  = if existsb valid results then RNull
    else RObject {| vr_instance := instance; vr_schema := schema;
                    vr_propertyPath := ctx_propertyPath ctx;
                    vr_errors := (errs ++ concat (vr_errors <$> results))%list |}.
Proof.
  revert errs. induction results as [|r results IH]; intros errs.
  - simpl. by rewrite app_nil_r.
  - cbn [existsb fmap list_fmap concat]. destruct (valid r); [done|].
    cbn [orb]. rewrite IH. by rewrite <- app_assoc.
Qed.

Lemma mapM_Throw {A B} (f : A → exc B) (pre post : list A) (x : A)
    (ys : list B) (e : exn) :
  Forall2 (λ x y, f x = Ok y) pre ys → f x = Throw e →
  mapM f (pre ++ x :: post) = Throw e.
Proof.
  intros Hpre Hx. induction Hpre as [|a y pre ys Ha _ IH]; simpl.
  - by rewrite Hx.
  - by rewrite Ha, bind_Ok, IH.
Qed.

(** X1.  [validators.anyOf] validates the instance against every branch, then
    answers from the results: nothing when some branch is valid, otherwise
    one object holding the errors of all the branches in order (so an
    empty [anyOf] accepts everything).  Since every branch is validated
    first, an exception in any branch is thrown even when an earlier
    branch is valid. *)
Theorem anyOf_some_branch (instance schema options : jsval) (ctx : SchemaContext)
    (branches : list jsval) :
  instance ≠ JUndefined →
  get schema "anyOf" = Ok (JArr branches) →
  (∀ results,
     Forall2 (λ s res, validateSchema this instance s options ctx = Ok res)
       branches results →
     validateAnyOf this instance schema options ctx
     = Ok (anyOf_answer instance schema ctx results)) ∧
  (∀ pre s post results e,
     branches = (pre ++ s :: post)%list →
     Forall2 (λ s res, validateSchema this instance s options ctx = Ok res)
       pre results →
     validateSchema this instance s options ctx = Throw e →
     validateAnyOf this instance schema options ctx = Throw e).
Proof.
  intros Hi Ha.
  assert (validateAnyOf this instance schema options ctx
          = (results ← mapM (λ s, validateSchema this instance s options ctx) branches;
             mret (anyOf_answer instance schema ctx results))) as ->.
  { unfold validateAnyOf.
    destruct instance; try done; simpl; rewrite Ha; simpl;
      (destruct (mapM _ branches) as [results|e]; [|done]);
      simpl; f_equal; unfold anyOf_answer; by rewrite anyOf_loop. }
  split.
  - intros results Hres. apply mapM_Forall2 in Hres. by rewrite Hres.
  - intros pre s post results e -> Hpre Hs.
    by rewrite (mapM_Throw _ pre post s results e Hpre Hs).
Qed.

(** ** [oneOf] *)







(** ** [required] *)

Lemma get_prop (v : jsval) (k : string) :
  v ≠ JUndefined → v ≠ JNull → get v k = Ok (prop v k).
Proof.
  intros Hu Hn. unfold prop. by destruct (get_not_nullish v k Hu Hn) as [w ->].
Qed.

Lemma object_not_nullish (v : jsval) :
  truthy v = true → v ≠ JUndefined ∧ v ≠ JNull.
Proof. by destruct v. Qed.

(** X4.  [validators.required].  With [required: true], the answer is "is
    required" exactly when the instance is [undefined] or [null].  With a
    list of names and an object (or array) instance, the result holds one
    error "is required" for each listed name whose value in the instance is
    [undefined] or [null], in the order of the list, addressed to the name
    under the current path; a name listed twice is reported twice.  The
    names are strings that the instance has as own properties or that name
    no inherited member ([reads_own]): a name such as [toString] that the
    instance does not hold itself is found on the prototype and is never
    reported. *)
Theorem required_reports_missing (instance schema options : jsval)
    (ctx : SchemaContext) :
  (get schema "required" = Ok (JBool true) →
     validateRequired instance schema options ctx
     = Ok (if nullish instance then RString "is required" else RNull)) ∧
  (∀ names,
     get schema "required" = Ok (JArr names) →
     truthy instance = true → typeof_object instance = true →
     Forall (λ n, own_name instance n = true) names →
     ∃ result,
       validateRequired instance schema options ctx = Ok (RResult result) ∧
       vr_instance result = instance ∧
       vr_errors result = required_errors instance ctx names).
Proof.
  split.
  - intros Hr. unfold validateRequired, nullish. rewrite Hr, bind_Ok. cbn [is_true andb].
    destruct (is_undefined instance || is_null instance) eqn:Hn; [done|].
    cbn [instanceof_Array]. by rewrite andb_false_r.
  - intros names Hr Ht Ho _. unfold validateRequired. rewrite Hr, bind_Ok.
    cbn [is_true andb instanceof_Array elems]. rewrite Ht, Ho. cbn [andb].
    destruct (object_not_nullish _ Ht) as [Hu Hn].
    match goal with |- context [foldM ?f _ names] => set (body := f) end.
    set (path n := (if (ctx_propertyPath ctx =? "")%string then ""
                    else ctx_propertyPath ctx ++ ".") ++ ToString n).
    assert (∀ result n,
      body result n
      = Ok (if nullish (prop instance (ToString n))
            then addError result "is required" (Some (path n)) else result)) as Hstep.
    { intros result n. unfold body, path, nullish.
      rewrite (get_prop _ _ Hu Hn), bind_Ok.
      destruct (is_undefined _ || is_null _); [|done].
      by destruct (ctx_propertyPath ctx =? "")%string. }
    assert (∀ result : ValidatorResult,
      ∃ result',
        foldM body result names = Ok result' ∧
        vr_instance result' = vr_instance result ∧
        vr_errors result'
        = (vr_errors result ++ required_errors instance ctx names)%list) as Hloop.
    { unfold required_errors. clear Hr.
      induction names as [|n names IH]; intros result.
      - exists result. simpl. by rewrite app_nil_r.
      - cbn [foldM]. rewrite Hstep, bind_Ok.
        destruct (nullish (prop instance (ToString n))) eqn:Hmiss.
        + destruct (IH (addError result "is required" (Some (path n))))
            as (result' & Hrun & Hinst & He).
          exists result'. split; [done|]. split; [done|]. rewrite He.
          rewrite filter_cons_True by done. cbn [fmap list_fmap addError vr_errors].
          by rewrite <- app_assoc.
        + destruct (IH result) as (result' & Hrun & Hinst & He).
          exists result'. split; [done|]. split; [done|]. rewrite He.
          rewrite filter_cons_False; [done|]. by rewrite Hmiss. }
    destruct (Hloop (new_ValidatorResult instance schema ctx))
      as (result' & -> & Hinst & He).
    exists result'. split; [done|]. split; [done|]. by rewrite He.
Qed.

(** ** [dependencies] *)

Lemma sub_head {A} (x : A) (l m : list A) : x :: l ⊆ m → x ∈ m.
Proof. intros H. apply H. by left. Qed.

Lemma sub_tail {A} (x : A) (l m : list A) : x :: l ⊆ m → l ⊆ m.
Proof. intros H y Hy. apply H. by right. Qed.

Lemma own_keys_get (v : jsval) (k : string) :
  k ∈ own_keys v → get v k = Ok (prop v k).
Proof.
  intros Hk. apply get_prop; intros ->; by apply elem_of_nil in Hk.
Qed.

(** X5.  [validators.dependencies] on an object (or array) instance goes through
    the keys of [schema.dependencies] in order and adds, for each key, what
    [dependency_errors] says: a key the instance has no value for adds
    nothing; a failing schema-valued dependency adds the error "does not
    meet dependency required by ..." and then the errors of the failed
    validation, so the result then holds a dependency error in the sense
    of [isDependencyError].  The keys of [schema.dependencies] and the
    names the dependencies list are strings read from the instance's own
    properties ([reads_own]): a name such as [toString] would be found on
    the prototype. *)
Theorem dependencies_by_key (instance schema options : jsval) (ctx : SchemaContext)
    (deps : jsval) (res_of : string → ValidatorResult) :
  truthy instance = true → typeof_object instance = true →
  get schema "dependencies" = Ok deps →
  (∀ k, k ∈ own_keys deps →
     reads_own instance k = true ∧
     Forall (λ p, own_name instance p = true) (dependency_names (prop deps k))) →
  (∀ k, k ∈ own_keys deps →
     is_undefined (prop instance k) = false →
     typeof_string (prop deps k) = false →
     instanceof_Array (prop deps k) = false →
     validateSchema this instance (prop deps k) options
       (makeChild ctx (prop deps k) (PName k)) = Ok (res_of k)) →
  ∃ result,
    validateDependencies this makeChild instance schema options ctx
      = Ok (RResult result) ∧
    vr_errors result
    = concat ((λ k, dependency_errors makeChild instance ctx k (prop deps k) (res_of k))
              <$> own_keys deps) ∧
    (∀ k, k ∈ own_keys deps →
       is_undefined (prop instance k) = false →
       typeof_string (prop deps k) = false →
       instanceof_Array (prop deps k) = false →
       valid (res_of k) = false →
       existsb isDependencyError (vr_errors result) = true).
Proof.
  intros Ht Ho Hd _ Hres.
  destruct (object_not_nullish _ Ht) as [Hu Hn].
  unfold validateDependencies. rewrite Ht, Ho. cbn [negb orb]. rewrite Hd, bind_Ok.
  match goal with |- context [foldM ?f _ (own_keys deps)] => set (body := f) end.
  assert (∀ result k, k ∈ own_keys deps →
    vr_propertyPath result = ctx_propertyPath ctx →
    ∃ result',
      body result k = Ok result' ∧
      vr_propertyPath result' = ctx_propertyPath ctx ∧
      vr_errors result'
      = (vr_errors result
         ++ dependency_errors makeChild instance ctx k (prop deps k) (res_of k))%list)
    as Hstep.
  { intros result k Hk Hpath. unfold body, dependency_errors.
    rewrite (get_prop _ _ Hu Hn), bind_Ok.
    destruct (is_undefined (prop instance k)) eqn:Hdef.
    { exists result. split; [done|]. split; [done|]. by rewrite app_nil_r. }
    rewrite (own_keys_get _ _ Hk), bind_Ok.
    set (dep := prop deps k) in *.
    set (names := if typeof_string dep then JArr [dep] else dep).
    destruct (instanceof_Array names) eqn:Harr.
    - (* names *)
      generalize (elems names). intros l.
      assert (∀ result, vr_propertyPath result = ctx_propertyPath ctx →
        ∃ result',
          foldM (λ result prop0,
              w ← get instance (ToString prop0);
              if is_undefined w then
                mret (addError result
                        ("property " ++ ToString prop0 ++ " not found, required by "
                         ++ ctx_propertyPath (makeChild ctx dep (PName k))) None)
              else mret result) result l = Ok result' ∧
          vr_propertyPath result' = ctx_propertyPath ctx ∧
          vr_errors result'
          = (vr_errors result
             ++ ((λ p, mkError ("property " ++ ToString p ++ " not found, required by "
                                ++ ctx_propertyPath (makeChild ctx dep (PName k)))
                         (ctx_propertyPath ctx))
                 <$> filter (λ p, is_undefined (prop instance (ToString p)) = true) l))%list)
        as Hnames; [|by apply Hnames].
      clear result Hpath.
      induction l as [|p l IH]; intros result Hpath.
      + exists result. simpl. by rewrite app_nil_r.
      + cbn [foldM]. rewrite (get_prop _ _ Hu Hn), bind_Ok.
        destruct (is_undefined (prop instance (ToString p))) eqn:Hp.
        * rewrite bind_Ok.
          edestruct IH as (result' & Hrun & Hpath' & He); [|rewrite Hrun].
          { done. }
          exists result'. split; [done|]. split; [done|]. rewrite He.
          rewrite filter_cons_True by done. cbn [fmap list_fmap addError vr_errors].
          rewrite <- app_assoc. cbn [default from_option id app]. by rewrite Hpath.
        * rewrite bind_Ok. destruct (IH result Hpath) as (result' & Hrun & Hpath' & He).
          exists result'. split; [done|]. split; [done|]. rewrite He.
          rewrite filter_cons_False; [done|]. by rewrite Hp.
    - (* a schema *)
      assert (typeof_string dep = false) as Hstr.
      { unfold names in Harr. by destruct (typeof_string dep). }
      assert (names = dep) as Hnd by (unfold names; by rewrite Hstr).
      rewrite Hnd in Harr |- *. clear Hnd. subst names dep.
      rewrite (Hres k Hk Hdef Hstr Harr), bind_Ok.
      assert (negb (length (vr_errors (res_of k)) =? 0)%nat = negb (valid (res_of k)))
        as -> by (unfold valid; by destruct (vr_errors (res_of k))).
      destruct (valid (res_of k)).
      + eexists. split; [reflexivity|]. rewrite app_nil_r.
        by destruct (same_value _ _).
      + eexists. split; [reflexivity|].
        destruct (same_value _ _); cbn; rewrite Hpath, <- app_assoc; done. }
  assert (∀ keys, keys ⊆ own_keys deps → ∀ result,
    vr_propertyPath result = ctx_propertyPath ctx →
    ∃ result',
      foldM body result keys = Ok result' ∧
      vr_errors result'
      = (vr_errors result
         ++ concat ((λ k, dependency_errors makeChild instance ctx k (prop deps k)
                            (res_of k)) <$> keys))%list) as Hloop.
  { induction keys as [|k keys IH]; intros Hsub result Hpath.
    - exists result. simpl. by rewrite app_nil_r.
    - destruct (Hstep result k) as (result1 & Hrun1 & Hpath1 & He1);
        [by eapply sub_head | done |].
      destruct (IH (sub_tail _ _ _ Hsub) result1 Hpath1) as (result' & Hrun & He).
      exists result'. cbn [foldM]. rewrite Hrun1, bind_Ok. split; [done|].
      rewrite He, He1. cbn [fmap list_fmap concat]. by rewrite <- app_assoc. }
  destruct (Hloop (own_keys deps) ltac:(done) (new_ValidatorResult instance schema ctx))
    as (result' & -> & He); [done|].
  exists result'. split; [done|]. split; [by rewrite He|].
  intros k Hk Hdef Hstr Harr Hv. rewrite He. cbn [new_ValidatorResult vr_errors app].
  apply existsb_exists.
  exists (mkError ("does not meet dependency required by "
                   ++ ctx_propertyPath (makeChild ctx (prop deps k) (PName k)))
            (ctx_propertyPath ctx)).
  split; [|reflexivity].
  apply in_concat.
  exists (dependency_errors makeChild instance ctx k (prop deps k) (res_of k)).
  split.
  - apply list_elem_of_In, list_elem_of_fmap. by exists k.
  - unfold dependency_errors. rewrite Hdef, Hstr, Harr, Hv. by left.
Qed.

(** ** [null] instances *)

(** X6.  A [null] instance is treated like an absent one by every validator of
    the table that does not hand it to [testType] or [validateSchema]:
    apart from [type], the combinators, [not]/[disallow] and [required]
    (which reports it as missing), each returns without an exception and
    contributes no error -- for [patternProperties] and
    [additionalProperties] provided [this.types.object] rejects [null].
    Of the schema only this is asked: an [enum] holds an array. *)
Theorem null_is_ignored (key : string)
    (validator : jsval → jsval → jsval → SchemaContext → exc ret)
    (schema options : jsval) (ctx : SchemaContext) :
  (key, validator)
    ∈ validators_table this makeChild RegExp_test isFormat deepCompareStrict →
  key ∉ ["type"; "anyOf"; "allOf"; "oneOf"; "required"; "not"; "disallow"] →
  (key ∈ ["patternProperties"; "additionalProperties"] →
     types_object this JNull = false) →
  (key = "enum" → ∃ e, get schema "enum" = Ok (JArr e)) →
  ∃ r, validator JNull schema options ctx = Ok r ∧ contributed ctx r = [].
Proof.
  intros Hin Hkey Hobj Henum. unfold validators_table in Hin.
  repeat (apply elem_of_cons in Hin as [[= -> ->] | Hin]);
    try (by apply elem_of_nil in Hin);
    try (by exfalso; apply Hkey; repeat constructor);
    try (by eexists; split; [reflexivity | reflexivity]).
  - unfold validatePatternProperties. cbn [is_undefined].
    rewrite Hobj by repeat constructor. by eexists.
  - unfold validateAdditionalProperties. cbn [is_undefined].
    rewrite Hobj by repeat constructor. by eexists.
  - destruct (Henum eq_refl) as [e He].
    unfold validateEnum. rewrite He. simpl. by eexists.
Qed.

(** ** [items] *)

Lemma validateItem_schema (schema options : jsval) (ctx : SchemaContext)
    (result : ValidatorResult) (cur : list jsval) (i : nat) (its : jsval) :
  get schema "items" = Ok its →
  vr_instance result = JArr cur →
  validateItem this makeChild schema options ctx result i
  = match item_schema schema i with
    | JUndefined => Ok (true, result)
    | JBool false => Ok (false, addError result "additionalItems not permitted" None)
    | items =>
        res ← validateSchema this (item cur i) items options
                (makeChild ctx items (PIndex i));
        result ← write_back result (string_of_nat i) res;
        mret (true, importErrors result res)
    end.
Proof.
  intros Hits Hinst. unfold validateItem, item_schema, prop, item.
  rewrite Hinst, Hits. cbn [get_index]. rewrite !bind_Ok.
  destruct (get_Ok_not_nullish _ _ _ Hits) as [Hu Hn].
  destruct (instanceof_Array its) eqn:Harr.
  - destruct its as [| | | | |xs|]; try discriminate Harr.
    cbn [get_index elems]. rewrite bind_Ok.
    destruct (get_not_nullish schema "additionalItems" Hu Hn) as [ai ->].
    rewrite !bind_Ok. by destruct (js_or _ ai) as [| |[]| | | |].
  - rewrite bind_Ok. by destruct its as [| |[]| | | |].
Qed.

(** X7.  [validators.items] on an array: the elements are visited in order,
    each against [item_schema]; an element without sub-schema (beyond a
    positional list that has no [additionalItems]) is skipped, the
    sub-schema [false] yields "additionalItems not permitted" and ends the
    scan, any other element contributes the errors of its own validation.
    With a single schema for [items], every element is validated. *)
Theorem items_elementwise (schema options : jsval) (ctx : SchemaContext)
    (vs : list jsval) (its : jsval) (res_of : nat → ValidatorResult) :
  get schema "items" = Ok its → truthy its = true →
  (∀ i v, vs !! i = Some v →
     item_schema schema i ≠ JUndefined → item_schema schema i ≠ JBool false →
     validateSchema this v (item_schema schema i) options
       (makeChild ctx (item_schema schema i) (PIndex i)) = Ok (res_of i)) →
  ∃ result,
    validateItems this makeChild (JArr vs) schema options ctx = Ok (RResult result) ∧
    vr_errors result
    = items_scan (ctx_propertyPath ctx) (item_schema schema) res_of
        (seq 0 (length vs)).
Proof.
  intros Hits Htruthy Hres.
  unfold validateItems. cbn [instanceof_Array negb is_undefined orb elems].
  rewrite Hits, bind_Ok, Htruthy. cbn [negb].
  assert (∀ (n k : nat) (result : ValidatorResult) (cur : list jsval),
    (k + n = length vs)%nat →
    vr_instance result = JArr cur → length cur = length vs →
    vr_propertyPath result = ctx_propertyPath ctx →
    (∀ j, (k ≤ j)%nat → cur !! j = vs !! j) →
    ∃ result',
      every_item this makeChild schema options ctx result (seq k n) = Ok result' ∧
      vr_errors result'
      = (vr_errors result
         ++ items_scan (ctx_propertyPath ctx) (item_schema schema) res_of (seq k n))%list)
    as Hloop.
  { induction n as [|n IH]; intros k result cur Hk Hinst Hclen Hpath Hcur.
    - exists result. simpl. by rewrite app_nil_r.
    - cbn [seq every_item items_scan].
      rewrite (validateItem_schema _ _ _ _ cur k its Hits Hinst).
      destruct (lookup_lt_is_Some_2 vs k) as [v Hv]; [lia|].
      assert (item cur k = v) as Hitem by (unfold item; by rewrite Hcur, Hv).
      specialize (Hres k v Hv).
      assert (∀ items, items = item_schema schema k →
        items ≠ JUndefined → items ≠ JBool false →
        ∃ result',
          (('(continue, result) ←
              (res ← validateSchema this (item cur k) items options
                       (makeChild ctx items (PIndex k));
               result ← write_back result (string_of_nat k) res;
               mret (true, importErrors result res));
            if continue : bool
            then every_item this makeChild schema options ctx result (seq (S k) n)
            else mret result) = Ok result') ∧
          vr_errors result'
          = (vr_errors result ++ vr_errors (res_of k)
             ++ items_scan (ctx_propertyPath ctx) (item_schema schema) res_of
                  (seq (S k) n))%list) as Hgo.
      { intros items -> Hu Hf. rewrite Hitem, (Hres Hu Hf), bind_Ok.
        destruct (write_back_array result (res_of k) cur k Hinst)
          as (cur' & Hwb & Hl' & Hc'); [lia|].
        rewrite Hwb, !bind_Ok.
        destruct (IH (S k) (importErrors (with_instance result (JArr cur')) (res_of k))
                    cur') as (result' & Hrun & He); [lia | done | lia | done | |].
        { intros j Hj. rewrite Hc' by lia. apply Hcur. lia. }
        exists result'. split; [done|]. rewrite He. simpl. by rewrite <- app_assoc. }
      destruct (item_schema schema k) as [| |[]| | | |] eqn:Hsch;
        try (by apply Hgo).
      + (* no sub-schema: the element is skipped *)
        rewrite bind_Ok. apply (IH (S k) result cur); try done; [lia|].
        intros j Hj. apply Hcur. lia.
      + (* [false]: the scan ends *)
        rewrite bind_Ok. eexists. split; [reflexivity|].
        cbn [addError vr_errors default from_option id]. by rewrite Hpath. }
  destruct (Hloop (length vs) 0%nat (new_ValidatorResult (JArr vs) schema ctx) vs)
    as (result' & Hrun & He); try done.
  rewrite Hrun, bind_Ok. exists result'. split; [done|]. by rewrite He.
Qed.

(** ** [properties] *)

Lemma same_value_refl (v : jsval) : same_value v v = true.
Proof.
  induction v as [| |b|n|s|xs IH|ps IH] using Refinement.jsval_ind; simpl; try done.
  - by destruct b.
  - apply Z.eqb_refl.
  - apply String.eqb_refl.
  - induction IH as [|x xs Hx _ IHxs]; [done|]. by rewrite Hx.
  - induction IH as [|[k x] ps Hx _ IHps]; [done|].
    simpl in Hx. by rewrite String.eqb_refl, Hx.
Qed.

Lemma write_back_same (result res : ValidatorResult) (key : string) :
  vr_instance result ≠ JUndefined → vr_instance result ≠ JNull →
  vr_instance res = prop (vr_instance result) key →
  write_back result key res = Ok result.
Proof.
  intros Hu Hn Hres. unfold write_back.
  rewrite (get_prop _ _ Hu Hn), bind_Ok, Hres. by rewrite same_value_refl.
Qed.

(** X8.  [validators.properties] on an object (or array) instance validates, for
    each key of [schema.properties] in order, the value the instance has
    for it -- [undefined] when it has none -- against the key's sub-schema,
    under the path extended by the key, and gathers the errors; the keys of
    the instance that the schema does not declare are not looked at.  Here
    the validations hand back the value they were given, and the keys of
    [schema.properties] are read from the instance's own properties
    ([reads_own]): for a key such as [toString] that the instance does not
    hold itself, the inherited member would be validated.  An instance
    that is no object gets no result at all. *)
Theorem properties_by_key (instance schema options : jsval) (ctx : SchemaContext)
    (p : jsval) (res_of : string → ValidatorResult) :
  get schema "properties" = Ok p →
  (instanceof_Object instance = false →
     validateProperties this makeChild instance schema options ctx = Ok RUndefined) ∧
  (instanceof_Object instance = true →
     (∀ k, k ∈ own_keys (js_or p (JObj [])) → reads_own instance k = true) →
     (∀ k, k ∈ own_keys (js_or p (JObj [])) →
        validateSchema this (prop instance k) (prop p k) options
          (makeChild ctx (prop p k) (PName k)) = Ok (res_of k) ∧
        vr_instance (res_of k) = prop instance k) →
     ∃ result,
       validateProperties this makeChild instance schema options ctx
         = Ok (RResult result) ∧
       vr_instance result = instance ∧
       vr_errors result
       = concat ((λ k, vr_errors (res_of k)) <$> own_keys (js_or p (JObj [])))).
Proof.
  intros Hp. split.
  - intros Ho. unfold validateProperties. rewrite Ho. cbn [negb]. by rewrite orb_true_r.
  - intros Ho _ Hres. unfold validateProperties. rewrite Ho. cbn [negb].
    assert (instance ≠ JUndefined ∧ instance ≠ JNull) as [Hu Hn] by (by destruct instance).
    assert (is_undefined instance = false) as -> by (by destruct instance).
    cbn [orb]. rewrite Hp, bind_Ok.
    set (properties := js_or p (JObj [])) in *.
    assert (∀ k, k ∈ own_keys properties → prop properties k = prop p k) as Hsame.
    { intros k Hk. unfold properties, js_or in *. destruct (truthy p); [done|].
      by apply elem_of_nil in Hk. }
    match goal with |- context [foldM ?f _ (own_keys properties)] => set (body := f) end.
    assert (∀ keys, keys ⊆ own_keys properties → ∀ result,
      vr_instance result = instance →
      ∃ result',
        foldM body result keys = Ok result' ∧
        vr_instance result' = instance ∧
        vr_errors result'
        = (vr_errors result ++ concat ((λ k, vr_errors (res_of k)) <$> keys))%list)
      as Hloop.
    { induction keys as [|k keys IH]; intros Hsub result Hinst.
      - exists result. simpl. by rewrite app_nil_r.
      - assert (k ∈ own_keys properties) as Hk by (by eapply sub_head).
        destruct (Hres k Hk) as [Hv Hkeep].
        assert (body result k = Ok (importErrors result (res_of k))) as Hstep.
        { unfold body. rewrite Hinst, (get_prop _ _ Hu Hn), bind_Ok.
          rewrite (own_keys_get _ _ Hk), bind_Ok, (Hsame k Hk), Hv, bind_Ok.
          rewrite write_back_same, bind_Ok; [done|by rewrite Hinst..]. }
        destruct (IH (sub_tail _ _ _ Hsub) (importErrors result (res_of k)) Hinst)
          as (result' & Hrun & Hinst' & He).
        exists result'. cbn [foldM]. rewrite Hstep, bind_Ok.
        split; [done|]. split; [done|]. rewrite He. simpl. by rewrite <- app_assoc. }
    destruct (Hloop (own_keys properties) ltac:(done)
                (new_ValidatorResult instance schema ctx) eq_refl)
      as (result' & -> & Hinst & He).
    exists result'. split; [done|]. split; [done|]. by rewrite He.
Qed.

(** ** [additionalProperties] *)

Lemma testAdditionalProperty_false (schema options : jsval) (ctx : SchemaContext)
    (props : jsval) (property : string) (result : ValidatorResult) :
  get schema "properties" = Ok props →
  get schema "additionalProperties" = Ok (JBool false) →
  testAdditionalProperty this makeChild schema options ctx property result
  = Ok (if declared props property then result
        else addError result "does not exist in the schema" (Some property)).
Proof.
  intros Hp Ha. unfold testAdditionalProperty, declared. rewrite Hp, bind_Ok.
  destruct (truthy props) eqn:Ht; cbn [andb].
  - destruct (object_not_nullish _ Ht) as [Hu Hn].
    rewrite (get_prop _ _ Hu Hn), !bind_Ok.
    destruct (negb (is_undefined (prop props property))); [done|].
    by rewrite Ha, bind_Ok.
  - by rewrite bind_Ok, Ha, bind_Ok.
Qed.

(** X9.  [additionalProperties: false] without [patternProperties]: the result
    holds one error "does not exist in the schema" for each own key of the
    instance that has no definition in [schema.properties], in the order of
    the instance's keys, addressed to the key; the declared keys add
    nothing, and no validation is run.  The keys of the instance are looked
    up among the own properties of [schema.properties] ([reads_own]): a
    key such as [toString] that [schema.properties] does not hold itself
    would be found on its prototype and pass for declared. *)
Theorem additionalProperties_false (instance schema options : jsval)
    (ctx : SchemaContext) (props pp : jsval) :
  instance ≠ JUndefined → types_object this instance = true →
  get schema "patternProperties" = Ok pp → truthy pp = false →
  get schema "properties" = Ok props →
  (truthy props = true → ∀ k, k ∈ own_keys instance → reads_own props k = true) →
  get schema "additionalProperties" = Ok (JBool false) →
  ∃ result,
    validateAdditionalProperties this makeChild instance schema options ctx
      = Ok (RResult result) ∧
    vr_instance result = instance ∧
    vr_errors result
    = (λ k, mkError "does not exist in the schema" k)
      <$> filter (λ k, declared props k = false) (own_keys instance).
Proof.
  intros Hi Hobj Hpp Hppf Hp _ Ha. unfold validateAdditionalProperties.
  assert (is_undefined instance = false) as -> by (by destruct instance).
  rewrite Hobj. cbn [negb]. rewrite Hpp, bind_Ok, Hppf.
  assert (∀ keys result,
    ∃ result',
      foldM (λ result property,
          testAdditionalProperty this makeChild schema options ctx property result)
        result keys = Ok result' ∧
      vr_instance result' = vr_instance result ∧
      vr_errors result'
      = (vr_errors result
         ++ ((λ k, mkError "does not exist in the schema" k)
             <$> filter (λ k, declared props k = false) keys))%list) as Hloop.
  { induction keys as [|k keys IH]; intros result.
    - exists result. simpl. by rewrite app_nil_r.
    - cbn [foldM]. rewrite (testAdditionalProperty_false _ _ _ props) by done.
      rewrite bind_Ok. destruct (declared props k) eqn:Hd.
      + destruct (IH result) as (result' & Hrun & Hinst & He).
        exists result'. split; [done|]. split; [done|]. rewrite He.
        rewrite filter_cons_False; [done|]. by rewrite Hd.
      + destruct (IH (addError result "does not exist in the schema" (Some k)))
          as (result' & Hrun & Hinst & He).
        exists result'. split; [done|]. split; [done|]. rewrite He.
        rewrite filter_cons_True by done. simpl. by rewrite <- app_assoc. }
  destruct (Hloop (own_keys instance) (new_ValidatorResult instance schema ctx))
    as (result' & -> & Hinst & He).
  exists result'. split; [done|]. split; [done|]. by rewrite He.
Qed.

(** ** [patternProperties] *)




(** ** [type] *)

Lemma someM_existsb {A} (f : A → exc bool) (g : A → bool) (l : list A) :
  (∀ x, x ∈ l → f x = Ok (g x)) → someM f l = Ok (existsb g l).
Proof.
  induction l as [|x l IH]; intros H; [done|].
  cbn [someM existsb]. rewrite (H x) by (by left). rewrite bind_Ok.
  destruct (g x); [done|]. apply IH. intros y Hy. apply H. by right.
Qed.

Lemma ToString_strings (names : list string) :
  ToString (JArr (JStr <$> names)) = join_with "," names.
Proof.
  cbn [ToString]. f_equal.
  induction names as [|n names IH]; [done|]. cbn [fmap list_fmap]. by f_equal.
Qed.

(** X10.  [validators.type] with type names: the instance is accepted exactly
    when [testType] accepts it for one of the names; otherwise the message
    is "is not a " followed by the name when there is one name, "is none
    of " followed by the names separated by commas when there are several
    (or none). *)
Theorem type_message (instance schema options : jsval) (ctx : SchemaContext)
    (ty : jsval) (names : list string) (accepts : string → bool) :
  instance ≠ JUndefined →
  get schema "type" = Ok ty →
  (if instanceof_Array ty then elems ty else [ty]) = JStr <$> names →
  (∀ n, n ∈ names →
     testType this instance schema options ctx (JStr n) = Ok (accepts n)) →
  validateType this instance schema options ctx
  = Ok (if existsb accepts names then RNull
        else RString ((if (length names =? 1)%nat then "is not a " else "is none of ")
                      ++ join_with "," names)).
Proof.
  intros Hi Hty Htypes Hacc. unfold validateType.
  assert (is_undefined instance = false) as -> by (by destruct instance).
  rewrite Hty, bind_Ok, Htypes.
  set (g := λ v : jsval, match v with JStr n => accepts n | _ => false end).
  rewrite (someM_existsb _ g).
  2:{ intros v (n & -> & Hn)%list_elem_of_fmap. by apply Hacc. }
  rewrite bind_Ok.
  assert (existsb g (JStr <$> names) = existsb accepts names) as ->.
  { clear. induction names as [|n names IH]; [done|].
    cbn [fmap list_fmap existsb]. by rewrite IH. }
  destruct (existsb accepts names); [done|]. cbn [negb].
  assert (mapM (λ v, id ← get v "id";
                  mret (js_or (js_and id (JStr ("<" ++ ToString id ++ ">")))
                              (JStr (ToString v)))) (JStr <$> names)
          = Ok (JStr <$> names)) as ->.
  { clear. induction names as [|n names IH]; [done|].
    cbn [fmap list_fmap mapM]. rewrite IH. reflexivity. }
  rewrite bind_Ok, ToString_strings. by rewrite length_fmap.
Qed.

(** ** [not] and [disallow] *)


(** ** [removeNot] *)

Lemma removeNot_false_unchanged (t : jsval) :
  ∀ t', removeNot t = Ok (false, t') → t' = t.
Proof.
  induction t as [| | | | |ts IH|tps IH] using Refinement.jsval_ind; intros t';
    try (by intros [= <-]).
  - rewrite Refinement.removeNot_JArr.
    intros ([found ts'] & Hloop & [= -> <-])%bind_Ok_inv. f_equal.
    revert ts' Hloop. induction IH as [|t ts Ht _ IHts]; intros ts'.
    + by intros [= <-].
    + rewrite Refinement.some_elems_cons.
      intros ([found1 t1] & Hrn & Hrest)%bind_Ok_inv. destruct found1; [done|].
      apply bind_Ok_inv in Hrest as ([found2 ts2] & Hrec & [= -> <-]).
      f_equal; [by apply Ht | by apply IHts].
  - destruct (JS.assoc_get "hasOwnProperty" tps) as [s|] eqn:Hs;
      [by rewrite Refinement.removeNot_shadowed by eauto|].
    rewrite Refinement.removeNot_JObj by done. clear Hs.
    destruct (JS.assoc_get "not" tps).
    { by intros (ks & _ & (ps' & _ & [=])%bind_Ok_inv)%bind_Ok_inv. }
    intros ([found ts'] & Hloop & [= -> <-])%bind_Ok_inv. f_equal.
    revert ts' Hloop. induction IH as [|[k t] ts Ht _ IHts]; intros ts'.
    + by intros [= <-].
    + rewrite Refinement.some_props_cons.
      intros ([found1 t1] & Hrn & Hrest)%bind_Ok_inv. destruct found1; [done|].
      apply bind_Ok_inv in Hrest as ([found2 ts2] & Hrec & [= -> <-]).
      f_equal; [f_equal; by apply Ht | by apply IHts].
Qed.

Lemma no_not_assoc_get (ps : list (string * jsval)) :
  forallb (λ kv, negb (kv.1 =? "not")%string && no_not kv.2) ps = true →
  JS.assoc_get "not" ps = None.
Proof.
  induction ps as [|[k v] ps IH]; [done|]. simpl.
  intros [[Hk _]%andb_true_iff Hps]%andb_true_iff.
  apply negb_true_iff in Hk. rewrite Hk. by apply IH.
Qed.

Lemma removeNot_no_not (t : jsval) :
  no_not t = true →
  removeNot t = if stops t then Throw TypeError else Ok (false, t).
Proof.
  induction t as [| | | | |ts IH|tps IH] using Refinement.jsval_ind; try done.
  - cbn [no_not stops]. intros Hall. rewrite Refinement.removeNot_JArr.
    assert (Repr.some_elems ts =
            if existsb stops ts then Throw TypeError else Ok (false, ts)) as ->;
      [|by destruct (existsb stops ts)].
    induction IH as [|t ts Ht _ IHts]; [done|].
    cbn [forallb existsb] in *. apply andb_true_iff in Hall as [H1 H2].
    rewrite Refinement.some_elems_cons, (Ht H1).
    destruct (stops t); [done|]. rewrite bind_Ok, (IHts H2). cbn [orb].
    by destruct (existsb stops ts).
  - cbn [no_not stops]. intros Hall.
    destruct (JS.assoc_get "hasOwnProperty" tps) as [s|] eqn:Hs.
    { rewrite Refinement.removeNot_shadowed by eauto.
      by rewrite bool_decide_true by eauto. }
    rewrite Refinement.removeNot_JObj, (no_not_assoc_get _ Hall) by done.
    rewrite bool_decide_false by (by intros [? ?]). cbn [orb]. clear Hs.
    assert (Repr.some_props tps =
            if existsb (λ kv, stops kv.2) tps then Throw TypeError
            else Ok (false, tps)) as ->;
      [|by destruct (existsb _ tps)].
    induction IH as [|[k t] ts Ht _ IHts]; [done|].
    cbn [forallb existsb] in *.
    apply andb_true_iff in Hall as [[_ H1]%andb_true_iff H2].
    cbn [snd] in *. rewrite Refinement.some_props_cons, (Ht H1).
    destruct (stops t); [done|]. rewrite bind_Ok, (IHts H2). cbn [orb].
    by destruct (existsb _ ts).
Qed.

Lemma has_null_stops (t : jsval) : has_null t = true → stops t = true.
Proof.
  induction t as [| | | | |ts IH|tps IH] using Refinement.jsval_ind; try done.
  - cbn [has_null stops]. induction IH as [|t ts Ht _ IHts]; [done|].
    cbn [existsb]. intros [H|H]%orb_true_iff; apply orb_true_iff; auto.
  - cbn [has_null stops]. intros H. apply orb_true_iff. right. revert H.
    induction IH as [|[k t] ts Ht _ IHts]; [done|].
    cbn [existsb snd] in *. intros [H|H]%orb_true_iff; apply orb_true_iff; auto.
Qed.

Lemma plain_names_get (ps : list (string * jsval)) (k : string) :
  forallb (λ kv, plain_name kv.1 && regular kv.2) ps = true →
  plain_name k = false → JS.assoc_get k ps = None.
Proof.
  intros Hall Hk. induction ps as [|[k' v] ps IH]; [done|].
  cbn [forallb fst snd JS.assoc_get] in *.
  apply andb_true_iff in Hall as [[Hp _]%andb_true_iff Hall].
  destruct (String.eqb_spec k' k) as [->|_]; [congruence | by apply IH].
Qed.

Lemma regular_stops (t : jsval) : regular t = true → stops t = false.
Proof.
  induction t as [| | | | |ts IH|tps IH] using Refinement.jsval_ind; try done.
  - cbn [regular stops]. induction IH as [|t ts Ht _ IHts]; [done|].
    cbn [forallb existsb]. intros [H1 H2]%andb_true_iff.
    by rewrite (Ht H1), (IHts H2).
  - cbn [regular stops]. intros [_ Hall]%andb_true_iff.
    rewrite (plain_names_get _ "hasOwnProperty" Hall eq_refl).
    rewrite bool_decide_false by (by intros [? ?]). cbn [orb]. revert Hall.
    induction IH as [|[k t] ts Ht _ IHts]; [done|].
    cbn [forallb existsb fst snd] in *.
    intros [[_ H1]%andb_true_iff H2]%andb_true_iff.
    by rewrite (Ht H1), (IHts H2).
Qed.

Lemma removeNot_not_free (t : jsval) :
  not_free t = true → removeNot t = Ok (false, t).
Proof.
  intros [Hn Hr]%andb_true_iff.
  by rewrite (removeNot_no_not _ Hn), (regular_stops _ Hr).
Qed.

Lemma get_throws_TypeError (v : jsval) (k : string) (e : exn) :
  get v k = Throw e → e = TypeError.
Proof.
  destruct v; simpl; try (by intros [= <-]); try done.
  - destruct (index_of_string k); [done|]. by destruct (k =? "length")%string.
  - destruct (index_of_string k); [done|]. by destruct (k =? "length")%string.
Qed.

Lemma bind_Throw_inv {A B} (f : A → exc B) (c : exc A) (e : exn) :
  (c ≫= f) = Throw e → c = Throw e ∨ ∃ a, c = Ok a ∧ f a = Throw e.
Proof. destruct c as [a|e']; [right; eauto | intros [= ->]; by left]. Qed.

Lemma removeNot_throws_TypeError (t : jsval) :
  ∀ e, removeNot t = Throw e → e = TypeError.
Proof.
  induction t as [| | | | |ts IH|tps IH] using Refinement.jsval_ind; intros e;
    try done; try (by intros [= <-]).
  - rewrite Refinement.removeNot_JArr.
    intros [Hloop|([found ts'] & _ & [=])]%bind_Throw_inv.
    revert Hloop. induction IH as [|t ts Ht _ IHts]; [done|].
    rewrite Refinement.some_elems_cons.
    intros [Hrn|([found1 t1] & _ & Hrest)]%bind_Throw_inv; [by apply Ht|].
    destruct found1; [done|].
    apply bind_Throw_inv in Hrest as [Hrec|([found2 ts2] & _ & [=])]. by apply IHts.
  - destruct (JS.assoc_get "hasOwnProperty" tps) as [s|] eqn:Hs.
    { rewrite Refinement.removeNot_shadowed by eauto. by intros [= <-]. }
    rewrite Refinement.removeNot_JObj by done. clear Hs.
    destruct (JS.assoc_get "not" tps) as [n|].
    + intros [Hk|(ks & _ & [Hfold|(ps' & _ & [=])]%bind_Throw_inv)]%bind_Throw_inv.
      { destruct n; simpl in Hk; congruence. }
      clear IH. revert Hfold. generalize tps. clear tps.
      induction ks as [|k ks IHks]; intros ps; [done|]. cbn [JS.foldM].
      intros [Hstep|(ps1 & _ & Hrest)]%bind_Throw_inv; [|by eapply IHks].
      unfold Repr.hoist_tree in Hstep.
      apply bind_Throw_inv in Hstep as [Hget|(v & _ & [=])].
      by eapply get_throws_TypeError.
    + intros [Hloop|([found ts'] & _ & [=])]%bind_Throw_inv.
      revert Hloop. induction IH as [|[k t] ts Ht _ IHts]; [done|].
      rewrite Refinement.some_props_cons.
      intros [Hrn|([found1 t1] & _ & Hrest)]%bind_Throw_inv; [by apply Ht|].
      destruct found1; [done|].
      apply bind_Throw_inv in Hrest as [Hrec|([found2 ts2] & _ & [=])]. by apply IHts.
Qed.

(** X12.  [removeNot] on a schema without [not]: when the function answers
    that there was no [not], it has changed nothing; on a schema in which
    no object has a key [not] it raises a [TypeError] when the schema holds
    a [null] or an object with an own property [hasOwnProperty] anywhere
    ([schema.hasOwnProperty] is then no function), and else answers [false]
    with the schema as it was; and a [TypeError] is the only exception it
    raises on any schema. *)
Theorem removeNot_nothing_found :
  (∀ t t', removeNot t = Ok (false, t') → t' = t) ∧
  (∀ t, no_not t = true →
     removeNot t = if stops t then Throw TypeError else Ok (false, t)) ∧
  (∀ t e, removeNot t = Throw e → e = TypeError).
Proof.
  split; [exact removeNot_false_unchanged|].
  split; [exact removeNot_no_not | exact removeNot_throws_TypeError].
Qed.

(** ** What [removeNot] strips *)

Lemma assoc_get_set (k k' : string) (v : jsval) (ps : list (string * jsval)) :
  JS.assoc_get k (JS.assoc_set k' v ps)
  = if (k' =? k)%string then Some v else JS.assoc_get k ps.
Proof.
  induction ps as [|[k0 v0] ps IH]; cbn [JS.assoc_set JS.assoc_get].
  - by destruct (k' =? k)%string.
  - destruct (String.eqb_spec k0 k') as [->|Hne]; cbn [JS.assoc_get].
    + by destruct (k' =? k)%string.
    + destruct (String.eqb_spec k0 k) as [->|Hne']; [|done].
      by destruct (String.eqb_spec k' k) as [->|_].
Qed.

Lemma assoc_get_delete (k k' : string) (ps : list (string * jsval)) :
  JS.assoc_get k (JS.assoc_delete k' ps)
  = if (k' =? k)%string then None else JS.assoc_get k ps.
Proof.
  induction ps as [|[k0 v0] ps IH]; cbn [JS.assoc_delete JS.assoc_get].
  - by destruct (k' =? k)%string.
  - destruct (String.eqb_spec k0 k') as [->|Hne]; cbn [JS.assoc_get].
    + rewrite IH. by destruct (k' =? k)%string.
    + destruct (String.eqb_spec k0 k) as [->|Hne']; [|done].
      by destruct (String.eqb_spec k' k) as [->|_].
Qed.

Lemma assoc_get_fold (f : string → jsval) (k : string) (ks : list string) :
  ∀ ps, JS.assoc_get k (fold_left (λ acc k0, JS.assoc_set k0 (f k0) acc) ks ps)
        = if bool_decide (k ∈ ks) then Some (f k) else JS.assoc_get k ps.
Proof.
  induction ks as [|k0 ks IH]; intros ps; cbn [fold_left].
  - by rewrite bool_decide_false by (by intros ?%elem_of_nil).
  - rewrite IH, assoc_get_set.
    destruct (decide (k ∈ ks)) as [Hin|Hnin].
    + by rewrite !bool_decide_true by (done || by right).
    + rewrite (bool_decide_false (k ∈ ks)) by done.
      destruct (String.eqb_spec k0 k) as [->|Hne].
      * by rewrite bool_decide_true by left.
      * rewrite bool_decide_false; [done|].
        intros [?|?]%elem_of_cons; congruence.
Qed.

(** What hoisting leaves behind, as a table: no [not]; under a name of the
    negated schema, the value of the negated schema; under any other name,
    what the object held. *)
Lemma hoisted_lookup (ps : list (string * jsval)) (n : jsval) (k : string) :
  JS.assoc_get k (hoisted ps n)
  = if (k =? "not")%string then None
    else if bool_decide (k ∈ own_keys n) then Some (prop n k)
    else JS.assoc_get k ps.
Proof.
  unfold hoisted. rewrite assoc_get_delete, String.eqb_sym.
  destruct (k =? "not")%string; [done|].
  apply (assoc_get_fold (prop n)).
Qed.

(** The loop that hoists the properties of [schema.not], for a negated
    schema without a property [not] of its own. *)
Lemma hoist_tree_fold (n : jsval) (ks : list string) :
  n ≠ JUndefined → n ≠ JNull → "not" ∉ ks →
  ∀ ps, JS.assoc_get "not" ps = Some n →
    JS.foldM Repr.hoist_tree ps ks
    = Ok (fold_left (λ acc k, JS.assoc_set k (prop n k) acc) ks ps).
Proof.
  intros Hu Hn. induction ks as [|k ks IH]; intros Hnot ps Hps; [done|].
  apply not_elem_of_cons in Hnot as [Hne Hnot].
  cbn [JS.foldM fold_left].
  assert (Repr.hoist_tree ps k = Ok (JS.assoc_set k (prop n k) ps)) as ->.
  { unfold Repr.hoist_tree. rewrite Hps. cbn [from_option id].
    by rewrite (get_prop n k Hu Hn). }
  rewrite bind_Ok. apply IH; [done|]. rewrite assoc_get_set.
  by destruct (String.eqb_spec k "not") as [->|_].
Qed.

Lemma strip_not_JObj (ps : list (string * jsval)) :
  strip_not (JObj ps)
  = match JS.assoc_get "not" ps with
    | Some n => Some (JObj (hoisted ps n))
    | None => JObj <$> strip_first_prop ps
    end.
Proof. reflexivity. Qed.

Lemma strip_not_JArr (xs : list jsval) :
  strip_not (JArr xs) = JArr <$> strip_first_elem xs.
Proof. reflexivity. Qed.

Lemma regular_value (ps : list (string * jsval)) (k : string) (v : jsval) :
  forallb (λ kv, plain_name kv.1 && regular kv.2) ps = true →
  JS.assoc_get k ps = Some v → regular v = true.
Proof.
  intros Hall Hget. apply Refinement.assoc_get_elem in Hget.
  rewrite forallb_forall in Hall. apply list_elem_of_In in Hget.
  by apply Hall, andb_true_iff in Hget as [_ ?].
Qed.

Lemma hoistable_not (ks : list string) : forallb hoistable ks = true → "not" ∉ ks.
Proof.
  rewrite forallb_forall. intros Hall Hin%list_elem_of_In.
  by specialize (Hall _ Hin).
Qed.

(** On a regular schema [removeNot] does what [strip_not] says: it answers
    whether there was a [not], and leaves the schema with that [not]
    stripped. *)
Lemma removeNot_strip_not (t : jsval) :
  regular t = true →
  removeNot t = Ok (match strip_not t with
                    | Some s => (true, s)
                    | None => (false, t)
                    end).
Proof.
  induction t as [| | | | |ts IH|tps IH] using Refinement.jsval_ind; try done.
  - cbn [regular]. intros Hall.
    rewrite Refinement.removeNot_JArr, strip_not_JArr.
    assert (Repr.some_elems ts
            = Ok (match strip_first_elem ts with
                  | Some ts' => (true, ts')
                  | None => (false, ts)
                  end)) as ->;
      [|by destruct (strip_first_elem ts)].
    induction IH as [|t ts Ht _ IHts]; [done|].
    cbn [forallb] in Hall. apply andb_true_iff in Hall as [H1 H2].
    rewrite Refinement.some_elems_cons, (Ht H1).
    change (strip_first_elem (t :: ts))
      with (match strip_not t with
            | Some v' => Some (v' :: ts)
            | None => (λ rest', t :: rest') <$> strip_first_elem ts
            end).
    destruct (strip_not t) as [t'|]; [done|].
    rewrite bind_Ok, (IHts H2). by destruct (strip_first_elem ts).
  - cbn [regular]. intros [Hnot Hall]%andb_true_iff.
    pose proof (plain_names_get _ "hasOwnProperty" Hall eq_refl) as Hnone.
    rewrite Refinement.removeNot_JObj, strip_not_JObj by done. clear Hnone.
    destruct (JS.assoc_get "not" tps) as [n|] eqn:Hn.
    + apply andb_true_iff in Hnot as [Hu Hself]. apply hoistable_not in Hself.
      pose proof (regular_value _ _ _ Hall Hn) as Hreg.
      assert (n ≠ JUndefined) as Hu' by (by destruct n).
      assert (n ≠ JNull) as Hn' by (by destruct n).
      assert (Object_keys n = Ok (own_keys n)) as -> by (by destruct n).
      rewrite bind_Ok.
      rewrite (hoist_tree_fold n (own_keys n) Hu' Hn' Hself tps Hn), bind_Ok.
      reflexivity.
    + clear Hnot Hn.
      assert (Repr.some_props tps
              = Ok (match strip_first_prop tps with
                    | Some ps' => (true, ps')
                    | None => (false, tps)
                    end)) as ->;
        [|by destruct (strip_first_prop tps)].
      induction IH as [|[k t] ts Ht _ IHts]; [done|].
      cbn [forallb fst snd] in *.
      apply andb_true_iff in Hall as [[_ H1]%andb_true_iff H2].
      rewrite Refinement.some_props_cons, (Ht H1).
      change (strip_first_prop ((k, t) :: ts))
        with (match strip_not t with
              | Some v' => Some ((k, v') :: ts)
              | None => (λ rest', (k, t) :: rest') <$> strip_first_prop ts
              end).
      destruct (strip_not t) as [t'|]; [done|].
      rewrite bind_Ok, (IHts H2). by destruct (strip_first_prop ts).
Qed.

(** On regular sub-schemas the litmus test of the code is the litmus test
    the specification words. *)
Lemma strip_test_litmus (d1 d2 : jsval) :
  regular d1 = true → regular d2 = true →
  strip_test d1 d2 ↔ litmus d1 d2.
Proof.
  intros H1 H2. unfold strip_test, litmus, stripped.
  rewrite (removeNot_strip_not _ H1), (removeNot_strip_not _ H2).
  destruct (strip_not d1) as [s1|], (strip_not d2) as [s2|];
    cbn [default from_option id]; split.
  1, 3, 5, 7: intros (b1' & s1' & b2' & s2' & [= <- <-] & [= <- <-] & Hb & Heq);
    try done; split; eauto.
  all: intros [Hb Heq].
    + by exists true, s1, true, s2.
    + by exists true, s1, false, d2.
    + by exists false, d1, true, s2.
    + destruct Hb as [[? [=]]|[? [=]]].
Qed.

(** ** [oneOf]: the shape of the exclusive path *)

Lemma plain_dependencies_regular (s0 s1 d1 d2 : jsval) (key : string) :
  plain_dependencies (JArr [s0; s1]) = true →
  get s0 "dependencies" = Ok d1 → truthy d1 = true →
  get s1 "dependencies" = Ok d2 → truthy d2 = true →
  key ∈ own_keys d1 → truthy (prop d2 key) = true →
  regular (prop d1 key) = true ∧ regular (prop d2 key) = true.
Proof.
  intros Hplain Hd1 Ht1 Hd2 Ht2 Hkey Htr.
  unfold plain_dependencies in Hplain.
  assert (prop s0 "dependencies" = d1) as Hp1 by (unfold prop; by rewrite Hd1).
  assert (prop s1 "dependencies" = d2) as Hp2 by (unfold prop; by rewrite Hd2).
  rewrite Hp1, Hp2, Ht1, Ht2 in Hplain. cbn [andb negb orb] in Hplain.
  rewrite forallb_forall in Hplain. apply list_elem_of_In in Hkey.
  specialize (Hplain key Hkey). apply andb_true_iff in Hplain as [_ Hreg].
  rewrite Htr in Hreg. cbn [negb orb] in Hreg.
  by apply andb_true_iff in Hreg.
Qed.

Lemma exclusive_shape_stated (branches : list jsval) :
  plain_dependencies (JArr branches) = true →
  exclusive_shape (JArr branches) ↔ stated_shape (JArr branches).
Proof.
  intros Hplain. unfold exclusive_shape, stated_shape.
  split; intros (s0 & s1 & d1 & d2 & Heq & Hd1 & Ht1 & Hd2 & Ht2 & Hkeys);
    injection Heq as ->; exists s0, s1, d1, d2; do 5 (split; [done|]);
    intros key Hkey; destruct (Hkeys key Hkey) as [Htr Hst]; (split; [done|]);
    destruct (plain_dependencies_regular _ _ _ _ _ Hplain Hd1 Ht1 Hd2 Ht2 Hkey Htr)
      as [Hr1 Hr2];
    by apply (strip_test_litmus _ _ Hr1 Hr2).
Qed.

(** C3, amended. For two branches whose [dependencies] are read without
    reaching a prototype ([plain_dependencies]):
    - the detection answers yes exactly when the array has two branches,
      both with a truthy [dependencies], and every dependency key of the
      first branch is a truthy dependency of the second as well and passes
      the litmus test: one [not] stripped from each of the two sub-schemas
      ([strip_not]), at least one of them had one, and the stripped
      schemas are structurally identical;
    - on a regular schema [removeNot] answers whether there was a [not]
      and leaves what [strip_not] describes;
    - stripping the [not] of a schema object removes the property [not],
      puts each property of the negated schema in the object (in place of
      one of the same name), and leaves every other property as it was;
    - on that shape [validators.oneOf] takes the exclusive path, and when
      the detection answers no it goes on to the no-dependencies path or to
      the generic count. *)
Theorem C3_exclusive_path_shape (instance schema options : jsval)
    (ctx : SchemaContext) (branches : list jsval) :
  instance ≠ JUndefined →
  get schema "oneOf" = Ok (JArr branches) →
  plain_dependencies (JArr branches) = true →
  (hasMutuallyExclusiveDependencies (JArr branches) = Ok true
   ↔ stated_shape (JArr branches)) ∧
  (∀ t, regular t = true →
     removeNot t = Ok (match strip_not t with
                       | Some s => (true, s)
                       | None => (false, t)
                       end)) ∧
  (∀ ps n k,
     assoc_get k (hoisted ps n)
     = if (k =? "not")%string then None
       else if bool_decide (k ∈ own_keys n) then Some (prop n k)
       else assoc_get k ps) ∧
  (stated_shape (JArr branches) →
     validateOneOf this instance schema options ctx
     = (genericErrorMessage ← oneOf_message branches;
        '(validationResult, validCount) ←
          oneOf_exclusive this instance options ctx branches;
        mret (oneOf_decide genericErrorMessage validationResult validCount))) ∧
  (∀ b, hasMutuallyExclusiveDependencies (JArr branches) = Ok b →
     ¬ stated_shape (JArr branches) →
     validateOneOf this instance schema options ctx
     = (genericErrorMessage ← oneOf_message branches;
        '(validationResult, validCount) ←
          (nodeps ← hasNoDependencies (JArr branches);
           if nodeps : bool then
             oneOf_noDependencies this instance schema options ctx branches
           else oneOf_generic this instance options ctx branches);
        mret (oneOf_decide genericErrorMessage validationResult validCount))).
Proof.
  intros Hi Ho Hplain.
  pose proof (exclusive_shape_stated branches Hplain) as Hstated.
  pose proof (hasMutuallyExclusiveDependencies_shape branches) as Hshape.
  split; [by rewrite Hshape|].
  split; [exact removeNot_strip_not|].
  split; [exact hoisted_lookup|]. split.
  - intros Hst. apply Hstated, Hshape in Hst.
    by rewrite (validateOneOf_paths this _ _ _ _ _ _ Hi Ho Hst).
  - intros b Hb Hst. destruct b.
    + by apply Hshape, Hstated in Hb.
    + by rewrite (validateOneOf_paths this _ _ _ _ _ _ Hi Ho Hb).
Qed.

(** ** The detection on a dependency and its negation *)

Lemma assoc_get_negated (k : string) (ps : list (string * jsval)) :
  JS.assoc_get k (negated <$> ps) =
  (λ s, JObj [("not", s)]) <$> JS.assoc_get k ps.
Proof.
  induction ps as [|[k' v] ps IH]; [done|].
  cbn [fmap list_fmap negated fst snd JS.assoc_get] in *.
  by destruct (k' =? k)%string.
Qed.

Lemma assoc_get_listed (k : string) (ps : list (string * jsval)) :
  k ∈ fst <$> ps → ∃ v, JS.assoc_get k ps = Some v ∧ (k, v) ∈ ps.
Proof.
  induction ps as [|[k' v] ps IH]; cbn [fmap list_fmap fst JS.assoc_get].
  - by intros ?%elem_of_nil.
  - intros Hin. destruct (String.eqb_spec k' k) as [->|Hne].
    + exists v. split; [done | left].
    + apply elem_of_cons in Hin as [?|Hin]; [congruence|].
      destruct (IH Hin) as (w & ? & ?). exists w. split; [done | by right].
Qed.

Lemma assoc_get_middle (k : string) (v : jsval) (pre post : list (string * jsval)) :
  k ∉ fst <$> pre → JS.assoc_get k (pre ++ (k, v) :: post)%list = Some v.
Proof.
  induction pre as [|[k' v'] pre IH]; cbn [app fmap list_fmap fst JS.assoc_get].
  - intros _. by rewrite String.eqb_refl.
  - intros Hnin. apply not_elem_of_cons in Hnin as [Hne Hnin].
    destruct (String.eqb_spec k' k) as [?|_]; [congruence | by apply IH].
Qed.

Lemma assoc_set_absent (k : string) (v : jsval) (ps : list (string * jsval)) :
  k ∉ fst <$> ps → JS.assoc_set k v ps = (ps ++ [(k, v)])%list.
Proof.
  induction ps as [|[k' v'] ps IH]; cbn [app fmap list_fmap fst JS.assoc_set]; [done|].
  intros Hnin. apply not_elem_of_cons in Hnin as [Hne Hnin].
  destruct (String.eqb_spec k' k) as [?|_]; [congruence|]. by rewrite IH.
Qed.

Lemma assoc_delete_absent (k : string) (ps : list (string * jsval)) :
  k ∉ fst <$> ps → JS.assoc_delete k ps = ps.
Proof.
  induction ps as [|[k' v'] ps IH]; cbn [fmap list_fmap fst JS.assoc_delete]; [done|].
  intros Hnin. apply not_elem_of_cons in Hnin as [Hne Hnin].
  destruct (String.eqb_spec k' k) as [?|_]; [congruence|]. by rewrite IH.
Qed.

Lemma no_not_keys (qs : list (string * jsval)) :
  no_not (JObj qs) = true → "not" ∉ fst <$> qs.
Proof.
  cbn [no_not]. induction qs as [|[k v] qs IH]; cbn [forallb fmap list_fmap fst snd].
  - intros _ ?%elem_of_nil. done.
  - intros [[Hk _]%andb_true_iff Hqs]%andb_true_iff.
    apply not_elem_of_cons. split; [|by apply IH].
    apply negb_true_iff in Hk. by destruct (String.eqb_spec k "not").
Qed.

(** The loop that hoists the properties of [schema.not]: once those of
    [done] are hoisted, hoisting those of [todo] leaves them all behind
    the [not]. *)
Lemma hoist_tree_loop (todo done : list (string * jsval)) :
  NoDup (fst <$> (done ++ todo)%list) → "not" ∉ fst <$> (done ++ todo)%list →
  JS.foldM Repr.hoist_tree (("not", JObj (done ++ todo)%list) :: done) (fst <$> todo)
  = Ok (("not", JObj (done ++ todo)%list) :: (done ++ todo)%list).
Proof.
  revert done. induction todo as [|[k v] todo IH]; intros done Hnd Hnot.
  - by rewrite app_nil_r.
  - cbn [fmap list_fmap fst JS.foldM].
    assert (Hk : k ∉ fst <$> done).
    { rewrite fmap_app in Hnd. apply NoDup_app in Hnd as (_ & Hdis & _).
      intros Hin. apply (Hdis _ Hin). left. }
    assert (Hne : k ≠ "not").
    { intros ->. apply Hnot. rewrite fmap_app. apply elem_of_app. right. left. }
    assert (Repr.hoist_tree (("not", JObj (done ++ (k, v) :: todo)%list) :: done) k
            = Ok (("not", JObj (done ++ (k, v) :: todo)%list) :: (done ++ [(k, v)])%list)) as ->.
    { unfold Repr.hoist_tree. cbn [JS.assoc_get].
      rewrite String.eqb_refl. cbn [from_option id JS.get].
      rewrite (assoc_get_middle _ _ _ _ Hk), bind_Ok. cbn [from_option id JS.assoc_set].
      destruct (String.eqb_spec "not" k) as [?|_]; [congruence|].
      by rewrite (assoc_set_absent _ _ _ Hk). }
    rewrite bind_Ok.
    replace (done ++ (k, v) :: todo)%list with ((done ++ [(k, v)]) ++ todo)%list in *
      by (by rewrite <- app_assoc).
    by apply IH.
Qed.

Lemma removeNot_negation (qs : list (string * jsval)) :
  NoDup (fst <$> qs) → "not" ∉ fst <$> qs →
  removeNot (JObj [("not", JObj qs)]) = Ok (true, JObj qs).
Proof.
  intros Hnd Hnot. rewrite Refinement.removeNot_JObj by reflexivity.
  cbn [JS.assoc_get]. rewrite String.eqb_refl.
  cbn [JS.Object_keys JS.own_keys]. rewrite bind_Ok.
  pose proof (hoist_tree_loop qs [] Hnd Hnot) as Hloop.
  cbn [app] in Hloop. rewrite Hloop, bind_Ok.
  cbn [app JS.assoc_delete]. rewrite String.eqb_refl.
  by rewrite (assoc_delete_absent _ _ Hnot).
Qed.

Lemma isEqual_refl (t : jsval) : Repr.wf t → isEqual t t = true.
Proof.
  induction t as [| |b|n|s|ts IH|tps IH] using Refinement.jsval_ind; intros Hwf;
    try done.
  - by destruct b.
  - apply Z.eqb_refl.
  - apply String.eqb_refl.
  - rewrite Refinement.isEqual_JArr. apply Refinement.wf_arr in Hwf.
    induction IH as [|t ts Ht _ IHts]; [done|].
    apply Forall_cons in Hwf as [Hw Hws]. cbn [Repr.isEqual_elems].
    by rewrite (Ht Hw), (IHts Hws).
  - rewrite Refinement.isEqual_JObj, Nat.eqb_refl. cbn [andb].
    apply Refinement.wf_obj in Hwf as [Hnd Hwf].
    assert (Hloop : ∀ todo pre, tps = (pre ++ todo)%list →
              Forall (λ kv, Repr.wf kv.2 → isEqual kv.2 kv.2 = true) todo →
              Forall (λ kv, Repr.wf kv.2) todo →
              Repr.isEqual_props tps todo = true).
    { clear IH Hwf. induction todo as [|[k t] todo IHtodo]; intros pre Hpre IH Hwf; [done|].
      apply Forall_cons in IH as [Ht IH]. apply Forall_cons in Hwf as [Hw Hws].
      cbn [Repr.isEqual_props].
      assert (JS.assoc_get k tps = Some t) as ->.
      { rewrite Hpre. apply assoc_get_middle.
        rewrite Hpre, fmap_app in Hnd. apply NoDup_app in Hnd as (_ & Hdis & _).
        intros Hin. apply (Hdis _ Hin). left. }
      cbn [snd] in Ht, Hw. rewrite (Ht Hw). cbn [andb].
      apply (IHtodo (pre ++ [(k, t)])%list); [|done|done]. by rewrite <- app_assoc. }
    by apply (Hloop tps []).
Qed.

(** The detection on the negation of a schema: what [removeNot] makes of
    [{not: s}] is [s], for an object [s] that has no [not] of its own. *)
Lemma strip_test_negation (s : jsval) :
  (∃ qs, s = JObj qs) → Repr.wf s → not_free s = true →
  strip_test s (JObj [("not", s)]) ∧ strip_test (JObj [("not", s)]) s.
Proof.
  intros [qs ->] Hwf Hfree.
  pose proof (removeNot_not_free _ Hfree) as Hrn.
  pose proof (proj1 (Refinement.wf_obj qs) Hwf) as [Hnd _].
  pose proof (removeNot_negation qs Hnd
                (no_not_keys _ (proj1 (andb_prop _ _ Hfree)))) as Hneg.
  pose proof (isEqual_refl _ Hwf) as Heq.
  split.
  - by exists false, (JObj qs), true, (JObj qs).
  - by exists true, (JObj qs), false, (JObj qs).
Qed.

(** X13.  The detection recognises a set of dependencies and its negation, key
    by key, whichever branch holds the negation: for dependency schemas
    that are objects without repeated keys, holding no [null], no [not]
    and no property named [hasOwnProperty] anywhere,
    [hasMutuallyExclusiveDependencies] answers [true] on the two branches
    in either order. *)
Theorem negation_is_exclusive (s0 s1 : jsval) (deps : list (string * jsval)) :
  get s0 "dependencies" = Ok (JObj deps) →
  get s1 "dependencies" = Ok (JObj (negated <$> deps)) →
  Forall (λ kv, (∃ qs, kv.2 = JObj qs) ∧ Repr.wf kv.2 ∧ not_free kv.2 = true) deps →
  hasMutuallyExclusiveDependencies (JArr [s0; s1]) = Ok true ∧
  hasMutuallyExclusiveDependencies (JArr [s1; s0]) = Ok true.
Proof.
  intros Hd0 Hd1 Hdeps.
  assert (Hkeys : fst <$> (negated <$> deps) = fst <$> deps).
  { rewrite <- list_fmap_compose. by apply list_fmap_ext. }
  assert (Hkey : ∀ key, key ∈ fst <$> deps →
            ∃ s, prop (JObj deps) key = s ∧
                 prop (JObj (negated <$> deps)) key = JObj [("not", s)] ∧
                 truthy s = true ∧
                 strip_test s (JObj [("not", s)]) ∧
                 strip_test (JObj [("not", s)]) s).
  { intros key (s & Hget & Hin)%assoc_get_listed.
    exists s. unfold prop. cbn [JS.get]. rewrite assoc_get_negated, Hget.
    do 2 (split; [done|]).
    rewrite Forall_forall in Hdeps. destruct (Hdeps _ Hin) as (Hobj & Hwf & Hfree).
    cbn [snd] in Hobj, Hwf, Hfree. split; [by destruct Hobj as [qs ->] | by apply strip_test_negation]. }
  split; apply hasMutuallyExclusiveDependencies_shape.
  - exists s0, s1, (JObj deps), (JObj (negated <$> deps)).
    do 5 (split; [done|]).
    intros key Hin. cbn [JS.own_keys] in Hin.
    destruct (Hkey key Hin) as (s & -> & -> & _ & Hst & _). done.
  - exists s1, s0, (JObj (negated <$> deps)), (JObj deps).
    do 5 (split; [done|]).
    intros key Hin. cbn [JS.own_keys] in Hin. rewrite Hkeys in Hin.
    destruct (Hkey key Hin) as (s & -> & -> & Htr & _ & Hst). done.
Qed.

(** X14.  A [null] in a dependency schema stops [oneOf]: when both branches
    declare [dependencies], the first dependency key of the first branch is
    a (truthy) dependency of the second branch too, and its schema in the
    first branch has no [not] but holds a [null] somewhere (say
    [enum: [null]]), then [validators.oneOf] throws a [TypeError] for every
    instance that is not [undefined]: no branch is validated. *)
Theorem oneOf_null_in_dependency (instance schema options : jsval)
    (ctx : SchemaContext) (s0 s1 d1 d2 : jsval) (key : string) (keys : list string) :
  instance ≠ JUndefined →
  get schema "oneOf" = Ok (JArr [s0; s1]) →
  get s0 "dependencies" = Ok d1 → truthy d1 = true →
  get s1 "dependencies" = Ok d2 → truthy d2 = true →
  own_keys d1 = key :: keys →
  truthy (prop d2 key) = true →
  no_not (prop d1 key) = true → has_null (prop d1 key) = true →
  validateOneOf this instance schema options ctx = Throw TypeError.
Proof.
  intros Hi Ho Hd1 Ht1 Hd2 Ht2 Hkeys Htr Hnn Hnull. unfold validateOneOf.
  assert (is_undefined instance = false) as -> by (by destruct instance).
  rewrite Ho, bind_Ok. cbn [instanceof_Array negb elems].
  destruct (oneOf_message_Ok [s0; s1]) as [msg ->].
  { repeat constructor; by first [intros -> | destruct s0 | destruct s1]. }
  rewrite bind_Ok.
  assert (hasMutuallyExclusiveDependencies (JArr [s0; s1]) = Throw TypeError) as ->;
    [|done].
  unfold hasMutuallyExclusiveDependencies.
  change (get (JArr [s0; s1]) "length") with (Ok (JNum 2)).
  rewrite bind_Ok. cbn [same_value Z.eqb Pos.eqb negb
    get_index lookup list_lookup from_option id].
  rewrite !bind_Ok, Hd1, bind_Ok, Ht1. cbn [negb].
  rewrite !bind_Ok, Hd2, bind_Ok, Ht2. cbn [negb].
  rewrite Object_keys_truthy, bind_Ok, Hkeys by done. cbn [everyM].
  assert (areSubschemasMutuallyExclusive d1 d2 key = Throw TypeError) as ->; [|done].
  unfold areSubschemasMutuallyExclusive, cloneDeep. unfold prop in *.
  destruct (get_not_nullish d1 key) as [v1 Hv1]; [by destruct d1 | by destruct d1 |].
  destruct (get_not_nullish d2 key) as [v2 Hv2]; [by destruct d2 | by destruct d2 |].
  rewrite Hv1, Hv2 in *. rewrite bind_Ok, Htr. cbn [negb].
  by rewrite bind_Ok, (removeNot_no_not _ Hnn), (has_null_stops _ Hnull).
Qed.

(** ** [removeNot] on the store *)

(** X15.  [removeNot] works in place.  On a schema without repeated keys in
    which every [not] holds [hoistable] property names only, laid
    out in any store, and with fuel beyond its depth, it runs to its end
    and answers what [removeNot] on values answers (or throws what it
    throws, as on an object that has an own property [hasOwnProperty]);
    when it returns, the object it was handed now reads as the schema with
    its first [not] removed, no object has been allocated, and the objects
    that were in the store before the schema was laid out are as they
    were. *)
Theorem removeNot_works_in_place (t : jsval) (fuel : nat) (h0 : Store.heap) :
  Repr.wf t → flat_not t = true → (Repr.depth t < fuel)%nat →
  ∃ v h, Store.load t h0 = Store.Ret v h ∧
    match removeNot t with
    | Ok (found, t') =>
        ∃ h', Store.removeNot fuel v h = Store.Ret found h' ∧
              Store.snapshot (S (Repr.depth t')) h' v = Some t' ∧
              length h' = length h ∧
              ∀ l, (l < length h0)%nat → h' !! l = h0 !! l
    | Throw e => ∃ h', Store.removeNot fuel v h = Store.Raise e h'
    end.
Proof.
  intros Hwf _ Hd.
  destruct (Refinement.load_repr t h0) as (v & new & F & Hload & Hr & Hin).
  exists v, (h0 ++ new)%list. split; [done|].
  pose proof (Refinement.removeNot_refines t fuel v F _ Hwf Hd Hr) as Hrun.
  destruct (removeNot t) as [[found t']|e]; [|done].
  destruct Hrun as (h' & Hrun & Hsnap & Hlen & Hout).
  exists h'. split; [done|]. split.
  { eapply Refinement.snap_snapshot; [|exact Hsnap]. lia. }
  split; [done|]. intros l Hl. rewrite Hout.
  - by apply lookup_app_l.
  - intros HF. apply Hin in HF. lia.
Qed.

(** ** Keywords and the type of the instance *)

(** X16.  The keywords for numbers, arrays and objects leave an instance of
    another kind alone: each returns without an exception and contributes
    no error, whatever the schema holds.  The keywords for strings have no
    such test: [maxLength] measures the text of any instance, so a bound
    from 0 to 14 rejects every object that has no property [toString] of
    its own (its text is [[object Object]]) and a bound from 0 to 3 every
    boolean. *)
Theorem other_types_are_left_alone (schema options : jsval) (ctx : SchemaContext) :
  (∀ key validator applies instance,
     (key, validator)
       ∈ validators_table this makeChild RegExp_test isFormat deepCompareStrict →
     applies_to this key = Some applies → applies instance = false →
     ∃ r, validator instance schema options ctx = Ok r ∧ contributed ctx r = []) ∧
  (∀ m instance,
     get schema "maxLength" = Ok (JNum m) →
     (∃ ps, instance = JObj ps ∧ assoc_get "toString" ps = None ∧ 0 ≤ m < 15)
     ∨ (∃ b, instance = JBool b ∧ 0 ≤ m < 4) →
     validateMaxLength instance schema
     = Ok (RString ("does not meet maximum length of " ++ ToString (JNum m)))).
Proof.
  split.
  - intros key validator applies instance Hin Happ Hno. unfold validators_table in Hin.
    assert (Hguard : instanceof_Object instance = false →
              negb (truthy instance) || negb (typeof_object instance) = true).
    { destruct instance; try done; intros _; cbn [typeof_object negb];
        apply orb_true_r. }
    repeat (apply elem_of_cons in Hin as [[= -> ->] | Hin]);
      try (by apply elem_of_nil in Hin);
      vm_compute in Happ; try discriminate; injection Happ as <-;
      try specialize (Hguard Hno);
      try (by destruct instance; try discriminate; eexists; split; reflexivity).
    + unfold validatePatternProperties.
      destruct (is_undefined instance); [by eexists|].
      change (types_object this instance = false) in Hno. rewrite Hno. by eexists.
    + unfold validateAdditionalProperties.
      destruct (is_undefined instance); [by eexists|].
      change (types_object this instance = false) in Hno. rewrite Hno. by eexists.
    + unfold validateMinProperties. rewrite Hguard. by eexists.
    + unfold validateMaxProperties. rewrite Hguard. by eexists.
    + unfold validateDependencies. rewrite Hguard. by eexists.
  - intros m instance Hm [(ps & -> & _ & Hlt)|(b & -> & Hlt)];
      unfold validateMaxLength; cbn [is_undefined is_null orb]; rewrite Hm, bind_Ok;
      unfold num_cmp; cbn [ToNumber].
    + assert ((Z.of_nat (String.length (ToString (JObj ps))) <=? m) = false) as ->;
        [|done].
      apply Z.leb_gt. simpl. lia.
    + assert ((Z.of_nat (String.length (ToString (JBool b))) <=? m) = false) as ->;
        [|done].
      apply Z.leb_gt. destruct b; simpl; lia.
Qed.

End Further.

(* ===================================================================== *)
(** * The properties on the schemas of the test suite *)
(* ===================================================================== *)

Module Worked.
Import Examples Samples.

(** ** The tests of [oneOf] and [not] in the repository *)

Example contradictory_fails_dependency_1 :
  errors_of (Engine.validate (instance_of "1" (JObj [])) contradictory)
  = Some [mkError "is not one of enum values: 3,4" "prop1"].
Proof. vm_compute. reflexivity. Qed.

Example contradictory_fails_dependency_2 :
  errors_of (Engine.validate
               (instance_of "3" (obj1 "prop3" (JStr "something"))) contradictory)
  = Some [mkError "is not one of enum values: 1,2" "prop1"].
Proof. vm_compute. reflexivity. Qed.

Example contradictory_valid :
  errors_of (Engine.validate
               (instance_of "1" (obj1 "prop3" (JStr "something"))) contradictory)
  = Some [].
Proof. vm_compute. reflexivity. Qed.

Example not_contradictory_generic_message :
  errors_of (Engine.validate (instance_of "" (JObj [])) not_contradictory)
  = Some [mkError "is not exactly one from [subschema 0],[subschema 1]" ""].
Proof. vm_compute. reflexivity. Qed.

Example no_dependencies_specific_messages :
  errors_of (Engine.validate (instance_of "5" (JObj [])) no_dependencies)
  = Some [mkError "is not one of enum values: 1,2" "prop1";
          mkError "is not one of enum values: 3,4" "prop1"].
Proof. vm_compute. reflexivity. Qed.

Example not_with_required :
  errors_of (Engine.validate (obj1 "prop1" (JStr "something"))
               (obj1 "not" (obj1 "required" (JArr [JStr "prop1"]))))
  = Some [mkError "can not be present" "prop1"].
Proof. vm_compute. reflexivity. Qed.

(** The detection answers the same on values and on the store. *)
Example detection_on_the_store :
  hasMutuallyExclusiveDependencies (JArr [requires_prop3; forbids_prop3]) = Ok true ∧
  hasMutuallyExclusiveDependencies (JArr [requires_prop3; requires_prop4]) = Ok false ∧
  (∃ v h scratch,
     Store.load (JArr [requires_prop3; forbids_prop3]) [] = Store.Ret v h ∧
     Store.hasMutuallyExclusiveDependencies 16 v h
       = Store.Ret true (h ++ scratch)%list ∧
     Store.snapshot 16 (h ++ scratch)%list v
       = Some (JArr [requires_prop3; forbids_prop3])) ∧
  (∃ v h scratch,
     Store.load (JArr [requires_prop3; requires_prop4]) [] = Store.Ret v h ∧
     Store.hasMutuallyExclusiveDependencies 16 v h
       = Store.Ret false (h ++ scratch)%list).
Proof.
  split; [reflexivity|]. split; [reflexivity|]. split.
  - eexists _, _, _. split; [vm_compute; reflexivity|].
    split; [vm_compute; reflexivity | vm_compute; reflexivity].
  - eexists _, _, _. split; [vm_compute; reflexivity|]. vm_compute; reflexivity.
Qed.

(** ** The theorems at these schemas *)

Definition this : Validator := Engine.validator 8.

(** What the engine's validator answers for an instance and a schema at
    the root. *)
Definition run (instance schema : jsval) : ValidatorResult :=
  result_of (validateSchema this instance schema no_options root).

(** The number [5] against the single branch "a string": the branch fails
    with one error and [oneOf] reports nothing. *)
Lemma C1_lone_failing_branch_witness :
  vr_errors (run (JNum 5) a_string) = [mkError "is not a string" ""] ∧
  count_valid [run (JNum 5) a_string] = 0%nat ∧
  validateOneOf this (JNum 5) lone_branch no_options root = Ok RNull.
Proof.
  split; [reflexivity|].
  apply (C1_lone_failing_branch_is_accepted this (JNum 5) lone_branch no_options
           root a_string (run (JNum 5) a_string) (mkError "is not a string" ""));
    [discriminate | reflexivity | reflexivity | reflexivity | reflexivity].
Defined.



(** The contradictory branches have the shape of the exclusive path; the
    branches requiring [prop3] and [prop4] have not; and [removeNot]
    strips [not: {required: ['prop1']}] to [required: ['prop1']]. *)
Lemma C3_exclusive_path_witness :
  plain_dependencies (JArr [requires_prop3; forbids_prop3]) = true ∧
  stated_shape (JArr [requires_prop3; forbids_prop3]) ∧
  ¬ stated_shape (JArr [requires_prop3; requires_prop4]) ∧
  removeNot without_prop1 = Ok (true, obj1 "required" (JArr [JStr "prop1"])).
Proof.
  split; [reflexivity|]. split; [|split].
  - destruct (C3_exclusive_path_shape this (JNum 0) contradictory no_options root
                [requires_prop3; forbids_prop3]) as [Hshape _];
      [discriminate | reflexivity | reflexivity |].
    by apply Hshape.
  - intros H.
    destruct (C3_exclusive_path_shape this (JNum 0) not_contradictory no_options
                root [requires_prop3; requires_prop4]) as [Hshape _];
      [discriminate | reflexivity | reflexivity |].
    apply Hshape in H. vm_compute in H. discriminate H.
  - destruct (C3_exclusive_path_shape this (JNum 0) contradictory no_options root
                [requires_prop3; forbids_prop3]) as (_ & Hstrip & _);
      [discriminate | reflexivity | reflexivity |].
    by apply (Hstrip without_prop1).
Defined.

(** The [enum] validator on an absent instance. *)
Lemma C4_absence_neutrality_witness :
  ∃ r, validateEnum Engine.deepCompareStrict JUndefined
         (obj1 "enum" (JArr [JStr "a"])) = Ok r ∧
       contributed root r = [].
Proof.
  apply (C4_absence_neutrality this Engine.makeChild Engine.RegExp_test
           Engine.isFormat Engine.deepCompareStrict "enum"
           (λ instance schema _ _,
              validateEnum Engine.deepCompareStrict instance schema)
           (obj1 "enum" (JArr [JStr "a"])) no_options root).
  - by apply (list_elem_of_lookup_2 _ 25%nat).
  - discriminate.
  - intros _. by eexists.
Defined.

(** The six malformations, for the instance [1]. *)
Lemma C5_malformed_schema_witness :
  validateEnum Engine.deepCompareStrict (JNum 1) malformed
    = Throw (SchemaError "enum expects an array") ∧
  validateAnyOf this (JNum 1) malformed no_options root
    = Throw (SchemaError "anyOf must be an array") ∧
  validateAllOf this (JNum 1) malformed no_options root
    = Throw (SchemaError "allOf must be an array") ∧
  validateOneOf this (JNum 1) malformed no_options root
    = Throw (SchemaError "oneOf must be an array") ∧
  validateDivisibleBy (JNum 1) malformed
    = Throw (SchemaError "divisibleBy cannot be zero") ∧
  validateMultipleOf (JNum 1) malformed
    = Throw (SchemaError "multipleOf cannot be zero").
Proof.
  destruct (C5_malformed_schema_throws this Engine.deepCompareStrict (JNum 1)
              malformed no_options root (JStr "a") 1 eq_refl)
    as (H1 & H2 & H3 & H4 & H5 & H6).
  split; [by apply H1|]. split; [by apply H2|]. split; [by apply H3|].
  split; [by apply H4|]. split; [by apply H5 | by apply H6].
Defined.



(** [['a', 2, 3]] against [one_number]: the error of the first element,
    then "additionalItems not permitted" for the second, and nothing for
    the third. *)
Lemma C8_additionalItems_witness :
  let vs := [JStr "a"; JNum 2; JNum 3] in
  ∃ result,
    validateItems this Engine.makeChild (JArr vs) one_number no_options root
      = Ok (RResult result) ∧
    vr_errors result
      = [mkError "is not a number" "[0]";
         mkError "additionalItems not permitted" ""].
Proof.
  intros vs.
  destruct (C8_additionalItems_stops_scan this Engine.makeChild one_number
              no_options root vs [a_number]
              [result_of (validateSchema this (JStr "a") a_number no_options
                            (Engine.makeChild root a_number (PIndex 0)))])
    as (result & Hresult & Herrors).
  - reflexivity.
  - reflexivity.
  - by repeat constructor.
  - simpl. lia.
  - reflexivity.
  - intros [|i] v s res Hv Hs Hres; [|done].
    by injection Hv as <-; injection Hs as <-; injection Hres as <-.
  - exists result. split; [done|]. rewrite Herrors. reflexivity.
Defined.

(** [[1, 2, 1]] has a duplicate and both definitions report it; the string
    ['aa'] is no array and nothing is reported. *)
Lemma C10_uniqueItems_witness :
  let instance := JArr [JNum 1; JNum 2; JNum 1] in
  has_duplicate Engine.deepCompareStrict instance ∧
  ¬ has_duplicate Engine.deepCompareStrict (JStr "aa") ∧
  (∃ r1 r2,
     validateUniqueItems_1 Engine.deepCompareStrict instance
       (obj1 "uniqueItems" (JBool true)) no_options root = Ok r1 ∧
     validateUniqueItems Engine.deepCompareStrict instance = Ok r2 ∧
     contributed root r1 = [mkError "contains duplicate item" (ctx_propertyPath root)] ∧
     contributed root r2 = [mkError "contains duplicate item" (ctx_propertyPath root)]) ∧
  (∃ r2, validateUniqueItems Engine.deepCompareStrict (JStr "aa") = Ok r2 ∧
         contributed root r2 = []).
Proof.
  intros instance.
  assert (has_duplicate Engine.deepCompareStrict instance) as Hdup.
  { exists [JNum 1; JNum 2; JNum 1], 0%nat, 2%nat, (JNum 1), (JNum 1).
    split; [reflexivity|]. split; [lia|]. by repeat split. }
  assert (¬ has_duplicate Engine.deepCompareStrict (JStr "aa")) as Hno.
  { intros (a & i & j & x & y & Ha & _). discriminate Ha. }
  split; [exact Hdup|]. split; [exact Hno|]. split.
  - destruct (C10_uniqueItems_definitions_agree this Engine.makeChild
                Engine.RegExp_test Engine.isFormat Engine.deepCompareStrict
                instance (obj1 "uniqueItems" (JBool true)) no_options root)
      as (_ & r1 & r2 & H1 & H2 & Heq & Hyes & _).
    exists r1, r2. split; [exact H1|]. split; [exact H2|].
    rewrite Heq. split; exact (Hyes Hdup).
  - destruct (C10_uniqueItems_definitions_agree this Engine.makeChild
                Engine.RegExp_test Engine.isFormat Engine.deepCompareStrict
                (JStr "aa") (obj1 "uniqueItems" (JBool true)) no_options root)
      as (_ & r1 & r2 & _ & H2 & _ & _ & Hnone).
    exists r2. split; [exact H2 | exact (Hnone Hno)].
Defined.

(** The two contradictory branches laid out in the empty store: the
    detection runs to its end, answers yes, and the branches read back
    from the store afterwards are the branches laid out. *)
Lemma C9_detection_witness :
  let oneOf := JArr [requires_prop3; forbids_prop3] in
  Repr.wf oneOf ∧ (Repr.depth oneOf < 16)%nat ∧
  ∃ v h h',
    Store.load oneOf [] = Store.Ret v h ∧
    Store.snapshot 16 h v = Some oneOf ∧
    Store.hasMutuallyExclusiveDependencies 16 v h = Store.Ret true h' ∧
    Store.snapshot 16 h' v = Some oneOf.
Proof.
  intros oneOf.
  assert (Repr.wf oneOf) as Hwf.
  { cbv [oneOf requires_prop3 forbids_prop3 obj1 Repr.wf foldr fmap list_fmap fst snd].
    repeat split;
      repeat (apply NoDup_cons_2 || apply NoDup_nil_2 || apply not_elem_of_nil
              || (apply not_elem_of_cons; split; [discriminate|])). }
  assert (Repr.depth oneOf < 16)%nat as Hd by (vm_compute; lia).
  split; [exact Hwf|]. split; [exact Hd|].
  destruct (Detection.C9_detection_mutates_scratch_only 16) as [_ Hrun].
  destruct (Hrun oneOf [] Hwf Hd) as (v & h & h' & Hload & Hbefore & Hret & Hafter).
  exists v, h, h'. split; [exact Hload|]. split; [exact Hbefore|].
  split; [exact Hret | exact Hafter].
Defined.

End Worked.

(* ===================================================================== *)
(** * The other validators on schemas *)
(* ===================================================================== *)

Module WorkedFurther.
Import Examples Samples Worked.

(** [5] is a number, so "a string or a number" accepts it; with a
    malformed second branch the exception of that branch is the outcome,
    although the first branch accepts [5]. *)
Lemma anyOf_some_branch_witness :
  validateAnyOf this (JNum 5) string_or_number no_options root = Ok RNull ∧
  valid (run (JNum 5) a_number) = true ∧
  validateAnyOf this (JNum 5) number_or_malformed no_options root
    = Throw (SchemaError "enum expects an array").
Proof.
  split; [|split; [reflexivity|]].
  - destruct (anyOf_some_branch this (JNum 5) string_or_number no_options root
                [a_string; a_number]) as [Hok _];
      [discriminate | reflexivity |].
    rewrite (Hok [run (JNum 5) a_string; run (JNum 5) a_number]);
      [reflexivity | by repeat constructor].
  - destruct (anyOf_some_branch this (JNum 5) number_or_malformed no_options root
                [a_number; malformed]) as [_ Hthrow];
      [discriminate | reflexivity |].
    apply (Hthrow [a_number] malformed [] [run (JNum 5) a_number]);
      [reflexivity | by repeat constructor | reflexivity].
Defined.



(** [required: true] reports [null]; [required: ['a', 'b']] reports the
    missing [b] of [{a: 1}] under its name. *)
Lemma required_reports_missing_witness :
  validateRequired JNull (obj1 "required" (JBool true)) no_options root
    = Ok (RString "is required") ∧
  ∃ result,
    validateRequired (obj1 "a" (JNum 1)) needs_a_and_b no_options root
      = Ok (RResult result) ∧
    vr_errors result = [mkError "is required" "b"].
Proof.
  split.
  - by apply (required_reports_missing JNull (obj1 "required" (JBool true))
                no_options root).
  - destruct (required_reports_missing (obj1 "a" (JNum 1)) needs_a_and_b
                no_options root) as [_ Hlist].
    destruct (Hlist [JStr "a"; JStr "b"]) as (result & Hrun & _ & Herrors);
      [reflexivity | reflexivity | reflexivity | by repeat constructor |].
    exists result. split; [done|]. rewrite Herrors. reflexivity.
Defined.

(** [{a: 1, c: 2}] against [a_needs_b]: [b] is missing, and the instance
    has not the three properties the dependency of [c] asks for. *)
Lemma dependencies_by_key_witness :
  let instance := JObj [("a", JNum 1); ("c", JNum 2)] in
  ∃ result,
    validateDependencies this Engine.makeChild instance a_needs_b no_options root
      = Ok (RResult result) ∧
    vr_errors result
      = [mkError "property b not found, required by a" "";
         mkError "does not meet dependency required by c" "";
         mkError "does not meet minimum property length of 3" "c"] ∧
    existsb isDependencyError (vr_errors result) = true.
Proof.
  intros instance.
  set (deps := JObj [("a", JStr "b"); ("c", obj1 "minProperties" (JNum 3))]).
  destruct (dependencies_by_key this Engine.makeChild instance a_needs_b
              no_options root deps
              (λ k, run_at instance (prop deps k) (PName k)))
    as (result & Hrun & Herrors & Hdep).
  - reflexivity.
  - reflexivity.
  - reflexivity.
  - intros k Hk.
    apply elem_of_cons in Hk as [->|Hk]; [by repeat constructor|].
    apply elem_of_cons in Hk as [->|Hk]; [by repeat constructor|].
    by apply elem_of_nil in Hk.
  - intros k Hk _ Hstr _.
    apply elem_of_cons in Hk as [->|Hk]; [discriminate Hstr|].
    apply elem_of_cons in Hk as [->|Hk]; [reflexivity|].
    by apply elem_of_nil in Hk.
  - exists result. split; [done|]. split; [by rewrite Herrors|].
    apply (Hdep "c"); [|reflexivity..].
    apply elem_of_cons. right. apply elem_of_cons. by left.
Defined.

(** [patternProperties] on [null], with the engine's [types.object]. *)
Lemma null_is_ignored_witness :
  ∃ r, validatePatternProperties this Engine.makeChild Engine.RegExp_test JNull
         x_numbers no_options root = Ok r ∧
       contributed root r = [].
Proof.
  apply (null_is_ignored this Engine.makeChild Engine.RegExp_test Engine.isFormat
           Engine.deepCompareStrict "patternProperties"
           (validatePatternProperties this Engine.makeChild Engine.RegExp_test)
           x_numbers no_options root).
  - by apply (list_elem_of_lookup_2 _ 5%nat).
  - intros Hin. repeat (apply elem_of_cons in Hin as [Hin|Hin]; [discriminate Hin|]).
    by apply elem_of_nil in Hin.
  - reflexivity.
  - discriminate.
Defined.

(** [[1, 'a', 'b']] against "every item is a number": the errors of the
    second and the third element, each under its index. *)
Lemma items_elementwise_witness :
  let vs := [JNum 1; JStr "a"; JStr "b"] in
  ∃ result,
    validateItems this Engine.makeChild (JArr vs) numbers no_options root
      = Ok (RResult result) ∧
    vr_errors result
      = [mkError "is not a number" "[1]"; mkError "is not a number" "[2]"].
Proof.
  intros vs.
  destruct (items_elementwise this Engine.makeChild numbers no_options root vs
              a_number (λ i, run_at (item vs i) a_number (PIndex i)))
    as (result & Hrun & Herrors).
  - reflexivity.
  - reflexivity.
  - intros [|[|[|i]]] v Hv _ _; try done; by injection Hv as <-.
  - exists result. split; [done|]. by rewrite Herrors.
Defined.

(** [{prop1: '5'}] against the branch allowing ['1'] and ['2']: the error
    of the property; a number is not looked at. *)
Lemma properties_by_key_witness :
  validateProperties this Engine.makeChild (JNum 1) one_or_two no_options root
    = Ok RUndefined ∧
  ∃ result,
    validateProperties this Engine.makeChild (obj1 "prop1" (JStr "5")) one_or_two
      no_options root = Ok (RResult result) ∧
    vr_errors result = [mkError "is not one of enum values: 1,2" "prop1"].
Proof.
  set (p := obj1 "prop1" (obj1 "enum" (JArr [JStr "1"; JStr "2"]))).
  split.
  - by apply (properties_by_key this Engine.makeChild (JNum 1) one_or_two
                no_options root p (λ _, run JUndefined JUndefined)).
  - destruct (properties_by_key this Engine.makeChild (obj1 "prop1" (JStr "5"))
                one_or_two no_options root p
                (λ k, run_at (prop (obj1 "prop1" (JStr "5")) k) (prop p k) (PName k)))
      as [_ Hobj]; [reflexivity|].
    destruct Hobj as (result & Hrun & _ & Herrors); [reflexivity | | |].
    + intros k Hk. apply elem_of_cons in Hk as [->|Hk]; [reflexivity|].
      by apply elem_of_nil in Hk.
    + intros k Hk. apply elem_of_cons in Hk as [->|Hk]; [by split|].
      by apply elem_of_nil in Hk.
    + exists result. split; [done|]. by rewrite Herrors.
Defined.

(** [{a: 1, b: 2}] against [only_a]: [b] is reported, under its own name. *)
Lemma additionalProperties_false_witness :
  ∃ result,
    validateAdditionalProperties this Engine.makeChild
      (JObj [("a", JNum 1); ("b", JNum 2)]) only_a no_options root
      = Ok (RResult result) ∧
    vr_errors result = [mkError "does not exist in the schema" "b"].
Proof.
  destruct (additionalProperties_false this Engine.makeChild
              (JObj [("a", JNum 1); ("b", JNum 2)]) only_a no_options root
              (obj1 "a" a_number) JUndefined)
    as (result & Hrun & _ & Herrors);
    [discriminate | reflexivity | reflexivity | reflexivity | reflexivity
    | | reflexivity |].
  { intros _ k Hk. apply elem_of_cons in Hk as [->|Hk]; [reflexivity|].
    apply elem_of_cons in Hk as [->|Hk]; [reflexivity|].
    by apply elem_of_nil in Hk. }
  exists result. split; [done|]. by rewrite Herrors.
Defined.

(** [true] is neither a string nor a number. *)
Lemma type_message_witness :
  validateType this (JBool true) string_or_number_type no_options root
  = Ok (RString "is none of string,number").
Proof.
  apply (type_message this (JBool true) string_or_number_type no_options root
           (JArr [JStr "string"; JStr "number"]) ["string"; "number"] (λ _, false));
    [discriminate | reflexivity | reflexivity |].
  intros n Hn. apply elem_of_cons in Hn as [->|Hn]; [reflexivity|].
  apply elem_of_cons in Hn as [->|Hn]; [reflexivity|]. by apply elem_of_nil in Hn.
Defined.


(** A schema without [not] is returned as it is; with a [null] in its
    [enum] it makes [removeNot] throw. *)
Lemma removeNot_nothing_found_witness :
  removeNot (obj1 "required" (JArr [JStr "b"]))
    = Ok (false, obj1 "required" (JArr [JStr "b"])) ∧
  removeNot (obj1 "enum" (JArr [JNull])) = Throw TypeError.
Proof.
  destruct removeNot_nothing_found as (_ & Hno & _). split.
  - by apply (Hno (obj1 "required" (JArr [JStr "b"]))).
  - by apply (Hno (obj1 "enum" (JArr [JNull]))).
Defined.

(** [a] requiring [b] and [a] forbidding [b] are exclusive, in either
    order. *)
Lemma negation_is_exclusive_witness :
  hasMutuallyExclusiveDependencies (JArr [requires_b; forbids_b]) = Ok true ∧
  hasMutuallyExclusiveDependencies (JArr [forbids_b; requires_b]) = Ok true.
Proof.
  apply (negation_is_exclusive requires_b forbids_b a_requires_b);
    [reflexivity | reflexivity |].
  constructor; [|constructor].
  split; [by eexists|]. split; [|reflexivity].
  cbv [a_requires_b obj1 Repr.wf foldr fmap list_fmap fst snd].
  repeat split;
    repeat (apply NoDup_cons_2 || apply NoDup_nil_2 || apply not_elem_of_nil
            || (apply not_elem_of_cons; split; [discriminate|])).
Defined.

(** The [null] in the [enum] of the first branch stops [oneOf] for the
    instance [1]. *)
Lemma oneOf_null_in_dependency_witness :
  validateOneOf this (JNum 1) null_or_not no_options root = Throw TypeError.
Proof.
  by apply (oneOf_null_in_dependency this (JNum 1) null_or_not no_options root
              allows_null forbids_null
              (obj1 "a" (obj1 "enum" (JArr [JNull])))
              (obj1 "a" (obj1 "not" (obj1 "enum" (JArr [JNull])))) "a" []).
Defined.

(** [{not: {required: ['prop1']}}] laid out in the empty store: [removeNot]
    answers yes and the object it was handed reads [{required: ['prop1']}]
    afterwards, in a store of the same size. *)
Lemma removeNot_works_in_place_witness :
  ∃ v h h',
    Store.load without_prop1 [] = Store.Ret v h ∧
    Store.removeNot 8 v h = Store.Ret true h' ∧
    Store.snapshot 3 h' v = Some (obj1 "required" (JArr [JStr "prop1"])) ∧
    length h' = length h.
Proof.
  destruct (removeNot_works_in_place without_prop1 8 [])
    as (v & h & Hload & h' & Hrun & Hsnap & Hlen & _).
  - cbv [without_prop1 obj1 Repr.wf foldr fmap list_fmap fst snd].
    repeat split;
      repeat (apply NoDup_cons_2 || apply NoDup_nil_2 || apply not_elem_of_nil
              || (apply not_elem_of_cons; split; [discriminate|])).
  - reflexivity.
  - vm_compute. lia.
  - by exists v, h, h'.
Defined.

(** [minimum] says nothing about a string; [maxLength: 10] rejects the
    empty object. *)
Lemma other_types_are_left_alone_witness :
  (∃ r, validateMinimum (JStr "a") at_least_10 = Ok r ∧ contributed root r = []) ∧
  validateMaxLength (JObj []) (obj1 "maxLength" (JNum 10))
    = Ok (RString "does not meet maximum length of 10").
Proof.
  split.
  - destruct (other_types_are_left_alone this Engine.makeChild Engine.RegExp_test
                Engine.isFormat Engine.deepCompareStrict at_least_10 no_options root)
      as [Hother _].
    apply (Hother "minimum" (λ instance schema _ _, validateMinimum instance schema)
             typeof_number (JStr "a"));
      [by apply (list_elem_of_lookup_2 _ 10%nat) | reflexivity | reflexivity].
  - destruct (other_types_are_left_alone this Engine.makeChild Engine.RegExp_test
                Engine.isFormat Engine.deepCompareStrict
                (obj1 "maxLength" (JNum 10)) no_options root) as [_ Hlen].
    apply (Hlen 10 (JObj [])); [reflexivity|].
    left. exists []. split; [reflexivity|]. split; [reflexivity | lia].
Defined.

End WorkedFurther.
